(** * Session RAG: the transcript parser, the embedding batcher, the store
      queries and the ingest loop, embedded in Rocq.

    Sources embedded here:
    - [src/parser.ts]    : [extractContent], [extractFilePaths],
                           [parseSessionFile];
    - [src/embedder.ts]  : [embedBatch];
    - [src/db/index.ts]  : [upsertSession], [insertChunks],
                           [semanticSearch], [hybridSearch];
    - [src/cli.ts]       : the body of the [ingest] command's loop.

    Conventions.
    - A JavaScript string is the list of its UTF-16 code units, so that
      [length], [slice], [trim] and the regular expressions (which run
      without the [u] flag) count what the source counts.
    - A line of a transcript is given after [JSON.parse]: [None] is a line
      on which the body of the inner [try] throws, [Some m] a record of one
      of the declared interfaces (or of an unknown tag).
    - The services the code talks to (the embedding service, the operators
      of the store) are variables of a section. *)

From stdpp Require Import base option list strings gmap sorting numbers.
From Stdlib Require Import QArith Qcanon.

Close Scope Q_scope.
Close Scope Qc_scope.

Set Warnings "-clear-no-such-hyp".

(* ================================================================== *)
(** * JavaScript strings *)
(* ================================================================== *)

Module JS.

(** One UTF-16 code unit. *)
Definition cu := N.

Definition jsstring := list cu.

(** A string literal of the source (characters below 256). *)
Definition lit (s : string) : jsstring :=
  map Ascii.N_of_ascii (String.list_ascii_of_string s).

Definition cu_eqb (a b : cu) : bool := N.eqb a b.

Fixpoint str_eqb (a b : jsstring) : bool :=
  match a, b with
  | [], [] => true
  | x :: a', y :: b' => cu_eqb x y && str_eqb a' b'
  | _, _ => false
  end.

Definition between (lo hi c : cu) : bool := N.leb lo c && N.leb c hi.

(** ECMAScript WhiteSpace and LineTerminator: what [trim] strips and what
    [\s] matches. *)
Definition is_space (c : cu) : bool :=
  (between 9 13 c || cu_eqb c 32 || cu_eqb c 160 || cu_eqb c 5760
   || between 8192 8202 c || cu_eqb c 8232 || cu_eqb c 8233
   || cu_eqb c 8239 || cu_eqb c 8287 || cu_eqb c 12288
   || cu_eqb c 65279)%N.

(** [\w] is [A-Za-z0-9_]. *)
Definition is_word (c : cu) : bool :=
  (between 65 90 c || between 97 122 c || between 48 57 c || cu_eqb c 95)%N.

Fixpoint trimStart (s : jsstring) : jsstring :=
  match s with
  | c :: s' => if is_space c then trimStart s' else s
  | [] => []
  end.

Definition trimEnd (s : jsstring) : jsstring :=
  reverse (trimStart (reverse s)).

(** [s.trim()] *)
Definition trim (s : jsstring) : jsstring := trimEnd (trimStart s).

(** [s.slice(0, n)] *)
Definition slice0 (n : nat) (s : jsstring) : jsstring := take n s.

(** [s.startsWith(p)] *)
Fixpoint startsWith (p s : jsstring) : bool :=
  match p, s with
  | [], _ => true
  | x :: p', y :: s' => cu_eqb x y && startsWith p' s'
  | _ :: _, [] => false
  end.

(** [s.includes(p)] *)
Fixpoint includes (p s : jsstring) : bool :=
  startsWith p s ||
  match s with
  | [] => false
  | _ :: s' => includes p s'
  end.

(** Truthiness of a string: the empty string is falsy. *)
Definition truthy (s : jsstring) : bool :=
  match s with [] => false | _ => true end.

(** Truthiness of a property that may be absent. *)
Definition truthy_opt (o : option jsstring) : bool :=
  match o with Some s => truthy s | None => false end.

(** [a || b] on possibly absent strings: the first truthy operand,
    else the last operand. *)
Definition or_else (a b : option jsstring) : option jsstring :=
  if truthy_opt a then a else b.

(** [a || ''] *)
Definition or_empty (a : option jsstring) : jsstring :=
  match a with
  | Some s => if truthy s then s else []
  | None => []
  end.

(** [Math.ceil(n / d)] on non-negative integers. *)
Definition ceil_div (n d : nat) : nat :=
  n `div` d + (if n `mod` d =? 0 then 0 else 1).

End JS.

(* ================================================================== *)
(** * Regular expressions (the fragment the parser uses) *)
(* ================================================================== *)

Module Regex.
Import JS.

(** Patterns have at most one capture group, numbered 1. Quantifiers in
    the source are always applied to a character class, and are all
    greedy. *)
Inductive regex : Type :=
| Eps                                            (* empty pattern *)
| Bol                                            (* ^ , no m flag *)
| Cls (p : cu -> bool)                           (* one code unit of a class *)
| Seq (r1 r2 : regex)
| Alt (r1 r2 : regex)                            (* r1|r2, r1 first *)
| Rep (p : cu -> bool) (mn : nat) (mx : option nat) (* [p]{mn,mx} greedy *)
| Grp (r : regex).                               (* ( r ) *)

Definition Chr (c : cu) : regex := Cls (cu_eqb c).

Fixpoint Lit (s : jsstring) : regex :=
  match s with
  | [] => Eps
  | c :: s' => Seq (Chr c) (Lit s')
  end.

Definition Plus (p : cu -> bool) : regex := Rep p 1 None.
Definition Star (p : cu -> bool) : regex := Rep p 0 None.

(** Position in the subject, what is left of it, capture group 1. *)
Definition mstate : Type := nat * jsstring * option jsstring.

Definition cont : Type := mstate -> option mstate.

Definition allows (mx : option nat) : bool :=
  match mx with Some 0 => false | _ => true end.

(** Greedy repetition with backtracking: take one more code unit when
    possible and try the rest; give it back if the rest fails. *)
Fixpoint rep (p : cu -> bool) (mn : nat) (mx : option nat)
         (pos : nat) (s : jsstring) (cap : option jsstring) (k : cont)
  : option mstate :=
  let stop := match mn with 0 => k (pos, s, cap) | S _ => None end in
  match s with
  | c :: s' =>
      if p c && allows mx then
        match rep p (pred mn) (pred <$> mx) (S pos) s' cap k with
        | Some r => Some r
        | None => stop
        end
      else stop
  | [] => stop
  end.

(** Backtracking matcher in continuation-passing style. *)
Fixpoint run (r : regex) (st : mstate) (k : cont) : option mstate :=
  match r with
  | Eps => k st
  | Bol => let '(pos, _, _) := st in
           match pos with 0 => k st | S _ => None end
  | Cls p =>
      let '(pos, s, cap) := st in
      match s with
      | c :: s' => if p c then k (S pos, s', cap) else None
      | [] => None
      end
  | Seq r1 r2 => run r1 st (fun st' => run r2 st' k)
  | Alt r1 r2 =>
      match run r1 st k with
      | Some x => Some x
      | None => run r2 st k
      end
  | Rep p mn mx => let '(pos, s, cap) := st in rep p mn mx pos s cap k
  | Grp r1 =>
      let '(pos, s, _) := st in
      run r1 st (fun '(pos', s', _) => k (pos', s', Some (take (pos' - pos) s)))
  end.

(** A match anchored at [pos]: its end and its capture. *)
Definition match_at (r : regex) (pos : nat) (s : jsstring)
  : option (nat * option jsstring) :=
  match run r (pos, s, None) Some with
  | Some (e, _, cap) => Some (e, cap)
  | None => None
  end.

(** [re.exec(s)] for a pattern without the g flag: the leftmost match.
    [s] is the subject from [pos] on. *)
Fixpoint exec_from (r : regex) (pos : nat) (s : jsstring)
  : option (option jsstring) :=
  match match_at r pos s with
  | Some (_, cap) => Some cap
  | None =>
      match s with
      | [] => None
      | _ :: s' => exec_from r (S pos) s'
      end
  end.

(** [s.match(re)] without the g flag; the result is [match[1]]. *)
Definition match1 (r : regex) (s : jsstring) : option (option jsstring) :=
  exec_from r 0 s.

(** [s.matchAll(re)] with the g flag, as the list of [match[1]].
    The search resumes at the end of the previous match ([lastIndex]),
    one further after an empty match: [skip] counts the positions that
    lie inside the previous match. *)
Fixpoint matchAll_from (r : regex) (pos skip : nat) (s : jsstring)
  : list (option jsstring) :=
  match skip with
  | S skip' =>
      match s with
      | [] => []
      | _ :: s' => matchAll_from r (S pos) skip' s'
      end
  | 0 =>
      match match_at r pos s with
      | Some (e, cap) =>
          cap :: match s with
                 | [] => []
                 | _ :: s' => matchAll_from r (S pos) (pred (e - pos)) s'
                 end
      | None =>
          match s with
          | [] => []
          | _ :: s' => matchAll_from r (S pos) 0 s'
          end
      end
  end.

Definition matchAll (r : regex) (s : jsstring) : list (option jsstring) :=
  matchAll_from r 0 0 s.

End Regex.

(* ================================================================== *)
(** * The transcript parser ([src/parser.ts]) *)
(* ================================================================== *)

Module Parser.
Import JS Regex.

(** [tool_input: Record<string, unknown>]: the two properties the parser
    reads, when they hold strings. *)
Record ToolInput : Type := mkToolInput {
  description : option jsstring;
  command : option jsstring;
}.

Record ToolOutput : Type := mkToolOutput {
  output : option jsstring;
  preview : option jsstring;
}.

(** The union [ClaudeMessage], plus [OtherMessage] for a record whose
    [type] is none of the four (the [default] branch). The source tests
    [parsed.timestamp] and uses [?.] on [tool_input] and [tool_output],
    so these three may be absent; the other fields are strings, as the
    interfaces declare them. [Faulty] is a record on which the body of the
    inner [try] throws after [parsed.timestamp] has been read: a field
    does not hold the string its interface declares ([extractFilePaths]
    calls [matchAll] on a content that is a number or an object, [slice]
    may be missing on an output). A line on which [JSON.parse] itself
    throws, or that holds [null], is not a record at all; it is the line
    [None] of [parseSessionFile] below. *)
Inductive ClaudeMessage : Type :=
| UserMessage (timestamp : option jsstring) (content : jsstring)
| ToolUse (timestamp : option jsstring) (tool_name : jsstring)
          (tool_input : option ToolInput)
| ToolResult (timestamp : option jsstring) (tool_name : jsstring)
             (tool_output : option ToolOutput)
| AssistantMessage (timestamp : option jsstring) (content : jsstring)
| OtherMessage (timestamp : option jsstring)
| Faulty (timestamp : option jsstring).

Definition timestamp_of (m : ClaudeMessage) : option jsstring :=
  match m with
  | UserMessage t _ | ToolUse t _ _ | ToolResult t _ _
  | AssistantMessage t _ | OtherMessage t | Faulty t => t
  end.

(** Whether the body of the inner [try] throws on a record, once its
    timestamp has been read. *)
Definition throws (m : ClaudeMessage) : bool :=
  match m with Faulty _ => true | _ => false end.

Definition is_tool_use (m : ClaudeMessage) : bool :=
  match m with ToolUse _ _ _ => true | _ => false end.

Inductive Role : Type := user | assistant | tool | system.

(** [new Date(s)], kept as the string it was built from. *)
Inductive Date : Type := mkDate (src : jsstring).

Record ParsedMessage : Type := mkParsedMessage {
  index : nat;
  role : Role;
  content : jsstring;
  timestamp : option Date;
  tokenCount : nat;
  toolsUsed : list jsstring;
  filesMentioned : list jsstring;
}.

Record ParsedSession : Type := mkParsedSession {
  sessionId : jsstring;
  sourcePath : jsstring;
  projectName : option jsstring;
  createdAt : option Date;
  updatedAt : option Date;
  messages : list ParsedMessage;
  totalTokens : nat;
  totalCost : nat;
}.

Definition newline : cu := 10%N.

(** [output.length > 1000 ? output.slice(0, 1000) + '...' : output] *)
Definition truncateOutput (out : jsstring) : jsstring :=
  if 1000 <? length out then slice0 1000 out ++ lit "..." else out.

(** ["[Tool Result: " + name + "]"], the first line of the text of a
    tool result. *)
Definition result_header (name : jsstring) : jsstring :=
  lit "[Tool Result: " ++ name ++ lit "]".

(** [tool_output?.output || tool_output?.preview || ''] *)
Definition result_output (out : option ToolOutput) : jsstring :=
  or_empty (or_else (out ≫= output) (out ≫= preview)).

(** [extractContent] *)
Definition extractContent (message : ClaudeMessage)
  : jsstring * list jsstring * Role :=
  match message with
  | UserMessage _ c => (c, [], user)
  | AssistantMessage _ c => (c, [], assistant)
  | ToolUse _ name input =>
      let inputDesc :=
        or_empty (or_else (input ≫= description) (input ≫= command)) in
      (trim (lit "[Tool: " ++ name ++ lit "] " ++ inputDesc), [name], tool)
  | ToolResult _ name out =>
      let output := result_output out in
      let truncatedOutput := truncateOutput output in
      (trim (result_header name ++ newline :: truncatedOutput), [name], tool)
  | OtherMessage _ => ([], [], system)
  | Faulty _ => ([], [], system) (* not reached: see [chunkOfLine] *)
  end.

(** The code unit of a one-character literal. *)
Definition ch (s : string) : cu :=
  match s with
  | String a _ => Ascii.N_of_ascii a
  | EmptyString => 0%N
  end.

Definition quote : cu := 34%N.

Definition is_not (c x : cu) : bool := negb (cu_eqb c x).

(** The class [[\w\-./]]. *)
Definition path_cls (x : cu) : bool :=
  is_word x || cu_eqb (ch "-") x || cu_eqb (ch ".") x || cu_eqb (ch "/") x.

(** [(?:^|\s)] *)
Definition lead : regex := Alt Bol (Cls is_space).

(** The five patterns of [extractFilePaths], in the order of the source. *)
Definition patterns : list regex :=
  [ (* /(?:^|\s)(\/[\w\-./]+\.\w+)/g *)
    Seq lead (Grp (Seq (Chr (ch "/"))
                  (Seq (Plus path_cls) (Seq (Chr (ch ".")) (Plus is_word)))));
    (* /(?:^|\s)(\.\/[\w\-./]+)/g *)
    Seq lead (Grp (Seq (Lit (lit "./")) (Plus path_cls)));
    (* /(?:^|\s)(~\/[\w\-./]+)/g *)
    Seq lead (Grp (Seq (Lit (lit "~/")) (Plus path_cls)));
    (* /`([^`]+\.\w{1,5})`/g *)
    Seq (Chr (ch "`"))
        (Seq (Grp (Seq (Plus (is_not (ch "`")))
                  (Seq (Chr (ch ".")) (Rep is_word 1 (Some 5)))))
             (Chr (ch "`")));
    (* /QfilePathQ:\s*Q([^Q]+)Q/g, where Q is the double quote *)
    Seq (Lit (quote :: lit "filePath" ++ quote :: lit ":"))
        (Seq (Star is_space)
             (Seq (Chr quote) (Seq (Grp (Plus (is_not quote))) (Chr quote)))) ].

(** [files.add(file)] on a [Set] kept in insertion order. *)
Definition set_add (files : list jsstring) (file : jsstring) : list jsstring :=
  if existsb (str_eqb file) files then files else files ++ [file].

(** The guard [file && !file.includes('http') && !file.startsWith('.com')]
    on [match[1]]. *)
Definition keep_file (m1 : option jsstring) : option jsstring :=
  match m1 with
  | Some file =>
      if truthy file && negb (includes (lit "http") file)
         && negb (startsWith (lit ".com") file)
      then Some file else None
  | None => None
  end.

Definition add_matches (files : list jsstring) (ms : list (option jsstring))
  : list jsstring :=
  fold_left (fun fs m1 => match keep_file m1 with
                          | Some file => set_add fs file
                          | None => fs
                          end) ms files.

(** [extractFilePaths] *)
Definition extractFilePaths (content : jsstring) : list jsstring :=
  fold_left (fun fs pattern => add_matches fs (matchAll pattern content))
            patterns [].

Definition slash : cu := ch "/".

(** [(?:src|app|lib|node_modules)] *)
Definition keywords_re : regex :=
  Alt (Lit (lit "src"))
      (Alt (Lit (lit "app"))
           (Alt (Lit (lit "lib")) (Lit (lit "node_modules")))).

(** [/\/([^/]+)\/(?:src|app|lib|node_modules)/] *)
Definition project_re : regex :=
  Seq (Chr slash)
      (Seq (Grp (Plus (is_not slash))) (Seq (Chr slash) keywords_re)).

(** What [project_re] still has to match once the capture group is
    closed: a slash and a keyword, the capture being recorded. *)
Definition after_segment (pos : nat) (s1 : jsstring) : cont :=
  fun '(pos', s', _) =>
    run (Seq (Chr slash) keywords_re)
        (pos', s', Some (take (pos' - S pos) s1)) Some.

(** The loop that infers the project name: the first message whose
    first mentioned file matches [project_re] decides. *)
Fixpoint inferProjectName (msgs : list ParsedMessage) : option jsstring :=
  match msgs with
  | [] => None
  | msg :: rest =>
      match filesMentioned msg with
      | firstPath :: _ =>
          match match1 project_re firstPath with
          | Some m1 => m1
          | None => inferProjectName rest
          end
      | [] => inferProjectName rest
      end
  end.

(** The local variables of the loop over the lines. *)
Record LoopState : Type := mkLoopState {
  ls_messages : list ParsedMessage;
  ls_first : option Date;
  ls_last : option Date;
}.

Definition track (st : LoopState) (ts : option jsstring) : LoopState :=
  match ts with
  | Some t =>
      if truthy t then
        {| ls_messages := ls_messages st;
           ls_first := match ls_first st with
                       | Some d => Some d
                       | None => Some (mkDate t)
                       end;
           ls_last := Some (mkDate t) |}
      else st
  | None => st
  end.

Definition date_of (ts : option jsstring) : option Date :=
  match ts with
  | Some t => if truthy t then Some (mkDate t) else None
  | None => None
  end.

(** The message pushed for a retained record. *)
Definition makeMessage (n : nat) (parsed : ClaudeMessage)
           (text : jsstring) (tools : list jsstring) (r : Role)
  : ParsedMessage :=
  {| index := n;
     role := r;
     content := text;
     timestamp := date_of (timestamp_of parsed);
     tokenCount := ceil_div (length text) 4;
     toolsUsed := tools;
     filesMentioned := extractFilePaths text |}.

(** What one line contributes, the messages so far being [n]: nothing
    when the line is malformed, when the body throws on its record, when
    the text is too short, or for a tool invocation. *)
Definition chunkOfLine (n : nat) (line : option ClaudeMessage)
  : option ParsedMessage :=
  match line with
  | None => None
  | Some parsed =>
      if throws parsed then None
      else
        let '(text, tools, r) := extractContent parsed in
        if negb (truthy text) || (length text <? 10) then None
        else if is_tool_use parsed then None
        else Some (makeMessage n parsed text tools r)
  end.

(** One iteration of [for (const line of lines)]: the timestamp of the
    record is tracked first, so also when the rest of the body throws or
    skips the record; a line that is no record leaves everything as it
    was. *)
Definition step (st : LoopState) (line : option ClaudeMessage) : LoopState :=
  match line with
  | None => st
  | Some parsed =>
      let st1 := track st (timestamp_of parsed) in
      match chunkOfLine (length (ls_messages st1)) line with
      | Some m =>
          {| ls_messages := ls_messages st1 ++ [m];
             ls_first := ls_first st1;
             ls_last := ls_last st1 |}
      | None => st1
      end
  end.

Definition initial : LoopState :=
  {| ls_messages := []; ls_first := None; ls_last := None |}.

Definition sum_tokens (msgs : list ParsedMessage) : nat :=
  fold_left (fun sum m => sum + tokenCount m) msgs 0.

Section WithPath.
(** [path.basename(p, ext)] of Node's library. *)
Variable basename : jsstring -> jsstring -> jsstring.

(** [parseSessionFile]. [file] is what [fs.readFileSync] and the split
    into non-blank lines give, each line after [JSON.parse] (the line
    [None] when that throws or gives [null]); the file [None] when it
    cannot be read. *)
Definition parseSessionFile (filePath : jsstring)
           (file : option (list (option ClaudeMessage)))
  : option ParsedSession :=
  match file with
  | None => None
  | Some lines =>
      if length lines =? 0 then None
      else
        let st := fold_left step lines initial in
        if length (ls_messages st) =? 0 then None
        else Some {| sessionId := basename filePath (lit ".jsonl");
                     sourcePath := filePath;
                     projectName := inferProjectName (ls_messages st);
                     createdAt := ls_first st;
                     updatedAt := ls_last st;
                     messages := ls_messages st;
                     totalTokens := sum_tokens (ls_messages st);
                     totalCost := 0 |}
  end.
End WithPath.

End Parser.

(* ================================================================== *)
(** * What the project pattern looks for, in words *)
(* ================================================================== *)

Module PathSpec.
Import JS Parser.

Definition keywords : list jsstring :=
  [lit "src"; lit "app"; lit "lib"; lit "node_modules"].

(** [s] starts with a slash, the path segment [seg] and, right after
    it, [/src], [/app], [/lib] or [/node_modules]. *)
Definition segment_at (s seg : jsstring) : Prop :=
  exists kw b,
    s = slash :: seg ++ slash :: kw ++ b
    /\ seg <> [] /\ (slash ∉ seg) /\ (kw ∈ keywords).

(** [seg] is the segment of the first place of [path], from the left,
    where such a segment starts. *)
Definition parent_segment (path seg : jsstring) : Prop :=
  exists i,
    segment_at (drop i path) seg
    /\ forall j seg', j < i -> ~ segment_at (drop j path) seg'.

(** [path] has no such place. *)
Definition no_segment (path : jsstring) : Prop :=
  forall j seg, ~ segment_at (drop j path) seg.

(** The first reference of a message, if any, has no such place. *)
Definition first_reference_fails (m : ParsedMessage) : Prop :=
  match filesMentioned m with
  | [] => True
  | firstPath :: _ => no_segment firstPath
  end.

End PathSpec.

(* ================================================================== *)
(** * The embedding batcher ([src/embedder.ts]) *)
(* ================================================================== *)

Module Embedder.
Import JS.

(** An embedding, [number[]]. *)
Definition vector : Type := list Qc.

(** How an awaited call ends. [Pending] is a call that never settles
    (the loop of [embedBatch] does not advance when [concurrency] is 0). *)
Inductive outcome (A : Type) : Type :=
| Resolved (a : A)
| Rejected
| Pending.
Arguments Resolved {A} a.
Arguments Rejected {A}.
Arguments Pending {A}.

(** What an awaited [embed(text)] gives: [None] when it throws (no
    connection, a response that is not ok, a body that is not JSON),
    and otherwise what it returns, [data.embedding], which nothing
    checks: a vector, or [Some None] for [undefined] (the body of the
    response holds no such property) and the other values that
    [chunk.embedding ? ... : null] takes for none. A value that is
    neither makes [insertChunks] throw, as a vector of the wrong size
    does: it is a vector that [accepts_chunks] refuses. *)
Definition reply : Type := option (option vector).

Section WithService.
(** The embedding service: what the request [embed(text)] issued for slot
    [i] of the input gives. The service is not a function of the text
    alone, hence the slot. *)
Variable embed : nat -> jsstring -> reply.

(** One window: [batch.map(async (text, j) => ...)] under
    [Promise.all]. Every request writes what it was given into its own
    slot [i + j] of [results], a slot that exists since [batch] is a slice
    of [texts] (a slot is [None] while it is empty and when it holds
    [undefined]); the window is rejected as soon as one request fails,
    and [results] is then never handed out. The requests of a window run concurrently; they
    are listed here by slot, which no result depends on. *)
Fixpoint window (i j : nat) (batch : list jsstring)
         (results : list (option vector)) : option (list (option vector)) :=
  match batch with
  | [] => Some results
  | text :: rest =>
      match embed (i + j) text with
      | Some embedding => window i (S j) rest (<[i + j := embedding]> results)
      | None => None
      end
  end.

(** [for (let i = 0; i < texts.length; i += concurrency)] *)
Fixpoint loop (fuel : nat) (texts : list jsstring) (concurrency : nat)
         (i : nat) (results : list (option vector))
  : outcome (list (option vector)) :=
  match fuel with
  | 0 => Pending
  | S fuel' =>
      if i <? length texts then
        let batch := take concurrency (drop i texts) in
        match window i 0 batch results with
        | Some results' => loop fuel' texts concurrency (i + concurrency) results'
        | None => Rejected
        end
      else Resolved results
  end.

(** The replies of the service to the requests of one call, by slot. *)
Definition answers (texts : list jsstring) : list reply :=
  imap embed texts.

(** What the slots hold once every request has written its own: the
    vector it was given, if it was given one. *)
Definition slots (texts : list jsstring) : list (option vector) :=
  imap (fun i text => mjoin (embed i text)) texts.

(** [results] once the slots below [k] are written and no other. *)
Definition partial (texts : list jsstring) (k : nat) : list (option vector) :=
  take k (slots texts) ++ replicate (length texts - k) None.

(** [embedBatch]. [results] starts as [new Array(texts.length)], every
    slot empty ([None]). [concurrency] defaults to 5 and is taken to be a
    non-negative integer. The progress callback only reports [completed]
    and is left out. The loop runs at most once per text when
    [concurrency] is positive, hence the fuel. *)
Definition embedBatch (texts : list jsstring) (concurrency : option nat)
  : outcome (list (option vector)) :=
  loop (S (length texts)) texts (default 5 concurrency) 0
       (replicate (length texts) None).
End WithService.

End Embedder.

(* ================================================================== *)
(** * The store ([migrations/001_init.sql], [src/db/index.ts]) *)
(* ================================================================== *)

Module Db.
Import JS Parser Embedder.

(** A row of [sessions]. [s_id] is the generated primary key. *)
Record SessionRow : Type := mkSessionRow {
  s_id : nat;
  s_session_id : jsstring;
  s_source_path : jsstring;
  s_project_name : option jsstring;
  s_created_at : option Date;
  s_updated_at : option Date;
  s_message_count : nat;
  s_total_tokens : nat;
  s_total_cost : nat;
  s_metadata : jsstring;
  s_ingested_at : nat;
}.

(** A row of [chunks]. *)
Record ChunkRow : Type := mkChunkRow {
  c_id : nat;
  c_session_id : nat;
  c_chunk_index : nat;
  c_role : Role;
  c_content : jsstring;
  c_embedding : option vector;
  c_token_count : nat;
  c_tools_used : list jsstring;
  c_files_mentioned : list jsstring;
  c_created_at : option Date;
  c_metadata : jsstring;
}.

(** The two tables, each as the finite map that its UNIQUE constraint
    makes it: [sessions] by [session_id], [chunks] by
    [(session_id, chunk_index)]; and the supply of generated keys. *)
Record Store : Type := mkStore {
  sessions : gmap jsstring SessionRow;
  chunks : gmap (nat * nat) ChunkRow;
  next_id : nat;
}.

Definition empty_store : Store :=
  {| sessions := ∅; chunks := ∅; next_id := 0 |}.

(** The argument of [upsertSession], [Omit<Session, 'id'>]. *)
Record Session : Type := mkSession {
  session_id : jsstring;
  source_path : jsstring;
  project_name : option jsstring;
  created_at : option Date;
  updated_at : option Date;
  message_count : nat;
  total_tokens : nat;
  total_cost : nat;
  metadata : jsstring;
}.

(** An element of the argument of [insertChunks]. *)
Record Chunk : Type := mkChunk {
  ch_session_id : nat;
  ch_chunk_index : nat;
  ch_role : Role;
  ch_content : jsstring;
  ch_embedding : option vector;
  ch_token_count : nat;
  ch_tools_used : list jsstring;
  ch_files_mentioned : list jsstring;
  ch_created_at : option Date;
  ch_metadata : option jsstring;
}.

Definition chunk_key (c : Chunk) : nat * nat :=
  (ch_session_id c, ch_chunk_index c).

(** [JSON.stringify({})], what [chunk.metadata || {}] gives for a chunk
    without metadata. *)
Definition empty_json : jsstring := lit "{}".

Section Statements.
(** Whether the call succeeds for its argument: everything that can
    make the statement fail other than the two UNIQUE keys, which ON
    CONFLICT handles (connection, foreign key, column types and sizes),
    and, for the chunks, [toVectorString] throwing on an embedding that is
    no array. *)
Variable accepts_session : Session -> bool.
Variable accepts_chunks : list Chunk -> bool.

(** [upsertSession]: INSERT ... ON CONFLICT (session_id) DO UPDATE,
    RETURNING id. [now] is NOW(). [None] when the statement fails. *)
Definition upsertSession (now : nat) (s : Session) (st : Store)
  : option (nat * Store) :=
  if negb (accepts_session s) then None
  else
    match sessions st !! session_id s with
    | Some old =>
        let row :=
          {| s_id := s_id old;
             s_session_id := s_session_id old;
             s_source_path := source_path s;
             s_project_name := project_name s;
             s_created_at := s_created_at old;
             s_updated_at := updated_at s;
             s_message_count := message_count s;
             s_total_tokens := total_tokens s;
             s_total_cost := total_cost s;
             s_metadata := metadata s;
             s_ingested_at := now |} in
        Some (s_id old,
              {| sessions := <[session_id s := row]> (sessions st);
                 chunks := chunks st;
                 next_id := next_id st |})
    | None =>
        let row :=
          {| s_id := next_id st;
             s_session_id := session_id s;
             s_source_path := source_path s;
             s_project_name := project_name s;
             s_created_at := created_at s;
             s_updated_at := updated_at s;
             s_message_count := message_count s;
             s_total_tokens := total_tokens s;
             s_total_cost := total_cost s;
             s_metadata := metadata s;
             s_ingested_at := now |} in
        Some (next_id st,
              {| sessions := <[session_id s := row]> (sessions st);
                 chunks := chunks st;
                 next_id := S (next_id st) |})
    end.

(** One row of the bulk INSERT ... ON CONFLICT (session_id,
    chunk_index) DO UPDATE: the update leaves [id], [role] and
    [created_at] as they were. *)
Definition upsertChunk (st : Store) (c : Chunk) : Store :=
  match chunks st !! chunk_key c with
  | Some old =>
      let row :=
        {| c_id := c_id old;
           c_session_id := c_session_id old;
           c_chunk_index := c_chunk_index old;
           c_role := c_role old;
           c_content := ch_content c;
           c_embedding := ch_embedding c;
           c_token_count := ch_token_count c;
           c_tools_used := ch_tools_used c;
           c_files_mentioned := ch_files_mentioned c;
           c_created_at := c_created_at old;
           c_metadata := default empty_json (ch_metadata c) |} in
      {| sessions := sessions st;
         chunks := <[chunk_key c := row]> (chunks st);
         next_id := next_id st |}
  | None =>
      let row :=
        {| c_id := next_id st;
           c_session_id := ch_session_id c;
           c_chunk_index := ch_chunk_index c;
           c_role := ch_role c;
           c_content := ch_content c;
           c_embedding := ch_embedding c;
           c_token_count := ch_token_count c;
           c_tools_used := ch_tools_used c;
           c_files_mentioned := ch_files_mentioned c;
           c_created_at := ch_created_at c;
           c_metadata := default empty_json (ch_metadata c) |} in
      {| sessions := sessions st;
         chunks := <[chunk_key c := row]> (chunks st);
         next_id := S (next_id st) |}
  end.

(** [insertChunks]: nothing to do for an empty list; otherwise one
    statement, which fails as a whole (a statement may not touch the
    same key twice). [None] when it fails. *)
Definition insertChunks (cs : list Chunk) (st : Store) : option Store :=
  if length cs =? 0 then Some st
  else if negb (accepts_chunks cs) then None
  else if negb (bool_decide (NoDup (chunk_key <$> cs))) then None
  else Some (fold_left upsertChunk cs st).
End Statements.

(** A row of a search result. *)
Record SearchResult : Type := mkSearchResult {
  r_session_id : nat;
  r_source_session_id : jsstring;
  r_project_name : option jsstring;
  r_chunk_index : nat;
  r_role : jsstring;
  r_content : jsstring;
  r_similarity : Qc;
  r_created_at : option Date;
}.

(** The text of the [role] column. *)
Definition role_text (r : Role) : jsstring :=
  match r with
  | user => lit "user"
  | assistant => lit "assistant"
  | tool => lit "tool"
  | system => lit "system"
  end.

(** A row of [chunks c JOIN sessions s ON c.session_id = s.id] whose
    embedding is not NULL, with that embedding. *)
Definition joined : Type := ChunkRow * SessionRow * vector.

Definition j_chunk (r : joined) : ChunkRow := r.1.1.
Definition j_session (r : joined) : SessionRow := r.1.2.
Definition j_embedding (r : joined) : vector := r.2.

Definition session_by_id (st : Store) (id : nat) : option SessionRow :=
  find (fun s => bool_decide (s_id s = id)) ((map_to_list (sessions st)).*2).

(** FROM chunks c JOIN sessions s ON c.session_id = s.id
    WHERE c.embedding IS NOT NULL *)
Definition embedded_rows (st : Store) : list joined :=
  omap (fun c => e ← c_embedding c;
                 s ← session_by_id st (c_session_id c);
                 Some (c, s, e))
       ((map_to_list (chunks st)).*2).

Definition to_result (similarity : joined -> Qc) (r : joined) : SearchResult :=
  {| r_session_id := c_session_id (j_chunk r);
     r_source_session_id := s_session_id (j_session r);
     r_project_name := s_project_name (j_session r);
     r_chunk_index := c_chunk_index (j_chunk r);
     r_role := role_text (c_role (j_chunk r));
     r_content := c_content (j_chunk r);
     r_similarity := similarity r;
     r_created_at := c_created_at (j_chunk r) |}.

(** LIMIT n: the statement fails for a negative [n]. *)
Definition sql_limit {A} (n : Z) (rows : list A) : option (list A) :=
  if (n <? 0)%Z then None else Some (take (Z.to_nat n) rows).

(** ORDER BY key (ascending); which of two rows with equal keys comes
    first is not fixed by the store, here the merge sort decides. *)
Definition key_le {A} (key : A -> Qc) : relation A :=
  fun a b => (key a ≤ key b)%Qc.

#[export] Instance key_le_dec {A} (key : A -> Qc) :
  RelDecision (key_le key).
Proof. intros a b. unfold key_le. apply _. Defined.

Definition order_by {A} (key : A -> Qc) (rows : list A) : list A :=
  merge_sort (key_le key) rows.

(** The condition that [semanticSearch] adds for [roleFilter]: none when
    the filter is absent or the empty string ([if (roleFilter)]). *)
Definition passes_role (roleFilter : option jsstring) (r : joined) : Prop :=
  match roleFilter with
  | Some f => if truthy f then role_text (c_role (j_chunk r)) = f else True
  | None => True
  end.

#[export] Instance passes_role_dec roleFilter r :
  Decision (passes_role roleFilter r).
Proof.
  unfold passes_role. destruct roleFilter as [f|]; [destruct (truthy f)|];
    apply _.
Defined.

Section Queries.
(** The operators of the store: [a <=> b] (cosine distance),
    [to_tsvector('english', content) @@ plainto_tsquery(q)] and
    [ts_rank(to_tsvector('english', content), plainto_tsquery(q))],
    the last one possibly NULL. Numbers are exact rationals. *)
Variable cosine_distance : vector -> vector -> Qc.
(** The access path of [ORDER BY c.embedding <=> $1 LIMIT n]: the rows
    that the plan of the store reads for a query vector. A sequential
    scan reads every row. The index that [migrations/001_init.sql]
    declares on [embedding] (ivfflat, 100 lists) is approximate: it
    reads the rows of the lists it probes, one by default, in the order of
    their distance, and passes over the others, also when they are
    nearer. The plan, and with it the rows that are read, may differ from
    one query to the next; every statement about [semanticSearch] is about
    one query and holds for every access path. Only the first query can
    be served by the index; the second orders by a computed score. *)
Variable visits : vector -> joined -> bool.
Variable ts_match : jsstring -> jsstring -> bool.
Variable ts_rank : jsstring -> jsstring -> option Qc.

Definition distance (q : vector) (r : joined) : Qc :=
  cosine_distance (j_embedding r) q.

(** [1 - (c.embedding <=> $1)] *)
Definition semantic_similarity (q : vector) (r : joined) : Qc :=
  (1 - distance q r)%Qc.

(** A row that [semanticSearch] may return: the access path reads it
    and it passes the condition on the role. *)
Definition eligible (embedding : vector) (roleFilter : option jsstring)
           (r : joined) : Prop :=
  visits embedding r = true /\ passes_role roleFilter r.

#[export] Instance eligible_dec embedding roleFilter r :
  Decision (eligible embedding roleFilter r).
Proof. unfold eligible. apply _. Defined.

(** The rows that [semanticSearch] orders and limits: those the access
    path reads that pass the conditions of WHERE. *)
Definition semanticRows (embedding : vector)
           (roleFilter : option jsstring) (st : Store) : list joined :=
  let rows := filter (fun x => visits embedding x = true) (embedded_rows st) in
  match roleFilter with
  | Some r =>
      if truthy r
      then filter (fun x => role_text (c_role (j_chunk x)) = r) rows
      else rows
  | None => rows
  end.

(** The rows [semanticSearch] selects, in order. *)
Definition semanticSelect (embedding : vector) (limit : Z)
           (roleFilter : option jsstring) (st : Store)
  : option (list joined) :=
  sql_limit limit (order_by (distance embedding)
                            (semanticRows embedding roleFilter st)).

(** [semanticSearch] *)
Definition semanticSearch (embedding : vector) (limit : Z)
           (roleFilter : option jsstring) (st : Store)
  : option (list SearchResult) :=
  fmap (M := list) (to_result (semantic_similarity embedding))
    <$> semanticSelect embedding limit roleFilter st.

Definition weight_vector : Qc := Q2Qc (7 # 10).
Definition weight_lexical : Qc := Q2Qc (3 # 10).

(** [0.7 * (1 - (c.embedding <=> $1)) +
     0.3 * COALESCE(ts_rank(...), 0)] *)
Definition hybrid_score (q : vector) (keyword : jsstring) (r : joined) : Qc :=
  (weight_vector * (1 - distance q r)
   + weight_lexical * default 0 (ts_rank (c_content (j_chunk r)) keyword))%Qc.

(** The rows that [hybridSearch] orders and limits. *)
Definition hybridRows (keyword : jsstring) (st : Store) : list joined :=
  filter (fun x => ts_match (c_content (j_chunk x)) keyword = true)
         (embedded_rows st).

(** The rows [hybridSearch] selects, in order: ORDER BY similarity
    DESC is the ascending order of the negated score. Every row that
    matches is read: the index on the text is exact, and no index
    serves the order of a computed score. *)
Definition hybridSelect (embedding : vector) (keyword : jsstring)
           (limit : Z) (st : Store) : option (list joined) :=
  sql_limit limit
    (order_by (fun x => (- hybrid_score embedding keyword x)%Qc)
              (hybridRows keyword st)).

(** [hybridSearch] *)
Definition hybridSearch (embedding : vector) (keyword : jsstring)
           (limit : Z) (st : Store) : option (list SearchResult) :=
  fmap (M := list) (to_result (hybrid_score embedding keyword))
    <$> hybridSelect embedding keyword limit st.
End Queries.

End Db.

(* ================================================================== *)
(** * The ingest command ([src/cli.ts]) *)
(* ================================================================== *)

Module Cli.
Import JS Parser Embedder Db.

(** The counters of the command and the store it writes to. *)
Record RunState : Type := mkRunState {
  store : Store;
  processed : nat;
  skipped : nat;
  totalChunks : nat;
}.

Definition start (st : Store) : RunState :=
  {| store := st; processed := 0; skipped := 0; totalChunks := 0 |}.

(** [skipped++], the store being [st] by then. *)
Definition skip (st : Store) (rs : RunState) : RunState :=
  {| store := st;
     processed := processed rs;
     skipped := S (skipped rs);
     totalChunks := totalChunks rs |}.

(** The argument of [upsertSession] built from a parsed session. *)
Definition sessionOf (session : ParsedSession) : Session :=
  {| session_id := sessionId session;
     source_path := sourcePath session;
     project_name := projectName session;
     created_at := createdAt session;
     updated_at := updatedAt session;
     message_count := length (messages session);
     total_tokens := totalTokens session;
     total_cost := totalCost session;
     metadata := empty_json |}.

(** [session.messages.map((msg) => ({ ... }))] *)
Definition chunkOf (sessionDbId : nat) (msg : ParsedMessage) : Chunk :=
  {| ch_session_id := sessionDbId;
     ch_chunk_index := index msg;
     ch_role := role msg;
     ch_content := content msg;
     ch_embedding := None;
     ch_token_count := tokenCount msg;
     ch_tools_used := toolsUsed msg;
     ch_files_mentioned := filesMentioned msg;
     ch_created_at := timestamp msg;
     ch_metadata := None |}.

(** [chunk.embedding = embeddings[i]] *)
Definition setEmbedding (embeddings : list (option vector)) (i : nat)
           (c : Chunk) : Chunk :=
  {| ch_session_id := ch_session_id c;
     ch_chunk_index := ch_chunk_index c;
     ch_role := ch_role c;
     ch_content := ch_content c;
     ch_embedding := mjoin (embeddings !! i);
     ch_token_count := ch_token_count c;
     ch_tools_used := ch_tools_used c;
     ch_files_mentioned := ch_files_mentioned c;
     ch_created_at := ch_created_at c;
     ch_metadata := ch_metadata c |}.

(** A file to ingest: its path and what reading it gives. *)
Definition source : Type := jsstring * option (list (option ClaudeMessage)).

Section Ingest.
Variable basename : jsstring -> jsstring -> jsstring.
Variable accepts_session : Session -> bool.
Variable accepts_chunks : list Chunk -> bool.

(** The [if (opts.embed !== false)] block. *)
Definition embedChunks (embedOpt : bool)
           (embed : nat -> jsstring -> reply) (cs : list Chunk)
  : outcome (list Chunk) :=
  if embedOpt then
    match embedBatch embed (ch_content <$> cs) None with
    | Resolved embeddings => Resolved (imap (setEmbedding embeddings) cs)
    | Rejected => Rejected
    | Pending => Pending
    end
  else Resolved cs.

(** The body of [for (const file of filesToProcess)], the [try] and
    its [catch]. [embedOpt] is [opts.embed !== false], [now] the time of
    the store, [embed] the embedding service during this file. [None]
    when the body never completes. *)
Definition ingestFile (embedOpt : bool) (now : nat)
           (embed : nat -> jsstring -> reply)
           (file : source) (rs : RunState) : option RunState :=
  match parseSessionFile basename file.1 file.2 with
  | None => Some (skip (store rs) rs)
  | Some session =>
      if length (messages session) =? 0 then Some (skip (store rs) rs)
      else
        match upsertSession accepts_session now (sessionOf session) (store rs) with
        | None => Some (skip (store rs) rs)
        | Some (sessionDbId, st1) =>
            let cs := chunkOf sessionDbId <$> messages session in
            match embedChunks embedOpt embed cs with
            | Pending => None
            | Rejected => Some (skip st1 rs)
            | Resolved cs' =>
                match insertChunks accepts_chunks cs' st1 with
                | None => Some (skip st1 rs)
                | Some st2 =>
                    Some {| store := st2;
                            processed := S (processed rs);
                            skipped := skipped rs;
                            totalChunks := totalChunks rs + length cs' |}
                end
            end
        end
  end.

(** One entry of a run: the time, the service and the file. *)
Definition job : Type := nat * (nat -> jsstring -> reply) * source.

(** The loop of the [ingest] command over [filesToProcess]. *)
Definition ingest (embedOpt : bool) (jobs : list job) (st : Store)
  : option RunState :=
  fold_left (fun rs '(now, embed, file) =>
               rs ≫= ingestFile embedOpt now embed file)
            jobs (Some (start st)).
End Ingest.

End Cli.

(* ================================================================== *)
(** * Sample inputs *)
(* ================================================================== *)

Module Samples.
Import JS Parser Embedder Db Cli.

(** A stand-in for [path.basename]: the path itself. *)
Definition sample_basename (p ext : jsstring) : jsstring := p.

Definition sample_path : jsstring := lit "ses_abc123.jsonl".

(** A tool result whose output and preview are both absent. *)
Definition empty_echo : ClaudeMessage := ToolResult None (lit "Bash") None.

(** A tool result whose output ends in a space. *)
Definition spaced_result : ClaudeMessage :=
  ToolResult None (lit "Bash")
             (Some {| output := Some (lit "done "); preview := None |}).

(** The transcript of the README, with a line that is not JSON and a
    short acknowledgement added. *)
Definition readme_transcript : list (option ClaudeMessage) :=
  [ Some (UserMessage (Some (lit "2026-02-01T10:00:00Z"))
                      (lit "What's in this file?"));
    None;
    Some (ToolUse (Some (lit "2026-02-01T10:00:01Z")) (lit "read")
                  (Some {| description := None; command := None |}));
    Some (ToolResult (Some (lit "2026-02-01T10:00:02Z")) (lit "read")
                     (Some {| output := None;
                              preview := Some (lit "import ...") |}));
    Some (UserMessage None (lit "ok"));
    Some (AssistantMessage (Some (lit "2026-02-01T10:00:03Z"))
                           (lit "This file contains...")) ].

Definition readme_file : source := (sample_path, Some readme_transcript).

(** Two turns: the first mentions a file outside any project directory,
    the second one inside [myapp/src]. *)
Definition two_paths_transcript : list (option ClaudeMessage) :=
  [ Some (UserMessage None (lit "look at /tmp/notes.txt please"));
    Some (UserMessage None (lit "then open /home/alice/myapp/src/index.ts")) ].

Definition twelve_texts : list jsstring :=
  (fun i => lit "chunk number " ++ replicate i 120%N) <$> seq 0 12.

(** An embedding service that is down, and one that answers. *)
Definition service_down (i : nat) (text : jsstring) : reply := None.
Definition service_up (i : nat) (text : jsstring) : reply :=
  Some (Some [Q2Qc (Z.of_nat (length text) # 1)]).

Definition accept_all {A} (x : A) : bool := true.

(** The store after the README transcript has been ingested. *)
Definition sample_store : Store :=
  default empty_store
    (store <$> ingestFile sample_basename accept_all accept_all true 0
                          service_up readme_file (start empty_store)).

(** Two access paths: a sequential scan, and an index whose probed list
    holds the rows of the chunks with an even index only. *)
Definition scan_all (q : vector) (r : joined) : bool := true.
Definition probe_even (q : vector) (r : joined) : bool :=
  Nat.even (c_chunk_index (j_chunk r)).

(** Stand-ins for the operators of the store. *)
Definition sample_distance (a b : vector) : Qc :=
  match a, b with
  | x :: _, y :: _ => ((x - y) * (x - y))%Qc
  | _, _ => 1%Qc
  end.
Definition sample_match (content keyword : jsstring) : bool :=
  includes keyword content.
Definition sample_rank (content keyword : jsstring) : option Qc :=
  if includes keyword content then Some (Q2Qc (1 # 2)) else None.

End Samples.

(* ================================================================== *)
(** * Where a capture comes from *)
(* ================================================================== *)

Module Capture.
Import JS Regex.

(** [f] occurs in [s]. *)
Definition substring (f s : jsstring) : Prop := exists a b, s = a ++ f ++ b.

(** A state of the matcher on [subject]: what is left is an end of the
    subject, and the capture, if any, occurs in it. *)
Definition inside (subject : jsstring) (st : mstate) : Prop :=
  (exists a, subject = a ++ st.1.2)
  /\ forall c, st.2 = Some c -> substring c subject.

End Capture.

(* ================================================================== *)
(** * The requests of the embedding batcher *)
(* ================================================================== *)

Module Trace.
Import JS Embedder.

Section WithService.
Variable embed : nat -> jsstring -> reply.

(** The slots for which [embed] is called, in the order of the windows.
    [batch.map] calls [embed] for every text of the window before
    [Promise.all] is awaited, so a window that is rejected has still sent
    all its requests; the windows after it are never built. *)
Fixpoint loop_requests (fuel : nat) (texts : list jsstring) (concurrency : nat)
         (i : nat) (results : list (option vector)) : list nat :=
  match fuel with
  | 0 => []
  | S fuel' =>
      if i <? length texts then
        let batch := take concurrency (drop i texts) in
        seq i (length batch)
        ++ match window embed i 0 batch results with
           | Some results' =>
               loop_requests fuel' texts concurrency (i + concurrency) results'
           | None => []
           end
      else []
  end.

Definition requests (texts : list jsstring) (concurrency : option nat)
  : list nat :=
  loop_requests (S (length texts)) texts (default 5 concurrency) 0
                (replicate (length texts) None).
End WithService.

End Trace.

(* ================================================================== *)
(** * Finding the session files ([findSessionFiles] in [src/parser.ts]) *)
(* ================================================================== *)

Set Warnings "-register-all".

Module Walk.
Import JS.

(** [s.endsWith(p)] *)
Definition endsWith (p s : jsstring) : bool :=
  startsWith (reverse p) (reverse s).

(** What [readdirSync(dir, { withFileTypes: true })] lists: an entry that
    is not a directory, a directory with its own entries, or a directory
    on which [readdirSync] throws. *)
Inductive entry : Type :=
| File (name : jsstring)
| Directory (name : jsstring) (entries : list entry)
| Unreadable (name : jsstring).

Section WithJoin.
(** [path.join] of Node's library. *)
Variable join : jsstring -> jsstring -> jsstring.

(** One iteration of [for (const entry of entries)] in [walk(dir)], the
    array [files] being threaded through; [None] when [readdirSync]
    throws somewhere below. *)
Fixpoint visit (dir : jsstring) (e : entry) (files : list jsstring)
  : option (list jsstring) :=
  match e with
  | File name =>
      Some (if endsWith (lit ".jsonl") name
            then files ++ [join dir name] else files)
  | Directory name entries =>
      fold_left (fun acc e' => acc ≫= visit (join dir name) e')
                entries (Some files)
  | Unreadable name => None
  end.

(** [walk(dir)], [entries] being what [dir] holds. *)
Definition walk (dir : jsstring) (entries : list entry)
           (files : list jsstring) : option (list jsstring) :=
  fold_left (fun acc e => acc ≫= visit dir e) entries (Some files).

(** [findSessionFiles]. [claudeCode] is [config.sources.claudeCode];
    [stat] tells what is at a path, [None] when nothing exists there (the
    name of the entry found at the path itself plays no role). *)
Definition findSessionFiles (claudeCode : jsstring)
           (stat : jsstring -> option entry) (basePath : option jsstring)
  : option (list jsstring) :=
  let searchPath := if truthy_opt basePath then default [] basePath
                    else claudeCode in
  match stat searchPath with
  | None => Some []
  | Some (Directory _ entries) => walk searchPath entries []
  | Some (File _) | Some (Unreadable _) => None
  end.

(** In words: the paths of the entries below [dir] that are not
    directories and whose name ends in [.jsonl], parents before children
    and in the order of the listings. *)
Fixpoint sessions_below (dir : jsstring) (e : entry) : list jsstring :=
  match e with
  | File name => if endsWith (lit ".jsonl") name then [join dir name] else []
  | Directory name entries =>
      flat_map (sessions_below (join dir name)) entries
  | Unreadable _ => []
  end.
End WithJoin.

(** No directory at or below [e] makes [readdirSync] throw. *)
Fixpoint readable (e : entry) : bool :=
  match e with
  | File _ => true
  | Directory _ entries => forallb readable entries
  | Unreadable _ => false
  end.

End Walk.

(* ================================================================== *)
(** * The health check ([checkOllama] in [src/embedder.ts]) *)
(* ================================================================== *)

Module Health.
Import JS.

(** How [fetch(baseUrl + "/api/tags")] ends: it throws, or it gives a
    response with its [ok] flag and the names of [data.models] ([None]
    when reading the body throws). *)
Inductive response : Type :=
| NoAnswer
| Answer (ok : bool) (models : option (list jsstring)).

Record check : Type := mkCheck {
  ok : bool;
  error : option jsstring;
}.

Section WithConfig.
(** [config.ollama.baseUrl] and [config.ollama.model] *)
Variable baseUrl : jsstring.
Variable model : jsstring.

Definition cannot_connect : jsstring :=
  lit "Cannot connect to Ollama at " ++ baseUrl ++ lit ". Is it running?".

Definition not_found : jsstring :=
  lit "Model " ++ model ++ lit " not found. Run: ollama pull " ++ model.

(** [data.models.some((m) => m.name === model || m.name.startsWith(model))] *)
Definition hasModel (names : list jsstring) : bool :=
  existsb (fun name => str_eqb name model || startsWith model name) names.

(** [checkOllama] *)
Definition checkOllama (r : response) : check :=
  match r with
  | NoAnswer => {| ok := false; error := Some cannot_connect |}
  | Answer false _ =>
      {| ok := false; error := Some (lit "Ollama not responding") |}
  | Answer true None => {| ok := false; error := Some cannot_connect |}
  | Answer true (Some names) =>
      if hasModel names then {| ok := true; error := None |}
      else {| ok := false; error := Some not_found |}
  end.
End WithConfig.

End Health.

(* ================================================================== *)
(** * The shared pool ([getPool], [closePool] in [src/db/index.ts]) *)
(* ================================================================== *)

Module Pool.

(** The module variable [pool] ([None] is [null]), with the pools that
    [new Pool] has made so far, numbered in order, and those that
    [pool.end()] has closed. *)
Record state : Type := mkState {
  pool : option nat;
  made : nat;
  ended : list nat;
}.

Definition initial : state := {| pool := None; made := 0; ended := [] |}.

(** [getPool]: the pool it returns and the state after. *)
Definition getPool (st : state) : nat * state :=
  match pool st with
  | Some p => (p, st)
  | None => (made st,
             {| pool := Some (made st); made := S (made st); ended := ended st |})
  end.

(** [closePool] *)
Definition closePool (st : state) : state :=
  match pool st with
  | Some p => {| pool := None; made := made st; ended := p :: ended st |}
  | None => st
  end.

Inductive call : Type := Get | Close.

Definition perform (st : state) (c : call) : state :=
  match c with
  | Get => (getPool st).2
  | Close => closePool st
  end.

(** The pools that have been made and not closed. *)
Definition live (st : state) : list nat :=
  filter (fun p => p ∉ ended st) (seq 0 (made st)).

End Pool.

(* ================================================================== *)
(** * Counts and consistency of the store *)
(* ================================================================== *)

Module Stats.
Import JS Parser Embedder Db.

(** The result of [getStats]. *)
Record stats : Type := mkStats {
  n_sessions : nat;
  n_chunks : nat;
  n_embedded : nat;
}.

Definition has_embedding (c : ChunkRow) : Prop := is_Some (c_embedding c).

(** [getStats]: COUNT over [sessions], over [chunks], and over [chunks]
    WHERE embedding IS NOT NULL. *)
Definition getStats (st : Store) : stats :=
  {| n_sessions := size (sessions st);
     n_chunks := size (chunks st);
     n_embedded := length (filter has_embedding ((map_to_list (chunks st)).*2)) |}.

(** What the constraints of the schema say of the two tables as the
    model keeps them: a row sits at its own key, generated keys are below
    the supply and differ from session to session, and every chunk refers
    to a session that is there (the foreign key). *)
Record store_ok (st : Store) : Prop := mkStoreOk {
  ok_session_key : forall sid row,
    sessions st !! sid = Some row -> s_session_id row = sid;
  ok_session_id : forall sid row,
    sessions st !! sid = Some row -> s_id row < next_id st;
  ok_session_inj : forall sid1 sid2 row1 row2,
    sessions st !! sid1 = Some row1 -> sessions st !! sid2 = Some row2 ->
    s_id row1 = s_id row2 -> sid1 = sid2;
  ok_chunk_key : forall k row,
    chunks st !! k = Some row -> (c_session_id row, c_chunk_index row) = k;
  ok_chunk_session : forall k row,
    chunks st !! k = Some row ->
    exists sid srow, sessions st !! sid = Some srow /\ s_id srow = k.1;
}.

(** The row that a chunk leaves at its key: its content, embedding, token
    count and lists; the generated key, the role and the creation time of
    the row that was there before, if there was one. *)
Definition written (st : Store) (c : Chunk) (row : ChunkRow) : Prop :=
  c_content row = ch_content c
  /\ c_embedding row = ch_embedding c
  /\ c_token_count row = ch_token_count c
  /\ c_tools_used row = ch_tools_used c
  /\ c_files_mentioned row = ch_files_mentioned c
  /\ match chunks st !! chunk_key c with
     | Some old => c_id row = c_id old /\ c_role row = c_role old
                   /\ c_created_at row = c_created_at old
     | None => c_role row = ch_role c /\ c_created_at row = ch_created_at c
     end.

End Stats.

(* ================================================================== *)
(** * The ingest command as a whole ([src/cli.ts]) *)
(* ================================================================== *)

Module Command.
Import JS Parser Embedder Db Cli Walk Health.

(** [files.slice(0, n)] *)
Definition slice_to {A} (n : Z) (l : list A) : list A :=
  if (n <? 0)%Z then take (Z.to_nat (Z.of_nat (length l) + n)) l
  else take (Z.to_nat n) l.

(** [filesToProcess]. [limit] is [opts.limit] as [parseInt] leaves it,
    [None] when the option is absent or not a number (both falsy, as is
    0). *)
Definition filesToProcess (limit : option Z) (files : list jsstring)
  : list jsstring :=
  match limit with
  | Some n => if (n =? 0)%Z then files else slice_to n files
  | None => files
  end.

Record Options : Type := mkOptions {
  opt_path : jsstring;
  opt_file : option jsstring;
  opt_embed : bool;
  opt_limit : option Z;
}.

(** What the command meets: the answer of the health check, the tree of
    files, what reading a file gives, and for the n-th file processed the
    time of the store and the embedding service. *)
Record World : Type := mkWorld {
  health : response;
  stat : jsstring -> option entry;
  read : jsstring -> option (list (option ClaudeMessage));
  clock : nat -> nat;
  service : nat -> nat -> jsstring -> reply;
}.

(** How the command ends: [process.exit(1)] after the health check, an
    exception out of [findSessionFiles] (the call stands outside every
    [try], in an async action that [program.parse()] does not await, so
    nothing catches it), a loop body that never completes, or the end of
    the loop with its counters. The closing of the pool after the loop is
    taken to succeed. *)
Inductive ending : Type :=
| Exit1
| Thrown
| Hangs
| Completed (rs : RunState).

(** The exit status of the process: 1 after [process.exit(1)] and, by
    the default of Node for a rejection that nothing handles, after the
    exception; 0 after the action has completed; none while it hangs. *)
Definition status (e : ending) : option nat :=
  match e with
  | Exit1 | Thrown => Some 1
  | Completed _ => Some 0
  | Hangs => None
  end.

Section WithConfig.
Variable basename : jsstring -> jsstring -> jsstring.
Variable join : jsstring -> jsstring -> jsstring.
Variable claudeCode : jsstring.
Variable baseUrl : jsstring.
Variable model : jsstring.
Variable accepts_session : Session -> bool.
Variable accepts_chunks : list Chunk -> bool.

(** [opts.file ? [opts.file] : findSessionFiles(opts.path)] *)
Definition filesOf (opts : Options) (w : World) : option (list jsstring) :=
  if truthy_opt (opt_file opts) then Some [default [] (opt_file opts)]
  else findSessionFiles join claudeCode (stat w) (Some (opt_path opts)).

Definition jobsOf (w : World) (files : list jsstring) : list job :=
  imap (fun i file => (clock w i, service w i, (file, read w file))) files.

(** The action of the [ingest] command on the store [st]. *)
Definition ingestCommand (opts : Options) (w : World) (st : Store) : ending :=
  if opt_embed opts && negb (ok (checkOllama baseUrl model (health w)))
  then Exit1
  else
    match filesOf opts w with
    | None => Thrown
    | Some files =>
        match ingest basename accepts_session accepts_chunks (opt_embed opts)
                     (jobsOf w (filesToProcess (opt_limit opts) files)) st with
        | Some rs => Completed rs
        | None => Hangs
        end
    end.
End WithConfig.

End Command.

(* ================================================================== *)
(** * More sample inputs *)
(* ================================================================== *)

Module Scenarios.
Import JS Parser Embedder Db Cli Walk Health Command Samples.

(** A stand-in for [path.join]: the two parts with a slash between. *)
Definition sample_join (dir name : jsstring) : jsstring :=
  dir ++ slash :: name.

(** A directory of sessions: a transcript, and a project directory with
    a transcript and a file that is none. *)
Definition sample_root : jsstring := lit "/sessions".

Definition sample_tree : entry :=
  Directory (lit "sessions")
    [ File (lit "a.jsonl");
      Directory (lit "proj")
        [ File (lit "b.jsonl"); File (lit "notes.txt") ] ].

Definition sample_stat (p : jsstring) : option entry :=
  if str_eqb p sample_root then Some sample_tree else None.

(** A second session file. *)
Definition other_path : jsstring := lit "ses_def456.jsonl".
Definition other_file : source := (other_path, Some two_paths_transcript).

(** A run over the two files, the embedding service being down during
    the second. *)
Definition sample_jobs : list job :=
  [ (0, service_up, readme_file); (1, service_down, other_file) ].

(** An embedding service that answers every request, the one for slot 1
    without a vector. *)
Definition service_gap (i : nat) (text : jsstring) : reply :=
  if i =? 1 then Some None else service_up i text.

(** A run over the README transcript with that service. *)
Definition gap_jobs : list job := [ (0, service_gap, readme_file) ].

(** A transcript whose first and last record make the body of the loop
    throw, after their timestamp has been read. *)
Definition faulty_transcript : list (option ClaudeMessage) :=
  [ Some (Faulty (Some (lit "2026-02-01T00:00:00Z")));
    Some (UserMessage (Some (lit "2026-02-01T00:00:07Z"))
                      (lit "a turn that is kept"));
    Some (Faulty (Some (lit "2026-02-01T00:00:09Z"))) ].

(** A chunk for the first row of the first session of [sample_store]. *)
Definition sample_chunk : Chunk :=
  {| ch_session_id := 0;
     ch_chunk_index := 0;
     ch_role := assistant;
     ch_content := lit "a new content";
     ch_embedding := None;
     ch_token_count := 4;
     ch_tools_used := [];
     ch_files_mentioned := [];
     ch_created_at := None;
     ch_metadata := None |}.

End Scenarios.

(* ================================================================== *)
(** * Facts about strings *)
(* ================================================================== *)

Section JSFacts.
Import JS.

Lemma trimStart_spaces (w s : jsstring) :
  forallb is_space w = true -> trimStart (w ++ s) = trimStart s.
Proof.
  induction w as [|c w IH]; simpl; [done|].
  intros [Hc Hw]%andb_prop. rewrite Hc. auto.
Qed.

Lemma trimStart_solid (c : cu) (s : jsstring) :
  is_space c = false -> trimStart (c :: s) = c :: s.
Proof. intros H. simpl. by rewrite H. Qed.

Lemma trimEnd_spaces (s w : jsstring) :
  forallb is_space w = true -> trimEnd (s ++ w) = trimEnd s.
Proof.
  intros Hw. unfold trimEnd. rewrite reverse_app.
  rewrite trimStart_spaces; [done|].
  rewrite forallb_forall in *. intros x Hx. apply Hw.
  apply list_elem_of_In. apply list_elem_of_In in Hx.
  by apply elem_of_reverse.
Qed.

Lemma trimEnd_solid (s : jsstring) (c : cu) :
  is_space c = false -> trimEnd (s ++ [c]) = s ++ [c].
Proof.
  intros H. unfold trimEnd. rewrite reverse_app.
  change (reverse [c]) with [c]. simpl. rewrite H.
  by rewrite reverse_cons, reverse_involutive.
Qed.

End JSFacts.

(* ================================================================== *)
(** * Facts about the classifier *)
(* ================================================================== *)

Section ClassifierFacts.
Import JS Parser.

Lemma length_result_header name :
  length (result_header name) = 15 + length name.
Proof.
  unfold result_header. rewrite !length_app.
  change (length (lit "[Tool Result: ")) with 14.
  change (length (lit "]")) with 1. lia.
Qed.

Lemma result_header_snoc name :
  result_header name = (lit "[Tool Result: " ++ name) ++ [93%N].
Proof. unfold result_header. by rewrite (assoc_L (++)). Qed.

Lemma trimEnd_result_header name :
  trimEnd (result_header name) = result_header name.
Proof. rewrite result_header_snoc. by apply trimEnd_solid. Qed.

(** [trim] can only shorten the text of a tool result at its end: the
    text starts with a bracket. *)
Lemma tool_result_text ts name out :
  (extractContent (ToolResult ts name out)).1.1
  = trimEnd (result_header name ++ newline :: truncateOutput (result_output out)).
Proof.
  unfold extractContent, trim. simpl fst.
  (* the text starts with a bracket, which [trimStart] keeps *)
  reflexivity.
Qed.

Lemma tool_result_rest ts name out :
  (extractContent (ToolResult ts name out)).1.2 = [name]
  /\ (extractContent (ToolResult ts name out)).2 = tool.
Proof. done. Qed.

Lemma truncateOutput_long (o : jsstring) :
  1000 < length o -> truncateOutput o = take 1000 o ++ lit "...".
Proof.
  intros H. unfold truncateOutput, slice0.
  by destruct (Nat.ltb_spec 1000 (length o)); [|lia].
Qed.

Lemma truncateOutput_short (o : jsstring) :
  length o <= 1000 -> truncateOutput o = o.
Proof.
  intros H. unfold truncateOutput.
  by destruct (Nat.ltb_spec 1000 (length o)); [lia|].
Qed.

Lemma tool_result_text_long ts name out :
  1000 < length (result_output out) ->
  (extractContent (ToolResult ts name out)).1.1
  = result_header name ++ newline :: take 1000 (result_output out) ++ lit "...".
Proof.
  intros H. rewrite tool_result_text, truncateOutput_long by done.
  change (lit "...") with ([46%N; 46%N] ++ [46%N]).
  rewrite app_comm_cons, !(assoc_L (++)).
  by apply trimEnd_solid.
Qed.

Lemma tool_result_text_empty ts name out :
  result_output out = [] ->
  (extractContent (ToolResult ts name out)).1.1 = result_header name.
Proof.
  intros H. rewrite tool_result_text, H.
  change (truncateOutput []) with (@nil cu).
  rewrite trimEnd_spaces by done. apply trimEnd_result_header.
Qed.

(** The text of a tool result is never empty and never shorter than its
    header, whatever the output. *)
Lemma tool_result_text_length ts name out :
  15 + length name <= length (extractContent (ToolResult ts name out)).1.1.
Proof.
  rewrite tool_result_text.
  set (o := truncateOutput (result_output out)).
  assert (Hgen : forall w : jsstring,
    15 + length name <= length (trimEnd (result_header name ++ w))).
  { induction w as [|c w IH] using rev_ind.
    - rewrite (right_id_L [] (++)), trimEnd_result_header,
        length_result_header. lia.
    - rewrite (assoc_L (++)). destruct (is_space c) eqn:Hc.
      + rewrite trimEnd_spaces; [done|]. simpl. by rewrite Hc.
      + rewrite trimEnd_solid by done.
        rewrite !length_app, length_result_header. lia. }
  apply Hgen.
Qed.

End ClassifierFacts.

(* ================================================================== *)
(** * Facts about the chunk builder *)
(* ================================================================== *)

Section BuilderFacts.
Import JS Parser.

Lemma track_messages st ts : ls_messages (track st ts) = ls_messages st.
Proof. unfold track. destruct ts as [t|]; [|done]. by destruct (truthy t). Qed.

Lemma chunkOfLine_index n line m :
  chunkOfLine n line = Some m -> index m = n.
Proof.
  unfold chunkOfLine. destruct line as [parsed|]; [|done].
  destruct (extractContent parsed) as [[text tools] r].
  repeat case_match; naive_solver.
Qed.

(** Whether a line is retained does not depend on the messages so far. *)
Lemma chunkOfLine_is_Some n n' line :
  is_Some (chunkOfLine n line) -> is_Some (chunkOfLine n' line).
Proof.
  unfold chunkOfLine. destruct line as [parsed|]; [|done].
  destruct (extractContent parsed) as [[text tools] r].
  repeat case_match; naive_solver.
Qed.

(** The messages after one iteration of the loop. *)
Lemma step_messages st line :
  ls_messages (step st line)
  = ls_messages st
      ++ option_list (chunkOfLine (length (ls_messages st)) line).
Proof.
  unfold step. destruct line as [parsed|];
    [|simpl; by rewrite (right_id_L [] (++))].
  rewrite track_messages.
  destruct (chunkOfLine (length (ls_messages st)) (Some parsed)); simpl;
    by rewrite ?track_messages, ?(right_id_L [] (++)).
Qed.

(** The loop appends, for every retained line in turn, its chunk with the
    next index. *)
Lemma loop_messages lines st :
  exists rest,
    ls_messages (fold_left step lines st) = ls_messages st ++ rest
    /\ index <$> rest = seq (length (ls_messages st)) (length rest)
    /\ Forall2 (fun m line => chunkOfLine (index m) line = Some m)
               rest (filter (fun line => is_Some (chunkOfLine 0 line)) lines).
Proof.
  revert st. induction lines as [|line lines IH]; intros st; simpl.
  - exists []. rewrite (right_id_L [] (++)). by repeat split.
  - destruct (IH (step st line)) as (rest & Hm & Hi & Hf).
    rewrite Hm, step_messages in *. rewrite filter_cons.
    destruct (chunkOfLine (length (ls_messages st)) line) as [m|] eqn:Hc;
      simpl in *.
    + exists (m :: rest). rewrite <- (assoc_L (++)). split; [done|].
      rewrite length_app in Hi. simpl in Hi.
      pose proof (chunkOfLine_index _ _ _ Hc) as Hidx.
      split.
      * simpl. rewrite Hidx. f_equal.
        by replace (S (length (ls_messages st)))
          with (length (ls_messages st) + 1) by lia.
      * rewrite decide_True
          by (apply (chunkOfLine_is_Some (length (ls_messages st))); by rewrite Hc).
        constructor; [by rewrite Hidx|done].
    + exists rest. rewrite (right_id_L [] (++)) in *. repeat split; [done..|].
      rewrite decide_False; [done|].
      intros H. apply (chunkOfLine_is_Some _ (length (ls_messages st))) in H.
      rewrite Hc in H. by destruct H.
Qed.

(** What the retained chunk of a record carries as role and tools. *)
Lemma chunkOfLine_tools n parsed m :
  chunkOfLine n (Some parsed) = Some m ->
  match parsed with
  | ToolResult _ name _ => role m = tool /\ toolsUsed m = [name]
  | UserMessage _ _ => role m = user /\ toolsUsed m = []
  | AssistantMessage _ _ => role m = assistant /\ toolsUsed m = []
  | ToolUse _ _ _ | OtherMessage _ | Faulty _ => False
  end.
Proof.
  unfold chunkOfLine.
  destruct parsed; simpl;
    repeat case_match; intros; simplify_eq/=; done.
Qed.

Section WithPath.
Variable basename : jsstring -> jsstring -> jsstring.

Lemma parseSessionFile_messages filePath file s :
  parseSessionFile basename filePath file = Some s ->
  exists lines,
    file = Some lines
    /\ messages s = ls_messages (fold_left step lines initial)
    /\ 0 < length (messages s).
Proof.
  unfold parseSessionFile. destruct file as [lines|]; [|done].
  destruct (Nat.eqb_spec (length lines) 0); [done|].
  destruct (Nat.eqb_spec (length (ls_messages (fold_left step lines initial))) 0);
    [done|].
  intros [= <-]. exists lines. simpl. repeat split. lia.
Qed.

(** C2. For every accepted session file, the sequence indices of the
    emitted chunks are exactly 0, 1, ..., n-1, where n >= 1 is the number
    of retained chunks, and the chunks are those of the retained lines in
    the order of the file, whatever was filtered out between them. *)
Theorem parse_indices_dense filePath lines s :
  parseSessionFile basename filePath (Some lines) = Some s ->
  index <$> messages s = seq 0 (length (messages s))
  /\ 0 < length (messages s)
  /\ Forall2 (fun m line => chunkOfLine (index m) line = Some m)
             (messages s)
             (filter (fun line => is_Some (chunkOfLine 0 line)) lines).
Proof.
  intros H.
  destruct (parseSessionFile_messages _ _ _ H) as (lines' & [= <-] & Hm & Hn).
  destruct (loop_messages lines initial) as (rest & Hr & Hi & Hf).
  simpl in Hr, Hi. rewrite Hm, Hr. by repeat split; [|rewrite <- Hr, <- Hm|].
Qed.

(** C10. Every emitted chunk carries at most one tool name: the name
    of its record when the record is a tool result, none when it is a user
    or an assistant record; no other record is emitted. *)
Theorem tools_at_most_one filePath lines s m :
  parseSessionFile basename filePath (Some lines) = Some s ->
  m ∈ messages s ->
  length (toolsUsed m) <= 1
  /\ exists parsed,
       Some parsed ∈ lines
       /\ chunkOfLine (index m) (Some parsed) = Some m
       /\ match parsed with
          | ToolResult _ name _ => role m = tool /\ toolsUsed m = [name]
          | UserMessage _ _ => role m = user /\ toolsUsed m = []
          | AssistantMessage _ _ => role m = assistant /\ toolsUsed m = []
          | ToolUse _ _ _ | OtherMessage _ | Faulty _ => False
          end.
Proof.
  intros H Hin.
  destruct (parseSessionFile_messages _ _ _ H) as (lines' & [= <-] & Hm & _).
  destruct (loop_messages lines initial) as (rest & Hr & _ & Hf).
  simpl in Hr. rewrite Hm, Hr in Hin.
  apply list_elem_of_lookup in Hin as [i Hi].
  destruct (Forall2_lookup_l _ _ _ _ _ Hf Hi) as (line & Hl & Hc).
  assert (Hline : line ∈ lines).
  { apply list_elem_of_lookup_2 in Hl. by apply list_elem_of_filter in Hl as [_ ?]. }
  destruct line as [parsed|]; [|done].
  pose proof (chunkOfLine_tools _ _ _ Hc) as Ht.
  split.
  - destruct parsed; destruct_and?; try done;
      match goal with H : toolsUsed m = _ |- _ => rewrite H end; simpl; lia.
  - by exists parsed.
Qed.
End WithPath.

End BuilderFacts.

(* ================================================================== *)
(** * The text of a tool result and the length filter *)
(* ================================================================== *)

Section ToolResultFacts.
Import JS Parser Samples.

(** C6, as stated, fails: the text is trimmed, so an output that ends in
    white space does not appear as it is after the newline. *)
Lemma tool_result_trailing_space_dropped :
  (extractContent spaced_result).1.1
  = result_header (lit "Bash") ++ newline :: lit "done"
  /\ (extractContent spaced_result).1.1
     <> result_header (lit "Bash") ++ newline :: lit "done ".
Proof. split; [by vm_compute|]. vm_compute. discriminate. Qed.

(** C6, amended. The text of a tool result is the header, a newline and
    the output (the output field, else the preview field, else empty),
    with trailing white space removed; an output of more than 1000 code
    units is first cut to its first 1000 followed by three dots, and the
    text is then exactly header, newline, those 1000 and the dots. *)
Theorem tool_result_rendering ts name out :
  let o := result_output out in
  let text := (extractContent (ToolResult ts name out)).1.1 in
  o = (if truthy_opt (out ≫= output) then default [] (out ≫= output)
       else if truthy_opt (out ≫= preview) then default [] (out ≫= preview)
       else [])
  /\ text = trimEnd (result_header name ++ newline :: truncateOutput o)
  /\ (1000 < length o ->
      truncateOutput o = take 1000 o ++ lit "..."
      /\ length (truncateOutput o) = 1003
      /\ text = result_header name ++ newline :: take 1000 o ++ lit "...")
  /\ (length o <= 1000 ->
      text = trimEnd (result_header name ++ newline :: o))
  /\ (forall o' c, truncateOutput o = o' ++ [c] -> is_space c = false ->
      text = result_header name ++ newline :: truncateOutput o).
Proof.
  intros o text. subst text.
  split; [|split; [|split; [|split]]].
  - subst o. unfold result_output, or_else, or_empty.
    destruct out as [[[[|a o1]|] [[|b p1]|]]|]; done.
  - apply tool_result_text.
  - intros H. split; [by apply truncateOutput_long|]. split.
    + rewrite truncateOutput_long, length_app, length_take by done.
      change (length (lit "...")) with 3. lia.
    + by apply tool_result_text_long.
  - intros H. rewrite tool_result_text, truncateOutput_short; done.
  - intros o' c Ho Hc. unfold o in *. rewrite tool_result_text, Ho.
    rewrite app_comm_cons, (assoc_L (++)). by apply trimEnd_solid.
Qed.

(** The amended C6 at an output of 1001 code units. *)
Lemma tool_result_rendering_witness :
  let out := Some {| output := Some (replicate 1001 120%N); preview := None |} in
  (extractContent (ToolResult None (lit "Bash") out)).1.1
  = result_header (lit "Bash") ++ newline :: replicate 1000 120%N ++ lit "...".
Proof.
  intros out.
  destruct (tool_result_rendering None (lit "Bash") out) as (_ & _ & H & _).
  destruct H as (_ & _ & ->).
  - vm_compute. lia.
  - by vm_compute.
Defined.

(** C8, as stated, fails: a tool result without output and preview is
    retained, as a chunk that holds the header alone. *)
Lemma empty_echo_retained :
  (fun s => content <$> messages s)
    <$> parseSessionFile sample_basename sample_path (Some [Some empty_echo])
  = Some [lit "[Tool Result: Bash]"].
Proof. by vm_compute. Qed.

(** C8, amended. A tool result whose output and preview are both absent
    or empty renders as its header, which has at least 15 code units, so
    the length filter keeps it: the loop appends one chunk for it. *)
Theorem empty_echo_kept st ts name out :
  result_output out = [] ->
  10 <= length (result_header name)
  /\ ls_messages (step st (Some (ToolResult ts name out)))
     = ls_messages st
         ++ [makeMessage (length (ls_messages st)) (ToolResult ts name out)
                         (result_header name) [name] tool].
Proof.
  intros Ho. pose proof (length_result_header name) as Hlen.
  split; [lia|].
  rewrite step_messages. f_equal. unfold chunkOfLine.
  pose proof (tool_result_text_empty ts name out Ho) as Ht.
  pose proof (tool_result_rest ts name out) as [Htools Hr].
  destruct (extractContent (ToolResult ts name out)) as [[text tools] r].
  simpl in Ht, Htools, Hr. subst.
  assert (Htruthy : truthy (result_header name) = true).
  { destruct (result_header name); [simpl in Hlen; lia|done]. }
  rewrite Htruthy.
  destruct (Nat.ltb_spec (length (result_header name)) 10); [lia|].
  done.
Qed.

(** The amended C8 at a tool result whose output is the empty string. *)
Lemma empty_echo_kept_witness :
  let out := Some {| output := Some []; preview := None |} in
  ls_messages (step initial (Some (ToolResult None (lit "Bash") out)))
  = [makeMessage 0 (ToolResult None (lit "Bash") out)
                 (result_header (lit "Bash")) [lit "Bash"] tool].
Proof.
  intros out.
  exact (proj2 (empty_echo_kept initial None (lit "Bash") out eq_refl)).
Defined.

End ToolResultFacts.

(* ================================================================== *)
(** * Facts about the embedding batcher *)
(* ================================================================== *)

Section EmbedderFacts.
Import JS Embedder.

Variable embed : nat -> jsstring -> reply.

Lemma length_answers texts : length (answers embed texts) = length texts.
Proof. unfold answers. by rewrite length_imap. Qed.

Lemma lookup_answers texts i t :
  texts !! i = Some t -> answers embed texts !! i = Some (embed i t).
Proof. intros H. unfold answers. by rewrite list_lookup_imap, H. Qed.

Lemma length_slots texts : length (slots embed texts) = length texts.
Proof. unfold slots. by rewrite length_imap. Qed.

Lemma lookup_slots texts i t :
  texts !! i = Some t -> slots embed texts !! i = Some (mjoin (embed i t)).
Proof. intros H. unfold slots. by rewrite list_lookup_imap, H. Qed.

Lemma partial_all texts :
  partial embed texts (length texts) = slots embed texts.
Proof.
  unfold partial. rewrite Nat.sub_diag. simpl.
  rewrite (right_id_L [] (++)). apply take_ge. by rewrite length_slots.
Qed.

Lemma partial_none texts :
  partial embed texts 0 = replicate (length texts) None.
Proof. unfold partial. by rewrite take_0, Nat.sub_0_r. Qed.

(** Writing slot [k] after the slots below it. *)
Lemma partial_step texts k t v :
  texts !! k = Some t -> embed k t = Some v ->
  <[k := v]> (partial embed texts k) = partial embed texts (S k).
Proof.
  intros Ht Hv. pose proof (lookup_lt_Some _ _ _ Ht) as Hk.
  pose proof (lookup_slots _ _ _ Ht) as Ha. rewrite Hv in Ha. simpl in Ha.
  unfold partial.
  assert (Hlen : length (take k (slots embed texts)) = k).
  { rewrite length_take, length_slots. lia. }
  rewrite insert_app_r_alt by lia. rewrite Hlen, Nat.sub_diag.
  replace (length texts - k) with (S (length texts - S k)) by lia.
  simpl. rewrite (take_S_r _ _ _ Ha). by rewrite <- (assoc_L (++)).
Qed.

(** A window all of whose requests succeed writes exactly its slots. *)
Lemma window_ok texts batch i j :
  (forall o t, batch !! o = Some t ->
               texts !! (i + j + o) = Some t /\ is_Some (embed (i + j + o) t)) ->
  window embed i j batch (partial embed texts (i + j))
  = Some (partial embed texts (i + j + length batch)).
Proof.
  revert j. induction batch as [|t batch IH]; intros j H; simpl.
  - by rewrite Nat.add_0_r.
  - destruct (H 0 t eq_refl) as [Ht [v Hv]]. rewrite Nat.add_0_r in Ht, Hv.
    rewrite Hv, (partial_step _ _ _ _ Ht Hv).
    replace (S (i + j)) with (i + S j) by lia. rewrite IH.
    + f_equal. f_equal. lia.
    + intros o t' Ho. replace (i + S j + o) with (i + j + S o) by lia.
      by apply H.
Qed.

(** A window one of whose requests fails is rejected. *)
Lemma window_fail batch i j o t results :
  batch !! o = Some t -> embed (i + j + o) t = None ->
  window embed i j batch results = None.
Proof.
  revert j o results. induction batch as [|t0 batch IH];
    intros j o results Ho He; [done|]. simpl.
  destruct o as [|o]; simpl in Ho.
  - injection Ho as ->. rewrite Nat.add_0_r in He. by rewrite He.
  - destruct (embed (i + j) t0); [|done].
    apply (IH (S j) o); [done|].
    by replace (i + S j + o) with (i + j + S o) by lia.
Qed.

Lemma lookup_batch (texts : list jsstring) c i o t :
  take c (drop i texts) !! o = Some t -> texts !! (i + o) = Some t.
Proof.
  intros H. apply lookup_take_Some in H as [H _].
  by rewrite lookup_drop in H.
Qed.

(** With all requests answered, the loop resolves with what they were
    given, provided it has fuel for its ceil((n - i) / c) iterations. *)
Lemma loop_ok texts c fuel i :
  1 <= c ->
  (forall k t, texts !! k = Some t -> is_Some (embed k t)) ->
  length texts - i < fuel ->
  loop embed fuel texts c i (partial embed texts (i `min` length texts))
  = Resolved (slots embed texts).
Proof.
  intros Hc Hall. revert i. induction fuel as [|fuel IH]; intros i Hf; [lia|].
  simpl. destruct (Nat.ltb_spec i (length texts)) as [Hi|Hi].
  - rewrite Nat.min_l by lia.
    pose proof (window_ok texts (take c (drop i texts)) i 0) as Hw.
    rewrite Nat.add_0_r in Hw. rewrite Hw.
    + rewrite length_take, length_drop.
      replace (i + c `min` (length texts - i))
        with ((i + c) `min` length texts) by lia.
      apply IH. lia.
    + intros o t Ho. apply lookup_batch in Ho. split; [done|]. by apply Hall.
  - rewrite Nat.min_r by lia. by rewrite partial_all.
Qed.

(** With a request that fails, the loop is rejected: in the window of
    that request or in an earlier one. *)
Lemma loop_fail texts c fuel i p t results :
  1 <= c -> i <= p -> texts !! p = Some t -> embed p t = None ->
  length texts - i < fuel ->
  loop embed fuel texts c i results = Rejected.
Proof.
  intros Hc Hip Ht He. pose proof (lookup_lt_Some _ _ _ Ht) as Hp.
  revert i results Hip. induction fuel as [|fuel IH];
    intros i results Hip Hf; [lia|].
  simpl. destruct (Nat.ltb_spec i (length texts)) as [Hi|Hi]; [|lia].
  destruct (decide (p < i + c)) as [Hin|Hout].
  - rewrite (window_fail _ i 0 (p - i) t); [done| |].
    + apply lookup_take_Some. split; [|lia].
      rewrite lookup_drop. by replace (i + (p - i)) with p by lia.
    + by replace (i + 0 + (p - i)) with p by lia.
  - destruct (window embed i 0 _ results); [|done].
    apply IH; lia.
Qed.

(** With a concurrency of 0 the loop does not advance: whatever the
    fuel, a call on a non-empty list never settles. *)
Lemma loop_stuck texts fuel results :
  texts <> [] -> loop embed fuel texts 0 0 results = Pending.
Proof.
  intros Hne. destruct texts as [|t texts]; [done|].
  induction fuel as [|fuel IH]; [done|]. exact IH.
Qed.

(** C7. With a concurrency of at least one (five when none is given),
    [embedBatch] resolves, when every request succeeds, with a list as long
    as the input whose slot [i] holds the embedding of text [i], that is
    what the request for text [i] returned; when a request fails, the call
    is rejected and returns no list at all. *)
Theorem embedBatch_contract texts concurrency :
  1 <= default 5 concurrency ->
  ((forall i t, texts !! i = Some t -> is_Some (embed i t)) ->
   exists vs,
     embedBatch embed texts concurrency = Resolved vs
     /\ length vs = length texts
     /\ forall i t, texts !! i = Some t -> vs !! i = embed i t)
  /\ (forall i t, texts !! i = Some t -> embed i t = None ->
      embedBatch embed texts concurrency = Rejected).
Proof.
  intros Hc. unfold embedBatch. split.
  - intros Hall. exists (slots embed texts).
    rewrite <- partial_none.
    split; [|split].
    + apply (loop_ok texts _ _ 0); [done..|lia].
    + apply length_slots.
    + intros i t Ht. rewrite (lookup_slots _ _ _ Ht).
      by destruct (Hall i t Ht) as [e ->].
  - intros i t Ht He. apply (loop_fail texts _ _ 0 i t); [done|lia|done..|lia].
Qed.

End EmbedderFacts.

Section EmbedderWitness.
Import JS Embedder Samples.

(** C7 at twelve texts with the default concurrency: twelve embeddings,
    in the order of the texts. *)
Lemma embedBatch_contract_witness :
  exists vs,
    embedBatch service_up twelve_texts None = Resolved vs
    /\ length vs = 12
    /\ forall i t, twelve_texts !! i = Some t -> vs !! i = service_up i t.
Proof.
  assert (Hc : 1 <= default 5 (@None nat)) by (simpl; lia).
  destruct (embedBatch_contract service_up twelve_texts None Hc) as [Hok _].
  apply Hok. intros i t _. by eexists.
Defined.

End EmbedderWitness.

(* ================================================================== *)
(** * Facts about the statements of the store *)
(* ================================================================== *)

Section StoreFacts.
Import JS Parser Embedder Db.

Lemma upsertChunk_sessions st c : sessions (upsertChunk st c) = sessions st.
Proof. unfold upsertChunk. by destruct (chunks st !! chunk_key c). Qed.

Lemma upsertChunk_dom st c :
  dom (chunks (upsertChunk st c)) = {[chunk_key c]} ∪ dom (chunks st).
Proof.
  unfold upsertChunk.
  destruct (chunks st !! chunk_key c); simpl; by rewrite dom_insert_L.
Qed.

Lemma fold_upsertChunk cs st :
  sessions (fold_left upsertChunk cs st) = sessions st
  /\ dom (chunks (fold_left upsertChunk cs st))
     = list_to_set (chunk_key <$> cs) ∪ dom (chunks st).
Proof.
  revert st. induction cs as [|c cs IH]; intros st; simpl.
  - split; [done|set_solver].
  - destruct (IH (upsertChunk st c)) as [-> ->].
    rewrite upsertChunk_sessions, upsertChunk_dom. split; [done|set_solver].
Qed.

(** Upserting at a key that is present does not change the row count. *)
Lemma size_insert_present `{Countable K} {A} (m : gmap K A) k v :
  is_Some (m !! k) -> size (<[k := v]> m) = size m.
Proof.
  intros Hk. rewrite <- !size_dom, dom_insert_L.
  f_equal. apply elem_of_dom in Hk. set_solver.
Qed.

Variable accepts_session : Session -> bool.
Variable accepts_chunks : list Chunk -> bool.

(** What a session upsert that succeeds changes: the row of its
    [session_id], whose primary key is the old one when there was a row. *)
Lemma upsertSession_spec now s st id st' :
  upsertSession accepts_session now s st = Some (id, st') ->
  accepts_session s = true
  /\ chunks st' = chunks st
  /\ (exists row, sessions st' = <[session_id s := row]> (sessions st)
                  /\ s_id row = id)
  /\ match sessions st !! session_id s with
     | Some old => id = s_id old /\ next_id st' = next_id st
     | None => id = next_id st /\ next_id st' = S (next_id st)
     end.
Proof.
  unfold upsertSession. destruct (accepts_session s); [|done]. simpl.
  destruct (sessions st !! session_id s) as [old|];
    intros [= <- <-]; simpl; eauto 10.
Qed.

Lemma upsertSession_rejected now s st :
  accepts_session s = false -> upsertSession accepts_session now s st = None.
Proof. intros H. unfold upsertSession. by rewrite H. Qed.

(** A bulk insert that succeeds leaves [sessions] alone and makes the
    keys of [chunks] those it had and those of the inserted chunks. *)
Lemma insertChunks_spec cs st st' :
  insertChunks accepts_chunks cs st = Some st' ->
  sessions st' = sessions st
  /\ dom (chunks st') = list_to_set (chunk_key <$> cs) ∪ dom (chunks st).
Proof.
  unfold insertChunks. destruct (Nat.eqb_spec (length cs) 0) as [H0|_].
  - intros [= <-]. apply nil_length_inv in H0 as ->. split; [done|set_solver].
  - repeat case_match; try done. intros [= <-]. apply fold_upsertChunk.
Qed.

End StoreFacts.

(* ================================================================== *)
(** * Facts about the ingest loop *)
(* ================================================================== *)

Section IngestFacts.
Import JS Parser Embedder Db Cli.

Lemma chunk_key_setEmbedding embeddings i c :
  chunk_key (setEmbedding embeddings i c) = chunk_key c.
Proof. done. Qed.

Lemma chunk_keys_imap embeddings (cs : list Chunk) :
  chunk_key <$> imap (setEmbedding embeddings) cs = chunk_key <$> cs.
Proof.
  apply list_eq. intros i.
  rewrite !list_lookup_fmap, list_lookup_imap. by destruct (cs !! i).
Qed.

Lemma chunk_keys_chunkOf id (msgs : list ParsedMessage) :
  chunk_key <$> (chunkOf id <$> msgs) = (fun m => (id, index m)) <$> msgs.
Proof. rewrite <- list_fmap_compose. by apply list_fmap_ext. Qed.

(** With the default concurrency the batcher always settles. *)
Lemma embedBatch_settles embed texts :
  embedBatch embed texts None <> Pending.
Proof.
  unfold embedBatch. simpl default.
  destruct (decide (Forall is_Some (answers embed texts))) as [Hall|Hex].
  - rewrite <- (partial_none embed), (loop_ok embed texts 5 _ 0); [done|lia| |lia].
    intros k t Ht. rewrite Forall_lookup in Hall.
    apply (Hall k). by apply lookup_answers.
  - apply not_Forall_Exists in Hex; [|apply _].
    apply Exists_exists in Hex as (o & Ho & Hnone). simpl in Hnone.
    destruct o as [v|]; [by destruct Hnone; eexists|].
    apply list_elem_of_In, list_elem_of_lookup in Ho as [p Hp].
    unfold answers in Hp. rewrite list_lookup_imap in Hp.
    destruct (texts !! p) as [t|] eqn:Ht; [|done].
    injection Hp as Hp.
    rewrite (loop_fail embed texts 5 _ 0 p t); [done|lia|lia|done..|lia].
Qed.

Section WithWorld.
Variable basename : jsstring -> jsstring -> jsstring.
Variable accepts_session : Session -> bool.
Variable accepts_chunks : list Chunk -> bool.

Lemma embedChunks_settles embedOpt embed cs :
  embedChunks embedOpt embed cs <> Pending.
Proof.
  unfold embedChunks. destruct embedOpt; [|done].
  pose proof (embedBatch_settles embed (ch_content <$> cs)).
  by destruct (embedBatch embed (ch_content <$> cs) None).
Qed.

Lemma embedChunks_keys embedOpt embed cs cs' :
  embedChunks embedOpt embed cs = Resolved cs' ->
  chunk_key <$> cs' = chunk_key <$> cs /\ length cs' = length cs.
Proof.
  unfold embedChunks. destruct embedOpt; [|by intros [= <-]].
  destruct (embedBatch embed (ch_content <$> cs) None); try done.
  intros [= <-]. by rewrite chunk_keys_imap, length_imap.
Qed.

(** The body of the loop always completes. *)
Lemma ingestFile_returns embedOpt now embed file rs :
  is_Some (ingestFile basename accepts_session accepts_chunks
                      embedOpt now embed file rs).
Proof.
  unfold ingestFile.
  destruct (parseSessionFile basename file.1 file.2) as [session|]; [|done].
  destruct (length (messages session) =? 0); [done|].
  destruct (upsertSession _ _ _ _) as [[id st1]|]; [|done].
  pose proof (embedChunks_settles embedOpt embed (chunkOf id <$> messages session)).
  destruct (embedChunks _ _ _); try done.
  by destruct (insertChunks _ _ _).
Qed.

(** The two ways the body of the loop ends: the file is processed,
    with its session and its chunks written, or it is skipped, with at
    most its session written. *)
Lemma ingestFile_inv embedOpt now embed file rs rs' :
  ingestFile basename accepts_session accepts_chunks
             embedOpt now embed file rs = Some rs' ->
  (processed rs' = S (processed rs)
   /\ skipped rs' = skipped rs
   /\ exists session id st1 cs,
        parseSessionFile basename file.1 file.2 = Some session
        /\ upsertSession accepts_session now (sessionOf session) (store rs)
           = Some (id, st1)
        /\ chunk_key <$> cs = (fun m => (id, index m)) <$> messages session
        /\ insertChunks accepts_chunks cs st1 = Some (store rs')
        /\ totalChunks rs' = totalChunks rs + length (messages session))
  \/ (processed rs' = processed rs
      /\ skipped rs' = S (skipped rs)
      /\ totalChunks rs' = totalChunks rs
      /\ (store rs' = store rs
          \/ exists session id,
               parseSessionFile basename file.1 file.2 = Some session
               /\ upsertSession accepts_session now (sessionOf session) (store rs)
                  = Some (id, store rs'))).
Proof.
  unfold ingestFile.
  destruct (parseSessionFile basename file.1 file.2) as [session|];
    [|intros [= <-]; right; simpl; auto].
  destruct (length (messages session) =? 0);
    [intros [= <-]; right; simpl; auto|].
  destruct (upsertSession _ _ _ _) as [[id st1]|] eqn:Hu;
    [|intros [= <-]; right; simpl; auto].
  destruct (embedChunks _ _ _) as [cs| |] eqn:He; [| |done].
  - apply embedChunks_keys in He as [Hk Hl].
    destruct (insertChunks _ _ _) as [st2|] eqn:Hi; intros [= <-]; simpl.
    + left. repeat split. exists session, id, st1, cs.
      rewrite Hk, chunk_keys_chunkOf, Hl, length_fmap. by repeat split.
    + right. repeat split. right. by exists session, id.
  - intros [= <-]. right. simpl. repeat split. right. by exists session, id.
Qed.

Lemma parseSessionFile_sessionId filePath file s :
  parseSessionFile basename filePath file = Some s ->
  sessionId s = basename filePath (lit ".jsonl").
Proof.
  unfold parseSessionFile. repeat case_match; try done. by intros [= <-].
Qed.
End WithWorld.

End IngestFacts.

(* ================================================================== *)
(** * Failed files and repeated ingestion *)
(* ================================================================== *)

Section IngestClaims.
Import JS Parser Embedder Db Cli.

Variable basename : jsstring -> jsstring -> jsstring.
Variable accepts_session : Session -> bool.
Variable accepts_chunks : list Chunk -> bool.

Local Abbreviation ingestFile := (ingestFile basename accepts_session accepts_chunks).
Local Abbreviation upsertSession := (upsertSession accepts_session).

(** When the embedding batch is rejected, the file is skipped with the
    store as the session upsert left it. *)
Lemma ingestFile_embedding_rejected now embed file rs session id st1 :
  parseSessionFile basename file.1 file.2 = Some session ->
  upsertSession now (sessionOf session) (store rs) = Some (id, st1) ->
  embedBatch embed (ch_content <$> (chunkOf id <$> messages session)) None
  = Rejected ->
  ingestFile true now embed file rs = Some (skip st1 rs).
Proof.
  intros Hp Hu He. unfold Cli.ingestFile. rewrite Hp.
  destruct (parseSessionFile_messages _ _ _ _ Hp) as (_ & _ & _ & Hn).
  destruct (Nat.eqb_spec (length (messages session)) 0); [lia|].
  rewrite Hu. unfold embedChunks. by rewrite He.
Qed.

(** C1, amended. When the processing of a parsed file fails (the file is
    not counted as processed), the file is counted as skipped and the
    chunks table is as it was. The sessions table is not: the session
    record is upserted before the embeddings are requested, and when that
    statement succeeds the store is left exactly as the upsert made it,
    with the row of the session holding the message count of this parse
    and the time of this attempt. Only when the session upsert itself is
    what failed is the store unchanged. *)
Theorem failed_file_writes_no_chunk embedOpt now embed file rs rs' session :
  parseSessionFile basename file.1 file.2 = Some session ->
  ingestFile embedOpt now embed file rs = Some rs' ->
  processed rs' = processed rs ->
  skipped rs' = S (skipped rs)
  /\ totalChunks rs' = totalChunks rs
  /\ chunks (store rs') = chunks (store rs)
  /\ match upsertSession now (sessionOf session) (store rs) with
     | Some (id, st1) =>
         store rs' = st1
         /\ exists row,
              sessions (store rs') !! sessionId session = Some row
              /\ s_id row = id
              /\ s_message_count row = length (messages session)
              /\ s_ingested_at row = now
     | None => store rs' = store rs
     end.
Proof.
  intros Hp Hi Hproc.
  assert (Hlen : (length (messages session) =? 0) = false).
  { destruct (parseSessionFile_messages basename _ _ _ Hp) as (_ & _ & _ & H).
    apply Nat.eqb_neq. lia. }
  revert Hi. unfold Cli.ingestFile. rewrite Hp, Hlen.
  destruct (Db.upsertSession accepts_session now (sessionOf session) (store rs))
    as [[id st1]|] eqn:Hu; [|by intros [= <-]].
  assert (Hrow : exists row,
             sessions st1 !! sessionId session = Some row
             /\ s_id row = id
             /\ s_message_count row = length (messages session)
             /\ s_ingested_at row = now).
  { revert Hu. unfold Db.upsertSession.
    destruct (accepts_session (sessionOf session)); [|done]. simpl.
    destruct (sessions (store rs) !! sessionId session) as [old|];
      intros [= <- <-]; simpl; eexists;
      (split; [apply lookup_insert_eq|]); done. }
  destruct (upsertSession_spec _ _ _ _ _ _ Hu) as (_ & Hc & _).
  destruct (embedChunks _ _ _) as [cs'| |]; [| |done].
  - destruct (Db.insertChunks _ _ _) as [st2|]; intros [= <-];
      simpl in *; [lia|done].
  - by intros [= <-].
Qed.

(** C9. Once a file has been ingested, ingesting the same file again
    leaves the number of session rows and the number of chunk rows as they
    were: the row of its identifier is updated in place (it keeps its
    primary key) and every chunk meets its (session, index) key. *)
Theorem reingest_same_file
        embedOpt1 embedOpt2 now1 now2 embed1 embed2 file rs rs1 rs2 :
  ingestFile embedOpt1 now1 embed1 file rs = Some rs1 ->
  processed rs1 = S (processed rs) ->
  ingestFile embedOpt2 now2 embed2 file rs1 = Some rs2 ->
  size (sessions (store rs2)) = size (sessions (store rs1))
  /\ size (chunks (store rs2)) = size (chunks (store rs1))
  /\ exists row1 row2,
       sessions (store rs1) !! basename file.1 (lit ".jsonl") = Some row1
       /\ sessions (store rs2) !! basename file.1 (lit ".jsonl") = Some row2
       /\ s_id row2 = s_id row1.
Proof.
  intros H1 Hproc H2.
  apply ingestFile_inv in H1
    as [(_ & _ & session & id & st1 & cs & Hp & Hu & Hk & Hi & _)|(? & _)];
    [|lia].
  pose proof (parseSessionFile_sessionId _ _ _ _ Hp) as Hsid.
  destruct (upsertSession_spec _ _ _ _ _ _ Hu) as (_ & Hc1 & (row & Hrow & Hid) & _).
  destruct (insertChunks_spec _ _ _ _ Hi) as [Hs1 Hd1].
  assert (Hlook : sessions (store rs1) !! sessionId session = Some row).
  { rewrite Hs1, Hrow. apply lookup_insert_eq. }
  assert (Hup : forall id' st',
    upsertSession now2 (sessionOf session) (store rs1) = Some (id', st') ->
    id' = id /\ chunks st' = chunks (store rs1)
    /\ size (sessions st') = size (sessions (store rs1))
    /\ exists row', sessions st' !! sessionId session = Some row'
                    /\ s_id row' = s_id row).
  { intros id' st' Hu'.
    destruct (upsertSession_spec _ _ _ _ _ _ Hu')
      as (_ & Hc' & (row' & Hrow' & Hid') & Hold).
    simpl in Hold. rewrite Hlook in Hold. destruct Hold as [-> _].
    split; [done|]. split; [done|]. split.
    - rewrite Hrow'. by apply size_insert_present.
    - exists row'. split; [|done]. rewrite Hrow'. apply lookup_insert_eq. }
  rewrite <- Hsid.
  apply ingestFile_inv in H2
    as [(_ & _ & session' & id' & st1' & cs' & Hp' & Hu' & Hk' & Hi' & _)
       |(_ & _ & _ & [Hsame|(session' & id' & Hp' & Hu')])].
  - rewrite Hp in Hp'. injection Hp' as <-.
    destruct (Hup _ _ Hu') as (-> & Hc' & Hsz & row' & Hrow' & Hid').
    destruct (insertChunks_spec _ _ _ _ Hi') as [Hs2 Hd2].
    split; [by rewrite Hs2|]. split.
    + rewrite <- !size_dom. f_equal.
      rewrite Hd2, Hc', Hk', Hd1, Hk. set_solver.
    + exists row, row'. by rewrite Hs2.
  - rewrite Hsame. repeat split. by exists row, row.
  - rewrite Hp in Hp'. injection Hp' as <-.
    destruct (Hup _ _ Hu') as (-> & Hc' & Hsz & row' & Hrow' & Hid').
    split; [done|]. split; [by rewrite Hc'|]. by exists row, row'.
Qed.

End IngestClaims.

Section IngestWitnesses.
Import JS Parser Embedder Db Cli Samples.

(** C1, as stated, fails: with the embedding service down the file is
    skipped and no chunk is written, but the store, empty before, holds
    the session record of the file. *)
Lemma failed_embedding_leaves_session :
  exists rs',
    ingestFile sample_basename accept_all accept_all true 0 service_down
               readme_file (start empty_store) = Some rs'
    /\ skipped rs' = 1 /\ processed rs' = 0
    /\ sessions empty_store !! sample_path = None
    /\ s_message_count <$> sessions (store rs') !! sample_path = Some 3
    /\ chunks (store rs') = ∅.
Proof. eexists. repeat split; by vm_compute. Qed.

(** The amended C1 at the README transcript with the service down: the
    file is skipped, no chunk is written, and the row of its session is in
    the store with its three messages. *)
Lemma failed_file_writes_no_chunk_witness :
  exists rs' session row,
    parseSessionFile sample_basename readme_file.1 readme_file.2 = Some session
    /\ ingestFile sample_basename accept_all accept_all true 0 service_down
                  readme_file (start empty_store) = Some rs'
    /\ skipped rs' = 1
    /\ chunks (store rs') = chunks empty_store
    /\ sessions (store rs') !! sessionId session = Some row
    /\ s_message_count row = length (messages session).
Proof.
  destruct (parseSessionFile sample_basename readme_file.1 readme_file.2)
    as [session|] eqn:Hp; [|by vm_compute in Hp].
  destruct (ingestFile sample_basename accept_all accept_all true 0 service_down
                       readme_file (start empty_store))
    as [rs'|] eqn:Hi; [|by vm_compute in Hi].
  assert (Hproc : processed rs' = processed (start empty_store)).
  { vm_compute in Hi. injection Hi as <-. reflexivity. }
  destruct (failed_file_writes_no_chunk _ _ _ _ _ _ _ _ _ _ Hp Hi Hproc)
    as (Hs & _ & Hc & Hm).
  destruct (upsertSession accept_all 0 (sessionOf session)
                          (store (start empty_store)))
    as [[id st1]|] eqn:Hu.
  - destruct Hm as (_ & row & Hrow & _ & Hcount & _).
    by exists rs', session, row.
  - unfold upsertSession in Hu. simpl in Hu. rewrite lookup_empty in Hu.
    discriminate Hu.
Defined.

(** C9 at the README transcript, ingested twice with the service up. *)
Lemma reingest_same_file_witness :
  exists rs1 rs2,
    ingestFile sample_basename accept_all accept_all true 0 service_up
               readme_file (start empty_store) = Some rs1
    /\ ingestFile sample_basename accept_all accept_all true 1 service_up
                  readme_file rs1 = Some rs2
    /\ size (sessions (store rs2)) = size (sessions (store rs1))
    /\ size (chunks (store rs2)) = size (chunks (store rs1)).
Proof.
  destruct (ingestFile sample_basename accept_all accept_all true 0 service_up
                       readme_file (start empty_store))
    as [rs1|] eqn:H1; [|by vm_compute in H1].
  destruct (ingestFile sample_basename accept_all accept_all true 1 service_up
                       readme_file rs1)
    as [rs2|] eqn:H2;
    [|by destruct (ingestFile_returns sample_basename accept_all accept_all
                     true 1 service_up readme_file rs1) as [? H];
         rewrite H in H2].
  exists rs1, rs2. split; [done|]. split; [done|].
  assert (Hproc : processed rs1 = S (processed (start empty_store))).
  { vm_compute in H1. injection H1 as <-. reflexivity. }
  destruct (reingest_same_file _ _ _ _ _ _ _ _ _ _ _ _ _ H1 Hproc H2)
    as (Hs & Hc & _).
  by split.
Defined.

End IngestWitnesses.

(* ================================================================== *)
(** * Facts about the queries *)
(* ================================================================== *)

Section QueryFacts.
Import JS Parser Embedder Db.

#[local] Instance key_le_total {A} (key : A -> Qc) : Total (key_le key).
Proof. intros a b. unfold key_le. apply (total Qcle). Qed.

#[local] Instance key_le_trans {A} (key : A -> Qc) : Transitive (key_le key).
Proof. intros a b c. unfold key_le. apply Qcle_trans. Qed.

Lemma Qcopp_le_cancel (p q : Qc) : (- p ≤ - q)%Qc -> (q ≤ p)%Qc.
Proof.
  intros H. apply Qcopp_le_compat in H. by rewrite !Qcopp_involutive in H.
Qed.

Lemma StronglySorted_weaken {A} (R R' : relation A) l :
  (forall a b, R a b -> R' a b) -> StronglySorted R l -> StronglySorted R' l.
Proof.
  intros HR. induction 1 as [|x l _ IH Hx]; constructor; [done|].
  rewrite Forall_forall in *. auto.
Qed.

(** ORDER BY followed by LIMIT: at most [limit] rows of the input, each
    taken once, in ascending order of the key, and no row left out has a
    smaller key than a row that is returned. *)
Lemma order_limit_spec {A} (key : A -> Qc) (limit : Z) (rows result : list A) :
  sql_limit limit (order_by key rows) = Some result ->
  (0 <= limit)%Z
  /\ length result = Z.to_nat limit `min` length rows
  /\ StronglySorted (key_le key) result
  /\ result ⊆+ rows
  /\ (forall x y, x ∈ rows -> x ∉ result -> y ∈ result -> key_le key y x).
Proof.
  unfold sql_limit, order_by. destruct (Z.ltb_spec limit 0); [done|].
  intros [= <-]. set (n := Z.to_nat limit).
  pose proof (merge_sort_Permutation (key_le key) rows) as Hperm.
  pose proof (StronglySorted_merge_sort (key_le key) rows) as Hsorted.
  set (sorted := merge_sort (key_le key) rows) in *.
  split; [done|]. split; [|split; [|split]].
  - rewrite length_take. by rewrite Hperm.
  - rewrite <- (take_drop n sorted) in Hsorted.
    by apply StronglySorted_app_1_l in Hsorted.
  - rewrite <- Hperm. apply sublist_submseteq, sublist_take.
  - intros x y Hx Hnot Hy. rewrite <- Hperm in Hx.
    rewrite <- (take_drop n sorted) in Hx, Hsorted.
    apply elem_of_app in Hx as [Hx|Hx]; [done|].
    by apply (StronglySorted_app_1_elem_of _ _ _ _ _ Hsorted).
Qed.

(** The rows the queries range over are the stored chunks with an
    embedding, each with the session it belongs to. *)
Lemma elem_of_embedded_rows st r :
  r ∈ embedded_rows st <->
  (exists k, chunks st !! k = Some (j_chunk r))
  /\ c_embedding (j_chunk r) = Some (j_embedding r)
  /\ session_by_id st (c_session_id (j_chunk r)) = Some (j_session r).
Proof.
  unfold embedded_rows. rewrite list_elem_of_omap. split.
  - intros (c & Hc & Hr).
    apply list_elem_of_fmap in Hc as ([k c'] & -> & Hk).
    apply elem_of_map_to_list in Hk. simpl in Hr.
    destruct (c_embedding c') as [e|] eqn:He; [|done]. simpl in Hr.
    destruct (session_by_id st (c_session_id c')) as [s|] eqn:Hs; [|done].
    injection Hr as <-. unfold j_chunk, j_session, j_embedding. simpl. eauto.
  - intros ([k Hk] & He & Hs). exists (j_chunk r). split.
    + apply list_elem_of_fmap. exists (k, j_chunk r). split; [done|].
      by apply elem_of_map_to_list.
    + rewrite He. simpl. rewrite Hs. simpl. by destruct r as [[c s] e].
Qed.



Lemma filter_equiv {A} (P Q : A -> Prop)
      `{forall x, Decision (P x)} `{forall x, Decision (Q x)} (l : list A) :
  (forall x, P x <-> Q x) -> filter P l = filter Q l.
Proof.
  intros HPQ. induction l as [|x l IH]; [done|].
  rewrite !filter_cons, IH.
  destruct (decide (P x)) as [HP|HP], (decide (Q x)) as [HQ|HQ];
    naive_solver.
Qed.

Lemma filter_conj {A} (P Q : A -> Prop)
      `{forall x, Decision (P x)} `{forall x, Decision (Q x)} (l : list A) :
  filter Q (filter P l) = filter (fun x => P x /\ Q x) l.
Proof.
  induction l as [|x l IH]; [done|]. rewrite !filter_cons.
  destruct (decide (P x)) as [HP|HP].
  - rewrite filter_cons, IH.
    destruct (decide (Q x)), (decide (P x /\ Q x)); naive_solver.
  - rewrite IH. destruct (decide (P x /\ Q x)); naive_solver.
Qed.

Section WithOperators.
Variable cosine_distance : vector -> vector -> Qc.
Variable visits : vector -> joined -> bool.

Local Abbreviation distance := (distance cosine_distance).

(** The rows the first query orders and limits are the rows of the join
    that are eligible. *)
Lemma semanticRows_eligible embedding roleFilter st :
  semanticRows visits embedding roleFilter st
  = filter (eligible visits embedding roleFilter) (embedded_rows st).
Proof.
  unfold semanticRows. destruct roleFilter as [f|].
  - destruct (truthy f) eqn:Hf.
    + rewrite filter_conj. apply filter_equiv. intros x.
      unfold eligible, passes_role. by rewrite Hf.
    + apply filter_equiv. intros x. unfold eligible, passes_role.
      rewrite Hf. naive_solver.
  - apply filter_equiv. intros x. unfold eligible, passes_role. naive_solver.
Qed.

(** The rows [semanticSearch] selects: the [limit] nearest of the
    eligible rows, or all of them when they are fewer, each once, in
    ascending order of the distance. *)
Lemma semanticSelect_spec embedding limit roleFilter st rows :
  semanticSelect cosine_distance visits embedding limit roleFilter st
  = Some rows ->
  length rows
  = Z.to_nat limit
    `min` length (filter (eligible visits embedding roleFilter)
                         (embedded_rows st))
  /\ StronglySorted (key_le (distance embedding)) rows
  /\ rows ⊆+ embedded_rows st
  /\ (forall r, r ∈ rows ->
        r ∈ embedded_rows st /\ eligible visits embedding roleFilter r)
  /\ (forall x y, x ∈ embedded_rows st ->
        eligible visits embedding roleFilter x ->
        x ∉ rows -> y ∈ rows -> key_le (distance embedding) y x).
Proof.
  unfold semanticSelect. rewrite semanticRows_eligible.
  intros (Hl & Hlen & Hsorted & Hsub & Htop)%order_limit_spec.
  split; [done|]. split; [done|]. split; [|split].
  - etrans; [exact Hsub|]. apply sublist_submseteq, sublist_filter.
  - intros r Hr. apply (elem_of_submseteq _ _ _ Hr) in Hsub.
    by apply list_elem_of_filter in Hsub as [? ?].
  - intros x y Hx Hel Hnot Hy. apply Htop; [|done..].
    by apply list_elem_of_filter.
Qed.


(** Under a sequential scan every row that passes the condition on the
    role is eligible. *)
Lemma eligible_scan embedding roleFilter r :
  (forall x, visits embedding x = true) ->
  eligible visits embedding roleFilter r <-> passes_role roleFilter r.
Proof. intros Hall. unfold eligible. naive_solver. Qed.

Variable ts_match : jsstring -> jsstring -> bool.
Variable ts_rank : jsstring -> jsstring -> option Qc.

Local Abbreviation hybrid_score := (hybrid_score cosine_distance ts_rank).

(** The rows [hybridSearch] selects. *)
Lemma hybridSelect_spec embedding keyword limit st rows :
  hybridSelect cosine_distance ts_match ts_rank embedding keyword limit st
  = Some rows ->
  length rows = Z.to_nat limit `min` length (hybridRows ts_match keyword st)
  /\ StronglySorted (fun a b => (hybrid_score embedding keyword b
                                 ≤ hybrid_score embedding keyword a)%Qc) rows
  /\ rows ⊆+ embedded_rows st
  /\ (forall r, r ∈ rows ->
        r ∈ embedded_rows st
        /\ ts_match (c_content (j_chunk r)) keyword = true)
  /\ (forall x y, x ∈ embedded_rows st ->
        ts_match (c_content (j_chunk x)) keyword = true ->
        x ∉ rows -> y ∈ rows ->
        (hybrid_score embedding keyword x
         ≤ hybrid_score embedding keyword y)%Qc).
Proof.
  unfold hybridSelect.
  intros (Hl & Hlen & Hsorted & Hsub & Htop)%order_limit_spec.
  split; [done|]. split; [|split; [|split]].
  - eapply StronglySorted_weaken; [|exact Hsorted].
    intros a b Hab. unfold key_le in Hab. by apply Qcopp_le_cancel in Hab.
  - etrans; [exact Hsub|]. apply sublist_submseteq, sublist_filter.
  - intros r Hr. apply (elem_of_submseteq _ _ _ Hr) in Hsub.
    by apply list_elem_of_filter in Hsub as [? ?].
  - intros x y Hx Hm Hnot Hy.
    assert (Hin : x ∈ hybridRows ts_match keyword st)
      by by apply list_elem_of_filter.
    pose proof (Htop x y Hin Hnot Hy) as Hle. unfold key_le in Hle.
    by apply Qcopp_le_cancel in Hle.
Qed.


End WithOperators.

End QueryFacts.

(* ================================================================== *)
(** * Facts about the project pattern *)
(* ================================================================== *)

Section PatternFacts.
Import JS Regex Parser PathSpec.

Lemma cu_eqb_eq (a b : cu) : cu_eqb a b = true <-> a = b.
Proof. apply N.eqb_eq. Qed.

Lemma startsWith_spec (p s : jsstring) :
  startsWith p s = true <-> exists b, s = p ++ b.
Proof.
  revert s. induction p as [|x p IH]; intros s; simpl.
  - split; [by exists s|done].
  - destruct s as [|y s]; [split; [done|by intros [? ?]]|].
    rewrite andb_true_iff, cu_eqb_eq, IH. split.
    + intros [-> [b ->]]. by exists b.
    + intros [b [= -> ->]]. eauto.
Qed.

Lemma run_Alt r1 r2 st (k : cont) :
  run (Alt r1 r2) st k
  = match run r1 st k with Some x => Some x | None => run r2 st k end.
Proof. done. Qed.

(** A literal consumes itself or fails. *)
Lemma run_Lit (l : jsstring) pos s cap (k : cont) :
  run (Lit l) (pos, s, cap) k
  = if startsWith l s then k (pos + length l, drop (length l) s, cap) else None.
Proof.
  revert pos s. induction l as [|c l IH]; intros pos s; simpl.
  - by rewrite Nat.add_0_r.
  - destruct s as [|x s]; [done|]. simpl.
    destruct (cu_eqb c x); [|done]. simpl. rewrite IH.
    by replace (S pos + length l) with (pos + S (length l)) by lia.
Qed.

(** A greedy class repetition in front of something that cannot start
    with a code unit of the class takes the whole run of the class. *)
Lemma rep_maximal (p : cu -> bool) mn pos seg rest cap (k : cont) :
  (forall x, x ∈ seg -> p x = true) ->
  match rest with [] => True | x :: _ => p x = false end ->
  (forall pos' x s' cap', p x = true -> k (pos', x :: s', cap') = None) ->
  rep p mn None pos (seg ++ rest) cap k
  = if decide (mn <= length seg) then k (pos + length seg, rest, cap) else None.
Proof.
  intros Hseg Hrest Hk. revert mn pos.
  induction seg as [|c seg IH]; intros mn pos.
  - simpl. rewrite Nat.add_0_r.
    destruct rest as [|x r]; simpl.
    + destruct mn; [by rewrite decide_True by lia|by rewrite decide_False by lia].
    + rewrite Hrest. simpl.
      destruct mn; [by rewrite decide_True by lia|by rewrite decide_False by lia].
  - simpl. rewrite (Hseg c) by set_solver. simpl.
    rewrite IH by set_solver.
    replace (S pos + length seg) with (pos + S (length seg)) by lia.
    destruct mn as [|mn]; simpl.
    + destruct (k (pos + S (length seg), rest, cap)) eqn:Hres; [done|].
      apply Hk. apply Hseg. set_solver.
    + destruct (decide (mn <= length seg)).
      * rewrite decide_True by lia. by destruct (k _).
      * by rewrite decide_False by lia.
Qed.

(** Every string is a run without slash followed by nothing or by a
    slash. *)
Lemma split_at_slash (s : jsstring) :
  exists seg rest,
    s = seg ++ rest
    /\ (forall x, x ∈ seg -> is_not slash x = true)
    /\ match rest with [] => True | x :: _ => is_not slash x = false end.
Proof.
  induction s as [|x s (seg & rest & -> & Hseg & Hrest)].
  - exists [], []. repeat split. set_solver.
  - destruct (is_not slash x) eqn:Hx.
    + exists (x :: seg), rest. repeat split; [|done].
      intros y [->|Hy]%elem_of_cons; auto.
    + exists [], (x :: seg ++ rest). repeat split; [set_solver|done].
Qed.

Lemma is_not_true (c x : cu) : is_not c x = true <-> x <> c.
Proof.
  unfold is_not. rewrite negb_true_iff, <- not_true_iff_false, cu_eqb_eq.
  naive_solver.
Qed.

Lemma is_not_false (c x : cu) : is_not c x = false <-> x = c.
Proof. unfold is_not. rewrite negb_false_iff, cu_eqb_eq. naive_solver. Qed.

(** Whether one of the four keywords starts [s]. *)
Lemma run_keywords pos s cap :
  (exists e s', run keywords_re (pos, s, cap) Some = Some (e, s', cap)
                /\ exists kw b, kw ∈ keywords /\ s = kw ++ b)
  \/ (run keywords_re (pos, s, cap) Some = None
      /\ forall kw b, kw ∈ keywords -> s <> kw ++ b).
Proof.
  unfold keywords_re. rewrite !run_Alt, !run_Lit.
  destruct (startsWith (lit "src") s) eqn:H1;
    [left; apply startsWith_spec in H1 as [b ->]; do 2 eexists;
     split; [done|]; exists (lit "src"), b; split; [set_solver|done]|].
  destruct (startsWith (lit "app") s) eqn:H2;
    [left; apply startsWith_spec in H2 as [b ->]; do 2 eexists;
     split; [done|]; exists (lit "app"), b; split; [set_solver|done]|].
  destruct (startsWith (lit "lib") s) eqn:H3;
    [left; apply startsWith_spec in H3 as [b ->]; do 2 eexists;
     split; [done|]; exists (lit "lib"), b; split; [set_solver|done]|].
  destruct (startsWith (lit "node_modules") s) eqn:H4;
    [left; apply startsWith_spec in H4 as [b ->]; do 2 eexists;
     split; [done|]; exists (lit "node_modules"), b; split; [set_solver|done]|].
  right. split; [done|]. intros kw b Hkw ->.
  assert (Hs : startsWith kw (kw ++ b) = true)
    by (apply startsWith_spec; eauto).
  unfold keywords in Hkw.
  repeat (apply elem_of_cons in Hkw as [->|Hkw]; [congruence|]).
  by apply elem_of_nil in Hkw.
Qed.

Lemma split_unique (seg seg' r r' : jsstring) :
  slash ∉ seg -> slash ∉ seg' ->
  seg ++ slash :: r = seg' ++ slash :: r' -> seg = seg' /\ r = r'.
Proof.
  revert seg'. induction seg as [|x seg IH]; intros [|y seg'] Hs Hs' Heq;
    simplify_eq/=; try set_solver.
  destruct (IH seg') as [-> ->]; set_solver.
Qed.

Lemma run_project_re pos s :
  run project_re (pos, s, None) Some
  = match s with
    | x :: s1 =>
        if cu_eqb slash x
        then rep (is_not slash) 1 None (S pos) s1 None (after_segment pos s1)
        else None
    | [] => None
    end.
Proof. destruct s as [|x s1]; reflexivity. Qed.

Lemma run_Seq_Chr c r pos x s cap (k : cont) :
  run (Seq (Chr c) r) (pos, x :: s, cap) k
  = if cu_eqb c x then run r (S pos, s, cap) k else None.
Proof. done. Qed.

Lemma after_segment_stuck pos s1 pos' x s' cap' :
  is_not slash x = true -> after_segment pos s1 (pos', x :: s', cap') = None.
Proof.
  unfold after_segment, is_not. intros H%negb_true_iff.
  by rewrite run_Seq_Chr, H.
Qed.

Lemma after_segment_slash pos s1 pos' r2 cap' :
  after_segment pos s1 (pos', slash :: r2, cap')
  = run keywords_re (S pos', r2, Some (take (pos' - S pos) s1)) Some.
Proof. done. Qed.

(** [project_re] anchored at the start of [s] matches exactly when a
    segment followed by a keyword starts there, and captures it. *)
Lemma match_at_project pos s :
  match match_at project_re pos s with
  | Some (e, c) => exists seg, c = Some seg /\ segment_at s seg
  | None => forall seg, ~ segment_at s seg
  end.
Proof.
  unfold match_at. rewrite run_project_re.
  destruct s as [|x s1]; [by intros seg (kw & b & ? & _)|].
  destruct (cu_eqb slash x) eqn:Hx;
    [apply cu_eqb_eq in Hx as <-
    |intros seg (kw & b & [= -> _] & _); done].
  destruct (split_at_slash s1) as (seg & rest & -> & Hseg & Hrest).
  assert (Hno : slash ∉ seg).
  { intros Hin. apply Hseg, is_not_true in Hin. done. }
  rewrite (rep_maximal (is_not slash) 1 (S pos) seg rest None
             (after_segment pos (seg ++ rest)) Hseg Hrest)
    by (intros; by apply after_segment_stuck).
  destruct (decide (1 <= length seg)) as [Hlen|Hlen].
  - destruct rest as [|y r2].
    + simpl. intros seg' (kw & b & [= Heq] & _ & _ & _).
      rewrite (right_id_L [] (++)) in Heq. apply Hno. rewrite Heq. set_solver.
    + apply is_not_false in Hrest as ->. rewrite after_segment_slash.
      replace (S pos + length seg - S pos) with (length seg) by lia.
      rewrite take_app_length.
      generalize (run_keywords (S (S pos + length seg)) r2 (Some seg)).
      unfold mstate, jsstring.
      match goal with
      | |- context [run keywords_re ?st ?k] =>
          destruct (run keywords_re st k) as [[[e s'] c]|]
      end.
      * intros [(e0 & s0 & Heq & kw & b & Hkw & ->)|[Heq _]]; [|done].
        injection Heq as -> -> ->.
        exists seg. split; [done|]. exists kw, b. repeat split; [|done..].
        intros ->. simpl in Hlen. lia.
      * intros [(e0 & s0 & Heq & _)|[_ Hnone]]; [done|].
        intros seg' (kw & b & [= Heq] & _ & Hno' & Hkw).
        apply split_unique in Heq as [_ ->]; [|done..].
        by apply (Hnone kw b).
  - intros seg' (kw & b & [= Heq] & Hne & Hno' & _).
    destruct seg as [|? ?]; [|simpl in Hlen; lia]. simpl in Heq. subst rest.
    destruct seg' as [|y seg']; [done|]. simpl in Hrest.
    apply is_not_false in Hrest as ->. set_solver.
Qed.

Lemma exec_from_eq r pos s :
  exec_from r pos s
  = match match_at r pos s with
    | Some (_, cap) => Some cap
    | None => match s with
              | [] => None
              | _ :: s' => exec_from r (S pos) s'
              end
    end.
Proof. by destruct s. Qed.

Lemma segment_at_nil seg : ~ segment_at [] seg.
Proof. by intros (kw & b & ? & _). Qed.

(** The search for [project_re] finds the first place where a segment
    followed by a keyword starts. *)
Lemma exec_from_project pos s :
  match exec_from project_re pos s with
  | Some c => exists seg, c = Some seg /\ parent_segment s seg
  | None => no_segment s
  end.
Proof.
  revert pos. induction s as [|x s IH]; intros pos; rewrite exec_from_eq;
    pose proof (match_at_project pos) as Hm.
  - specialize (Hm []). destruct (match_at project_re pos []) as [[e c]|].
    + destruct Hm as (seg & _ & Hs). by apply segment_at_nil in Hs.
    + intros j seg. rewrite drop_nil. apply segment_at_nil.
  - specialize (Hm (x :: s)).
    destruct (match_at project_re pos (x :: s)) as [[e c]|].
    + destruct Hm as (seg & -> & Hs). exists seg. split; [done|].
      exists 0. split; [done|]. intros; lia.
    + specialize (IH (S pos)).
      destruct (exec_from project_re (S pos) s) as [c|].
      * destruct IH as (seg & -> & i & Hi & Hleft). exists seg. split; [done|].
        exists (S i). split; [done|]. intros [|j] seg' Hj; [apply Hm|].
        simpl. apply Hleft. lia.
      * intros [|j] seg; [apply Hm|apply IH].
Qed.

Lemma parent_segment_unique path seg seg' :
  parent_segment path seg -> parent_segment path seg' -> seg = seg'.
Proof.
  intros (i & Hi & Hleft) (i' & Hi' & Hleft').
  assert (i = i') as <-.
  { destruct (Nat.lt_trichotomy i i') as [H|[H|H]]; [|done|].
    - by destruct (Hleft' _ _ H Hi).
    - by destruct (Hleft _ _ H Hi'). }
  destruct Hi as (kw & b & Heq & _ & Hno & _).
  destruct Hi' as (kw' & b' & Heq' & _ & Hno' & _).
  rewrite Heq in Heq'. injection Heq' as Heq'.
  by apply split_unique in Heq' as [-> _].
Qed.

Lemma match1_project_Some path seg :
  match1 project_re path = Some (Some seg) <-> parent_segment path seg.
Proof.
  unfold match1. pose proof (exec_from_project 0 path) as H.
  destruct (exec_from project_re 0 path) as [c|]; split.
  - intros [= ->]. destruct H as (seg' & [= <-] & ?). done.
  - intros Hp. destruct H as (seg' & -> & Hp').
    by rewrite (parent_segment_unique _ _ _ Hp Hp').
  - done.
  - intros (i & Hi & _). by destruct (H i seg).
Qed.

Lemma match1_project_None path :
  match1 project_re path = None <-> no_segment path.
Proof.
  unfold match1. pose proof (exec_from_project 0 path) as H.
  destruct (exec_from project_re 0 path) as [c|]; split; try done.
  intros Hno. destruct H as (seg & _ & i & Hi & _). by destruct (Hno i seg).
Qed.

Lemma match1_project_capture path c :
  match1 project_re path = Some c -> is_Some c.
Proof.
  unfold match1. pose proof (exec_from_project 0 path) as H.
  intros Heq. rewrite Heq in H. destruct H as (seg & -> & _). by eexists.
Qed.

End PatternFacts.

(* ================================================================== *)
(** * Project-name inference *)
(* ================================================================== *)

Section ProjectNameFacts.
Import JS Regex Parser PathSpec Samples.

Lemma first_reference_fails_iff m :
  first_reference_fails m <->
  match filesMentioned m with
  | [] => True
  | firstPath :: _ => match1 project_re firstPath = None
  end.
Proof.
  unfold first_reference_fails. destruct (filesMentioned m); [done|].
  symmetry. apply match1_project_None.
Qed.

(** The loop steps over a message whose first reference fails. *)
Lemma inferProjectName_skip m msgs :
  first_reference_fails m ->
  inferProjectName (m :: msgs) = inferProjectName msgs.
Proof.
  intros H%first_reference_fails_iff. simpl.
  destruct (filesMentioned m); [done|]. by rewrite H.
Qed.

(** The loop stops at a message whose first reference has a segment. *)
Lemma inferProjectName_hit m msgs firstPath others name :
  filesMentioned m = firstPath :: others ->
  parent_segment firstPath name ->
  inferProjectName (m :: msgs) = Some name.
Proof.
  intros Hf H%match1_project_Some. simpl. by rewrite Hf, H.
Qed.

Lemma first_reference_dec m :
  first_reference_fails m
  \/ exists firstPath others name,
       filesMentioned m = firstPath :: others
       /\ parent_segment firstPath name.
Proof.
  destruct (filesMentioned m) as [|p ps] eqn:Hf.
  - left. apply first_reference_fails_iff. by rewrite Hf.
  - destruct (match1 project_re p) as [c|] eqn:Hm.
    + destruct (match1_project_capture _ _ Hm) as [name ->].
      right. exists p, ps, name. split; [done|].
      by apply match1_project_Some.
    + left. apply first_reference_fails_iff. by rewrite Hf.
Qed.

Lemma first_reference_exclusive m firstPath others name :
  first_reference_fails m ->
  filesMentioned m = firstPath :: others ->
  parent_segment firstPath name -> False.
Proof.
  unfold first_reference_fails. intros Hfail Hf (i & Hi & _).
  rewrite Hf in Hfail. by destruct (Hfail i name).
Qed.

(** C5, as stated, fails: the first chunk that mentions a file mentions
    one outside any project directory, and the project is still named,
    after the file of the second chunk. *)
Lemma later_chunk_names_project :
  (fun s => (filesMentioned <$> messages s, projectName s))
    <$> parseSessionFile sample_basename sample_path (Some two_paths_transcript)
  = Some ([[lit "/tmp/notes.txt"]; [lit "/home/alice/myapp/src/index.ts"]],
          Some (lit "myapp"))
  /\ match1 project_re (lit "/tmp/notes.txt") = None.
Proof. split; by vm_compute. Qed.

(** C5, amended. The inference goes through the chunks in emission
    order and tests the first reference of every chunk that has one; the
    first chunk whose first reference contains a path segment immediately
    followed by /src, /app, /lib or /node_modules names the project, by the
    segment of the leftmost such place; the project name is absent exactly
    when no chunk has such a first reference. *)
Theorem inferProjectName_first_hit msgs :
  (forall name,
     inferProjectName msgs = Some name <->
     exists pre msg post firstPath others,
       msgs = pre ++ msg :: post
       /\ Forall first_reference_fails pre
       /\ filesMentioned msg = firstPath :: others
       /\ parent_segment firstPath name)
  /\ (inferProjectName msgs = None <-> Forall first_reference_fails msgs).
Proof.
  induction msgs as [|m msgs [IHs IHn]].
  - split; [|by split].
    intros name. split; [done|]. intros (pre & ? & ? & ? & ? & Heq & _).
    by destruct pre.
  - destruct (first_reference_dec m) as [Hfail|(p & ps & seg & Hf & Hseg)].
    + rewrite (inferProjectName_skip _ _ Hfail). split.
      * intros name. rewrite IHs. split.
        -- intros (pre & msg & post & q & qs & -> & Hpre & Hq & Hname).
           exists (m :: pre), msg, post, q, qs. by repeat split; [constructor|..].
        -- intros (pre & msg & post & q & qs & Heq & Hpre & Hq & Hname).
           destruct pre as [|m' pre]; simplify_eq/=.
           ++ by destruct (first_reference_exclusive _ _ _ _ Hfail Hq Hname).
           ++ apply Forall_cons_1 in Hpre as [_ Hpre].
              by exists pre, msg, post, q, qs.
      * rewrite IHn. split; [by constructor|]. by intros [_ ?]%Forall_cons_1.
    + rewrite (inferProjectName_hit _ _ _ _ _ Hf Hseg). split.
      * intros name. split.
        -- intros [= <-]. exists [], m, msgs, p, ps. by repeat split.
        -- intros (pre & msg & post & q & qs & Heq & Hpre & Hq & Hname).
           destruct pre as [|m' pre]; simplify_eq/=.
           ++ f_equal. apply (parent_segment_unique p); [done|].
              by rewrite Hf in Hq; simplify_eq.
           ++ apply Forall_cons_1 in Hpre as [Hfail _].
              by destruct (first_reference_exclusive _ _ _ _ Hfail Hf Hseg).
      * split; [done|]. intros [Hfail _]%Forall_cons_1.
        by destruct (first_reference_exclusive _ _ _ _ Hfail Hf Hseg).
Qed.

(** The two scenarios of the specification. *)
Example project_of_myapp :
  match1 project_re (lit "/home/alice/myapp/src/index.ts")
  = Some (Some (lit "myapp")).
Proof. by vm_compute. Qed.

Example project_of_no_segment :
  match1 project_re (lit "/home/alice/notes/index.ts") = None.
Proof. by vm_compute. Qed.

End ProjectNameFacts.

(* ================================================================== *)
(** * The theorems at the sample inputs *)
(* ================================================================== *)

Section Witnesses.
Import JS Parser Embedder Db Cli Samples.

(** C2 at the README transcript: three chunks, numbered 0, 1, 2. *)
Lemma parse_indices_dense_witness :
  exists s,
    parseSessionFile sample_basename sample_path (Some readme_transcript) = Some s
    /\ index <$> messages s = seq 0 (length (messages s))
    /\ length (messages s) = 3.
Proof.
  destruct (parseSessionFile sample_basename sample_path (Some readme_transcript))
    as [s|] eqn:H; [|by vm_compute in H].
  exists s. split; [done|].
  split; [exact (proj1 (parse_indices_dense _ _ _ _ H))|].
  vm_compute in H. by injection H as <-.
Defined.

(** C10 at the README transcript: the chunk of the tool result carries
    the name of its tool and nothing else. *)
Lemma tools_at_most_one_witness :
  exists s m,
    parseSessionFile sample_basename sample_path (Some readme_transcript) = Some s
    /\ messages s !! 1 = Some m
    /\ length (toolsUsed m) <= 1.
Proof.
  destruct (parseSessionFile sample_basename sample_path (Some readme_transcript))
    as [s|] eqn:H; [|by vm_compute in H].
  destruct (messages s !! 1) as [m|] eqn:Hm;
    [|by vm_compute in H; injection H as <-].
  exists s, m. split; [done|]. split; [done|].
  apply (tools_at_most_one sample_basename sample_path readme_transcript s m H).
  by apply list_elem_of_lookup_2 in Hm.
Defined.



(** The scenarios of the specification for the chunk builder. *)
Example short_turn_rejected :
  parseSessionFile sample_basename sample_path
                   (Some [Some (UserMessage None (lit "short"))])
  = None.
Proof. by vm_compute. Qed.

Example single_turn_accepted :
  (fun s => (fun m => (index m, role m, filesMentioned m, tokenCount m))
              <$> messages s)
    <$> parseSessionFile sample_basename sample_path
          (Some [Some (UserMessage None (lit "Please read config.ts for me"))])
  = Some [(0, user, [], 7)].
Proof. by vm_compute. Qed.

(** References are kept once each, in the order of their first match. *)
Example references_deduplicated :
  extractFilePaths
    (lit "see /srv/app/main.ts then ./lib/util and again /srv/app/main.ts")
  = [lit "/srv/app/main.ts"; lit "./lib/util"].
Proof. by vm_compute. Qed.

(** What the two queries return at the sample store. *)
Example semanticSearch_sample :
  option_map (map (fun r => (r_chunk_index r, this (r_similarity r))))
             (semanticSearch sample_distance scan_all [Q2Qc 20] 2 None
                             sample_store)
  = Some [(0, 1%Q); (2, 0%Q)].
Proof. by vm_compute. Qed.

(** With an index that probes one list, a search for ten rows returns
    the two rows of that list; the third row of the store is passed
    over. *)
Example semanticSearch_probed :
  option_map (map r_chunk_index)
             (semanticSearch sample_distance probe_even [Q2Qc 20] 10 None
                             sample_store)
  = Some [0; 2]
  /\ option_map (map r_chunk_index)
                (semanticSearch sample_distance scan_all [Q2Qc 20] 10 None
                                sample_store)
     = Some [0; 2; 1].
Proof. by vm_compute. Qed.

Example hybridSearch_sample :
  option_map (map (fun r => (r_chunk_index r, this (r_similarity r))))
             (hybridSearch sample_distance sample_match sample_rank
                           [Q2Qc 20] (lit "file") 5 sample_store)
  = Some [(0, (17 # 20)%Q); (2, (3 # 20)%Q)].
Proof. by vm_compute. Qed.

End Witnesses.

(* ================================================================== *)
(** * Facts about the reference extractor *)
(* ================================================================== *)

Section ReferenceFacts.
Import JS Regex Parser.

Lemma str_eqb_eq (a b : jsstring) : str_eqb a b = true <-> a = b.
Proof.
  revert b. induction a as [|x a IH]; intros [|y b]; simpl; try done.
  rewrite andb_true_iff, IH. unfold cu_eqb. rewrite N.eqb_eq. naive_solver.
Qed.

Lemma existsb_str_eqb (f : jsstring) (fs : list jsstring) :
  existsb (str_eqb f) fs = true <-> f ∈ fs.
Proof.
  rewrite existsb_exists. split.
  - intros (x & Hx & ->%str_eqb_eq). by apply list_elem_of_In.
  - intros Hf. exists f. split; [by apply list_elem_of_In|by apply str_eqb_eq].
Qed.

Lemma set_add_spec (fs : list jsstring) (f : jsstring) :
  NoDup fs ->
  NoDup (set_add fs f) /\ forall x, x ∈ set_add fs f <-> x ∈ fs \/ x = f.
Proof.
  intros Hnd. unfold set_add.
  destruct (existsb (str_eqb f) fs) eqn:He.
  - apply existsb_str_eqb in He. split; [done|]. naive_solver.
  - assert (f ∉ fs) by (rewrite <- existsb_str_eqb; congruence).
    split.
    + apply list.NoDup_app. repeat split; [done| |apply NoDup_singleton].
      intros x Hx ->%list_elem_of_singleton. done.
    + intros x. rewrite elem_of_app, list_elem_of_singleton. done.
Qed.

Lemma add_matches_spec (ms : list (option jsstring)) (fs : list jsstring) :
  NoDup fs ->
  NoDup (add_matches fs ms)
  /\ forall x, x ∈ add_matches fs ms <->
       x ∈ fs \/ exists m1, m1 ∈ ms /\ keep_file m1 = Some x.
Proof.
  unfold add_matches. revert fs.
  induction ms as [|m1 ms IH]; intros fs Hnd; simpl.
  - split; [done|]. intros x. split; [auto|]. intros [?|(? & H%elem_of_nil & _)]; done.
  - destruct (keep_file m1) as [file|] eqn:Hk.
    + destruct (set_add_spec fs file Hnd) as [Hnd' Hin'].
      destruct (IH _ Hnd') as [Hnd'' Hin'']. split; [done|].
      intros x. rewrite Hin'', Hin'. split.
      * intros [[?| ->]|(m & Hm & Hx)]; [by left| |].
        -- right. exists m1. split; [apply list_elem_of_here|done].
        -- right. exists m. split; [by apply list_elem_of_further|done].
      * intros [?|(m & [->|Hm]%elem_of_cons & Hx)]; [by left;left| |].
        -- left. right. congruence.
        -- right. by exists m.
    + destruct (IH _ Hnd) as [Hnd'' Hin'']. split; [done|].
      intros x. rewrite Hin''. split.
      * intros [?|(m & Hm & Hx)]; [by left|].
        right. exists m. split; [by apply list_elem_of_further|done].
      * intros [?|(m & [->|Hm]%elem_of_cons & Hx)]; [by left|congruence|].
        right. by exists m.
Qed.

Lemma fold_patterns_spec (content : jsstring) (ps : list regex)
      (fs : list jsstring) :
  NoDup fs ->
  let result := fold_left (fun fs pattern =>
                             add_matches fs (matchAll pattern content)) ps fs in
  NoDup result
  /\ forall x, x ∈ result <->
       x ∈ fs \/ exists r m1, r ∈ ps /\ m1 ∈ matchAll r content
                              /\ keep_file m1 = Some x.
Proof.
  revert fs. induction ps as [|r ps IH]; intros fs Hnd; simpl.
  - split; [done|]. intros x. split; [auto|].
    intros [?|(? & ? & H%elem_of_nil & _)]; done.
  - destruct (add_matches_spec (matchAll r content) fs Hnd) as [Hnd' Hin'].
    destruct (IH _ Hnd') as [Hnd'' Hin'']. split; [done|].
    intros x. rewrite Hin'', Hin'. split.
    + intros [[?|(m & Hm & Hx)]|(r' & m & Hr & Hm & Hx)]; [by left| |].
      * right. exists r, m. split; [apply list_elem_of_here|done].
      * right. exists r', m. split; [by apply list_elem_of_further|done].
    + intros [?|(r' & m & [->|Hr]%elem_of_cons & Hm & Hx)]; [by left;left| |].
      * left. right. by exists m.
      * right. by exists r', m.
Qed.

(** What [extractFilePaths] returns: the captures of the five patterns
    that pass the guard, each once. *)
Lemma extractFilePaths_spec (content : jsstring) :
  NoDup (extractFilePaths content)
  /\ forall x, x ∈ extractFilePaths content <->
       exists r m1, r ∈ patterns /\ m1 ∈ matchAll r content
                    /\ keep_file m1 = Some x.
Proof.
  destruct (fold_patterns_spec content patterns [] NoDup_nil_2) as [Hnd Hin].
  split; [done|]. intros x. unfold extractFilePaths. rewrite Hin.
  split; [|by right]. intros [H%elem_of_nil|?]; done.
Qed.

Lemma keep_file_Some m1 x :
  keep_file m1 = Some x ->
  m1 = Some x /\ x <> []
  /\ includes (lit "http") x = false /\ startsWith (lit ".com") x = false.
Proof.
  unfold keep_file. destruct m1 as [file|]; [|done].
  destruct (truthy file) eqn:Ht; [|done].
  destruct (includes (lit "http") file) eqn:Hi; [done|].
  destruct (startsWith (lit ".com") file) eqn:Hs; [done|].
  intros [= <-]. by destruct file.
Qed.

End ReferenceFacts.

(* ================================================================== *)
(** * Facts about captures *)
(* ================================================================== *)

Section CaptureFacts.
Import JS Regex Parser Capture.

Variable subject : jsstring.

Lemma inside_step pos c s cap :
  inside subject (pos, c :: s, cap) -> inside subject (S pos, s, cap).
Proof.
  intros [[a Ha] Hcap]. split; [|done]. exists (a ++ [c]). simpl in *.
  by rewrite <- (assoc_L (++)).
Qed.

(** A repetition hands to what follows a state inside the subject. *)
Lemma rep_inside p mn mx pos s cap (k : cont) x :
  inside subject (pos, s, cap) ->
  rep p mn mx pos s cap k = Some x ->
  exists st', inside subject st' /\ k st' = Some x.
Proof.
  revert mn mx pos. induction s as [|c s IH]; intros mn mx pos Hin; simpl.
  - destruct mn; [|done]. eauto.
  - assert (Hstop : match mn with 0 => k (pos, c :: s, cap) | S _ => None end
                    = Some x -> exists st', inside subject st' /\ k st' = Some x).
    { destruct mn; [|done]. eauto. }
    destruct (p c && allows mx); [|done].
    destruct (rep p (pred mn) (pred <$> mx) (S pos) s cap k) as [r|] eqn:Hr;
      [|done].
    intros [= ->]. apply (IH _ _ _ (inside_step _ _ _ _ Hin) Hr).
Qed.

(** So does every pattern. *)
Lemma run_inside r st (k : cont) x :
  inside subject st ->
  run r st k = Some x ->
  exists st', inside subject st' /\ k st' = Some x.
Proof.
  revert st k. induction r as [| |p|r1 IH1 r2 IH2|r1 IH1 r2 IH2|p mn mx|r1 IH1];
    intros [[pos s] cap] k Hin; simpl.
  - eauto.
  - destruct pos; [eauto|done].
  - destruct s as [|c s]; [done|]. destruct (p c); [|done].
    intros Hk. exists (S pos, s, cap). split; [by eapply inside_step|done].
  - intros H. apply (IH1 _ _ Hin) in H as (st1 & Hin1 & H). by apply IH2 in H.
  - destruct (run r1 (pos, s, cap) k) as [y|] eqn:H1.
    + intros [= ->]. by apply IH1 in H1.
    + by apply IH2.
  - by apply rep_inside.
  - intros H. apply (IH1 _ _ Hin) in H as ([[pos' s'] cap'] & Hin1 & H).
    eexists. split; [|exact H].
    destruct Hin as [[a Ha] _], Hin1 as [Hs' _]. split; [done|].
    intros c [= <-]. exists a, (drop (pos' - pos) s). simpl in Ha.
    by rewrite take_drop.
Qed.

(** The capture of a match that starts inside the subject occurs in the
    subject. *)
Lemma match_at_inside r pos s e c :
  (exists a, subject = a ++ s) ->
  match_at r pos s = Some (e, Some c) -> substring c subject.
Proof.
  intros Hs. unfold match_at.
  destruct (run r _ Some) as [[[e' s'] cap']|] eqn:Hr; [|done].
  intros [= -> ->].
  apply run_inside in Hr as (st' & [_ Hcap] & [= ->]); [by apply Hcap|].
  by split.
Qed.

Lemma matchAll_from_inside r pos skip s c :
  (exists a, subject = a ++ s) ->
  Some c ∈ matchAll_from r pos skip s -> substring c subject.
Proof.
  revert pos skip. induction s as [|x s IH]; intros pos skip Hs.
  - destruct skip; simpl; [|by intros ?%elem_of_nil].
    destruct (match_at r pos _) as [[e cap]|] eqn:Hm; [|by intros ?%elem_of_nil].
    intros Hx%list_elem_of_singleton. subst cap.
    exact (match_at_inside _ _ _ _ _ Hs Hm).
  - assert (Hs' : exists a, subject = a ++ s).
    { destruct Hs as [a ->]. exists (a ++ [x]). by rewrite <- (assoc_L (++)). }
    destruct skip; simpl; [|exact (IH _ _ Hs')].
    destruct (match_at r pos _) as [[e cap]|] eqn:Hm; [|exact (IH _ _ Hs')].
    intros [Hx|Hin]%elem_of_cons;
      [subst cap; exact (match_at_inside _ _ _ _ _ Hs Hm)|].
    by apply (IH _ _ Hs') in Hin.
Qed.

End CaptureFacts.

Section ReferenceClaims.
Import JS Regex Parser Capture.

Lemma extractFilePaths_inside content file :
  file ∈ extractFilePaths content -> substring file content.
Proof.
  intros (r & m1 & _ & Hm & Hk)%extractFilePaths_spec.
  apply keep_file_Some in Hk as (-> & _). unfold matchAll in Hm.
  apply (matchAll_from_inside content r 0 0 content); [by exists []|done].
Qed.

(** X1. The references of a text are pairwise distinct. *)
Theorem extractFilePaths_NoDup content : NoDup (extractFilePaths content).
Proof. apply extractFilePaths_spec. Qed.

(** X2. Every reference of a text occurs in the text, is not empty, does
    not contain "http" and does not start with ".com". *)
Theorem extractFilePaths_sound content file :
  file ∈ extractFilePaths content ->
  substring file content
  /\ file <> []
  /\ includes (lit "http") file = false
  /\ startsWith (lit ".com") file = false.
Proof.
  intros Hin. split; [by apply extractFilePaths_inside|].
  apply extractFilePaths_spec in Hin as (r & m1 & _ & _ & Hk).
  by apply keep_file_Some in Hk as (_ & Hne & Hhttp & Hcom).
Qed.

End ReferenceClaims.

(* ================================================================== *)
(** * More facts about the chunk builder *)
(* ================================================================== *)

Section BuilderExtras.
Import JS Regex Parser PathSpec Capture.

Lemma ceil_div_4 n : n <= 4 * ceil_div n 4 < n + 4.
Proof.
  unfold ceil_div.
  pose proof (Nat.div_mod_eq n 4) as Hdm.
  pose proof (Nat.mod_upper_bound n 4) as Hm.
  destruct (Nat.eqb_spec (n `mod` 4) 0); lia.
Qed.

(** Which records the loop retains: a user or assistant turn of at least
    ten code units, and every tool result. *)
Lemma chunkOfLine_retained n line :
  is_Some (chunkOfLine n line) <->
  match line with
  | Some (UserMessage _ c) | Some (AssistantMessage _ c) => 10 <= length c
  | Some (ToolResult _ _ _) => True
  | Some (ToolUse _ _ _) | Some (OtherMessage _) | Some (Faulty _) | None => False
  end.
Proof.
  unfold chunkOfLine.
  destruct line as [[ts c|ts name input|ts name out|ts c|ts|ts]|];
    simpl throws; cbv iota.
  - simpl. destruct c as [|x c]; simpl; [split; [by intros [? ?]|lia]|].
    destruct (Nat.ltb_spec (S (length c)) 10) as [Hlt|Hge]; split; intros Hx;
      try done; try lia; by destruct Hx.
  - destruct (extractContent _) as [[text tools] r]. simpl.
    repeat case_match; split; try done; by intros [? ?].
  - pose proof (tool_result_text_length ts name out) as Hlen.
    destruct (extractContent (ToolResult ts name out)) as [[text tools] r].
    simpl in Hlen. destruct text as [|x text]; [simpl in Hlen; lia|].
    simpl in *. destruct (Nat.ltb_spec (S (length text)) 10); [lia|].
    split; [done|]. intros _. by eexists.
  - simpl. destruct c as [|x c]; simpl; [split; [by intros [? ?]|lia]|].
    destruct (Nat.ltb_spec (S (length c)) 10) as [Hlt|Hge]; split; intros Hx;
      try done; try lia; by destruct Hx.
  - simpl. split; [by intros [? ?]|done].
  - split; [by intros [? ?]|done].
  - split; [by intros [? ?]|done].
Qed.

(** What every chunk carries, given the line it comes from. *)
Lemma chunkOfLine_fields n line m :
  chunkOfLine n line = Some m ->
  10 <= length (content m)
  /\ role m <> system
  /\ tokenCount m = ceil_div (length (content m)) 4
  /\ filesMentioned m = extractFilePaths (content m)
  /\ match line with
     | Some (UserMessage _ c) | Some (AssistantMessage _ c) => content m = c
     | _ => True
     end.
Proof.
  unfold chunkOfLine. destruct line as [parsed|]; [|done].
  destruct (throws parsed) eqn:Hthrows; [done|].
  destruct (extractContent parsed) as [[text tools] r] eqn:He.
  destruct (truthy text) eqn:Ht; [|done]. simpl.
  destruct (Nat.ltb_spec (length text) 10); [done|].
  destruct (is_tool_use parsed) eqn:Hu; [done|].
  intros [= <-]. simpl. repeat split; [done| | ].
  - destruct parsed; simpl in He; by simplify_eq.
  - destruct parsed; simpl in He; by simplify_eq.
Qed.

Lemma fold_messages_ext lines st st' :
  ls_messages st = ls_messages st' ->
  ls_messages (fold_left step lines st) = ls_messages (fold_left step lines st').
Proof.
  revert st st'. induction lines as [|line lines IH]; intros st st' H; [done|].
  simpl. apply IH. by rewrite !step_messages, H.
Qed.

(** Lines that are not retained leave no trace in the messages. *)
Lemma fold_step_filter lines st :
  ls_messages (fold_left step
                 (filter (fun line => is_Some (chunkOfLine 0 line)) lines) st)
  = ls_messages (fold_left step lines st).
Proof.
  revert st. induction lines as [|line lines IH]; intros st; [done|].
  rewrite filter_cons. simpl. case_decide as Hr.
  - simpl. apply IH.
  - rewrite IH. apply fold_messages_ext. rewrite step_messages.
    destruct (chunkOfLine (length (ls_messages st)) line) eqn:Hc;
      [|simpl; by rewrite (right_id_L [] (++))].
    destruct Hr. apply (chunkOfLine_is_Some (length (ls_messages st))).
    by rewrite Hc.
Qed.

(** The first and the last timestamp after one iteration. *)
Local Abbreviation line_date :=
  (fun line : option ClaudeMessage => line ≫= fun p => date_of (timestamp_of p)).

Lemma step_dates st line :
  ls_first (step st line)
  = match ls_first st with Some d => Some d | None => line_date line end
  /\ ls_last (step st line)
     = match line_date line with Some d => Some d | None => ls_last st end.
Proof.
  unfold step. destruct line as [parsed|]; [|by destruct (ls_first st)].
  assert (Ht : ls_first (track st (timestamp_of parsed))
               = match ls_first st with
                 | Some d => Some d
                 | None => date_of (timestamp_of parsed)
                 end
               /\ ls_last (track st (timestamp_of parsed))
                  = match date_of (timestamp_of parsed) with
                    | Some d => Some d
                    | None => ls_last st
                    end).
  { unfold track, date_of. destruct (timestamp_of parsed) as [t|];
      [|by destruct (ls_first st)].
    destruct (truthy t); simpl; by destruct (ls_first st). }
  destruct (chunkOfLine (length (ls_messages (track st (timestamp_of parsed))))
                        (Some parsed)); simpl; exact Ht.
Qed.

Lemma fold_dates lines st :
  ls_first (fold_left step lines st)
  = match ls_first st with
    | Some d => Some d
    | None => head (omap line_date lines)
    end
  /\ ls_last (fold_left step lines st)
     = match list.last (omap line_date lines) with
       | Some d => Some d
       | None => ls_last st
       end.
Proof.
  revert st. induction lines as [|line lines IH]; intros st.
  - simpl. by destruct (ls_first st).
  - simpl fold_left. destruct (IH (step st line)) as [-> ->].
    destruct (step_dates st line) as [-> ->]. simpl omap.
    destruct (line ≫= _) as [d|] eqn:Hd; simpl.
    + split; [by destruct (ls_first st)|].
      rewrite last_cons. by destruct (list.last _).
    + by destruct (ls_first st).
Qed.

Section WithPath.
Variable basename : jsstring -> jsstring -> jsstring.

Lemma parse_message_origin filePath lines s m :
  parseSessionFile basename filePath (Some lines) = Some s ->
  m ∈ messages s ->
  exists line, line ∈ lines /\ chunkOfLine (index m) line = Some m.
Proof.
  intros H Hin.
  destruct (parseSessionFile_messages _ _ _ _ H) as (lines' & [= <-] & Hm & _).
  destruct (loop_messages lines initial) as (rest & Hr & _ & Hf).
  simpl in Hr. rewrite Hm, Hr in Hin.
  apply list_elem_of_lookup in Hin as [i Hi].
  destruct (Forall2_lookup_l _ _ _ _ _ Hf Hi) as (line & Hl & Hc).
  exists line. split; [|done].
  apply list_elem_of_lookup_2 in Hl. by apply list_elem_of_filter in Hl as [_ ?].
Qed.

(** X3. A file is rejected exactly when it cannot be read or none of its
    lines is retained, a line being retained when it is a user or
    assistant turn of at least ten code units or any tool result. *)
Theorem parse_rejected_iff filePath file :
  parseSessionFile basename filePath file = None <->
  match file with
  | None => True
  | Some lines =>
      Forall (fun line =>
                match line with
                | Some (UserMessage _ c) | Some (AssistantMessage _ c) =>
                    length c < 10
                | Some (ToolResult _ _ _) => False
                | Some (ToolUse _ _ _) | Some (OtherMessage _) | Some (Faulty _)
                | None => True
                end) lines
  end.
Proof.
  destruct file as [lines|]; [|done].
  assert (Hkey : ls_messages (fold_left step lines initial) = [] <->
                 Forall (fun line => ~ is_Some (chunkOfLine 0 line)) lines).
  { destruct (loop_messages lines initial) as (rest & -> & _ & Hf). simpl.
    split.
    - intros ->. apply Forall2_nil_inv_l in Hf.
      apply list.Forall_forall. intros line Hl Hs.
      assert (line ∈ filter (fun line => is_Some (chunkOfLine 0 line)) lines)
        by by apply list_elem_of_filter.
      rewrite Hf in H. by apply elem_of_nil in H.
    - intros Hall. destruct rest as [|m rest]; [done|].
      apply Forall2_cons_inv_l in Hf as (line & ls & _ & _ & Heq).
      assert (Hl : line ∈ filter (fun line => is_Some (chunkOfLine 0 line)) lines)
        by (rewrite Heq; apply list_elem_of_here).
      apply list_elem_of_filter in Hl as [Hs Hl].
      rewrite list.Forall_forall in Hall. by destruct (Hall line Hl). }
  assert (Hsame : Forall (fun line => ~ is_Some (chunkOfLine 0 line)) lines <->
    Forall (fun line =>
              match line with
              | Some (UserMessage _ c) | Some (AssistantMessage _ c) =>
                  length c < 10
              | Some (ToolResult _ _ _) => False
              | Some (ToolUse _ _ _) | Some (OtherMessage _) | Some (Faulty _)
                | None => True
              end) lines).
  { apply Forall_iff. intros line. rewrite chunkOfLine_retained.
    destruct line as [[]|]; try done; lia. }
  rewrite <- Hsame, <- Hkey. unfold parseSessionFile.
  destruct (Nat.eqb_spec (length lines) 0) as [H0|H0].
  - apply nil_length_inv in H0 as ->. done.
  - destruct (Nat.eqb_spec (length (ls_messages (fold_left step lines initial))) 0)
      as [H1|H1].
    + by apply nil_length_inv in H1.
    + split; [done|]. intros Hnil. rewrite Hnil in H1. done.
Qed.

(** X4. Every chunk of an accepted file has a text of at least ten code
    units, a role other than system, a token estimate of a quarter of the
    length of its text rounded up, and the references of its text. *)
Theorem retained_chunk_fields filePath lines s m :
  parseSessionFile basename filePath (Some lines) = Some s ->
  m ∈ messages s ->
  10 <= length (content m)
  /\ role m <> system
  /\ tokenCount m = ceil_div (length (content m)) 4
  /\ length (content m) <= 4 * tokenCount m < length (content m) + 4
  /\ filesMentioned m = extractFilePaths (content m).
Proof.
  intros H Hin.
  destruct (parse_message_origin _ _ _ _ H Hin) as (line & _ & Hc).
  apply chunkOfLine_fields in Hc as (Hlen & Hrole & Htok & Hfiles & _).
  repeat split; try done; rewrite Htok; apply ceil_div_4.
Qed.

(** X5. The time span of a session runs from the first to the last
    timestamp among all the records of the file, those that give no chunk
    included: the records that are filtered out, and the records on which
    the body of the loop throws after it has read their timestamp. *)
Theorem session_time_span filePath lines s :
  parseSessionFile basename filePath (Some lines) = Some s ->
  createdAt s = head (omap line_date lines)
  /\ updatedAt s = list.last (omap line_date lines).
Proof.
  unfold parseSessionFile. repeat case_match; try done. intros [= <-]. simpl.
  destruct (fold_dates lines initial) as [-> ->]. simpl.
  split; [done|]. by destruct (list.last _).
Qed.

(** X6. The chunks of a file are those of its retained lines alone:
    dropping every other line from the file changes neither the chunks nor
    what is derived from them. *)
Theorem parse_retained_lines_only filePath lines :
  let kept := filter (fun line => is_Some (chunkOfLine 0 line)) lines in
  (fun s => (messages s, projectName s, totalTokens s))
    <$> parseSessionFile basename filePath (Some kept)
  = (fun s => (messages s, projectName s, totalTokens s))
      <$> parseSessionFile basename filePath (Some lines).
Proof.
  intros kept. unfold parseSessionFile.
  pose proof (fold_step_filter lines initial) as Hm. fold kept in Hm.
  assert (Hk : length kept = 0 ->
               length (ls_messages (fold_left step lines initial)) = 0).
  { intros ->%nil_length_inv. by rewrite <- Hm. }
  destruct (Nat.eqb_spec (length kept) 0) as [H0|H0].
  - rewrite (Hk H0). by repeat case_match.
  - destruct (Nat.eqb_spec (length lines) 0) as [H1|H1].
    { apply nil_length_inv in H1. subst lines. done. }
    rewrite Hm. by case_match; simpl; rewrite ?Hm.
Qed.

(** X7. A project name, when there is one, is not empty, holds no slash,
    and stands between two slashes in the first reference of some chunk,
    hence in the text of that chunk. *)
Theorem project_name_shape filePath lines s name :
  parseSessionFile basename filePath (Some lines) = Some s ->
  projectName s = Some name ->
  name <> [] /\ (slash ∉ name)
  /\ exists m firstPath others,
       m ∈ messages s
       /\ filesMentioned m = firstPath :: others
       /\ substring (slash :: name ++ [slash]) firstPath
       /\ substring firstPath (content m).
Proof.
  intros H Hname.
  assert (Hinfer : inferProjectName (messages s) = Some name).
  { revert H Hname. unfold parseSessionFile. repeat case_match; try done.
    by intros [= <-]. }
  assert (Hfind : forall msgs, inferProjectName msgs = Some name ->
            exists m firstPath others, m ∈ msgs
              /\ filesMentioned m = firstPath :: others
              /\ parent_segment firstPath name).
  { induction msgs as [|m0 msgs IH]; [done|]. simpl.
    destruct (filesMentioned m0) as [|p ps] eqn:Hf.
    - intros (m & q & qs & Hm & ?)%IH. exists m, q, qs.
      split; [by apply list_elem_of_further|done].
    - destruct (match1 project_re p) as [c|] eqn:Hm.
      + intros ->. exists m0, p, ps. split; [apply list_elem_of_here|].
        split; [done|]. by apply match1_project_Some.
      + intros (m & q & qs & Hin & ?)%IH. exists m, q, qs.
        split; [by apply list_elem_of_further|done]. }
  destruct (Hfind _ Hinfer) as (m & p & ps & Hin & Hf & i & Hseg & _).
  destruct Hseg as (kw & b & Hdrop & Hne & Hno & _).
  split; [done|]. split; [done|]. exists m, p, ps. split; [done|]. split; [done|].
  split.
  - exists (take i p), (kw ++ b). rewrite <- (take_drop i p) at 1. rewrite Hdrop.
    simpl. by rewrite <- !(assoc_L (++)).
  - destruct (parse_message_origin _ _ _ _ H Hin) as (line & _ & Hc).
    apply chunkOfLine_fields in Hc as (_ & _ & _ & Hfiles & _).
    assert (Hp : p ∈ extractFilePaths (content m)).
    { rewrite <- Hfiles, Hf. apply list_elem_of_here. }
    by apply extractFilePaths_inside in Hp.
Qed.
End WithPath.

End BuilderExtras.

(* ================================================================== *)
(** * More facts about the embedding batcher *)
(* ================================================================== *)

Section BatcherExtras.
Import JS Embedder Trace.

Variable embed : nat -> jsstring -> reply.

(** What a call gives with a positive concurrency: what the requests
    were given, slot by slot, or a rejection when one of them fails. *)
Lemma embedBatch_value texts c :
  1 <= c ->
  embedBatch embed texts (Some c)
  = if decide (Forall is_Some (answers embed texts))
    then Resolved (slots embed texts) else Rejected.
Proof.
  intros Hc. unfold embedBatch. simpl default.
  destruct (decide (Forall is_Some (answers embed texts))) as [Hall|Hex].
  - rewrite <- (partial_none embed). apply (loop_ok embed texts c _ 0); [done| |lia].
    intros k t Ht. rewrite list.Forall_lookup in Hall.
    apply (Hall k). by apply lookup_answers.
  - apply not_Forall_Exists in Hex; [|apply _].
    apply list.Exists_exists in Hex as (o & Ho & Hnone). simpl in Hnone.
    destruct o as [v|]; [by destruct Hnone; eexists|].
    apply list_elem_of_lookup in Ho as [p Hp].
    unfold answers in Hp. rewrite list_lookup_imap in Hp.
    destruct (texts !! p) as [t|] eqn:Ht; [|done].
    injection Hp as Hp.
    apply (loop_fail embed texts c _ 0 p t); [done|lia|done..|lia].
Qed.

(** X8. The concurrency bound does not change what a call returns: with
    any two positive bounds the call resolves with the same list or is
    rejected in both cases. *)
Theorem embedBatch_concurrency_irrelevant texts c1 c2 :
  1 <= c1 -> 1 <= c2 ->
  embedBatch embed texts (Some c1) = embedBatch embed texts (Some c2).
Proof. intros H1 H2. by rewrite !embedBatch_value. Qed.

(** Whether a window succeeds does not depend on the results so far. *)
Lemma window_is_Some batch i j results :
  (forall o t, batch !! o = Some t -> is_Some (embed (i + j + o) t)) ->
  is_Some (window embed i j batch results).
Proof.
  revert j results. induction batch as [|t batch IH]; intros j results H; simpl.
  - by eexists.
  - destruct (H 0 t eq_refl) as [v Hv]. rewrite Nat.add_0_r in Hv. rewrite Hv.
    apply IH. intros o t' Ho.
    replace (i + S j + o) with (i + j + S o) by lia. by apply H.
Qed.

(** The requests sent from slot [i] on are those of consecutive slots. *)
Lemma loop_requests_seq texts c fuel i results :
  1 <= c ->
  exists k, loop_requests embed fuel texts c i results = seq i k
            /\ (k = 0 \/ i + k <= length texts).
Proof.
  intros Hc. revert i results. induction fuel as [|fuel IH]; intros i results.
  - exists 0. by split; [|left].
  - simpl. destruct (Nat.ltb_spec i (length texts)) as [Hi|Hi];
      [|exists 0; by split; [|left]].
    rewrite length_take, length_drop.
    destruct (window embed i 0 _ results) as [results'|].
    + destruct (IH (i + c) results') as (k & -> & Hk).
      destruct (decide (i + c <= length texts)) as [Hle|Hgt].
      * exists (c + k). rewrite Nat.min_l by lia. split; [by rewrite seq_app|].
        right. lia.
      * exists (length texts - i). rewrite Nat.min_r by lia.
        destruct Hk as [->|Hk]; [|lia]. simpl. rewrite (right_id_L [] (++)).
        split; [done|]. right. lia.
    + exists (c `min` (length texts - i)). rewrite (right_id_L [] (++)).
      split; [done|]. right. lia.
Qed.

Lemma loop_requests_all texts c fuel i results :
  1 <= c ->
  (forall k t, texts !! k = Some t -> is_Some (embed k t)) ->
  length texts - i < fuel -> i <= length texts ->
  loop_requests embed fuel texts c i results = seq i (length texts - i).
Proof.
  intros Hc Hall. revert i results.
  induction fuel as [|fuel IH]; intros i results Hf Hi; [lia|].
  simpl. destruct (Nat.ltb_spec i (length texts)) as [Hlt|Hge];
    [|by replace (length texts - i) with 0 by lia].
  rewrite length_take, length_drop.
  destruct (window_is_Some (take c (drop i texts)) i 0 results) as [results' ->].
  { intros o t Ho. apply lookup_batch in Ho. rewrite Nat.add_0_r. by apply Hall. }
  destruct (decide (i + c <= length texts)) as [Hle|Hgt].
  - rewrite IH by lia. rewrite Nat.min_l by lia. rewrite <- seq_app.
    f_equal. lia.
  - rewrite Nat.min_r by lia.
    destruct (loop_requests_seq texts c fuel (i + c) results' Hc)
      as (k & -> & [->|Hk]); [|lia].
    simpl. by rewrite (right_id_L [] (++)).
Qed.

Lemma loop_requests_stop texts c fuel i results q t p :
  1 <= c -> (c | i) -> i <= q ->
  texts !! q = Some t -> embed q t = None ->
  p ∈ loop_requests embed fuel texts c i results ->
  p < (q `div` c + 1) * c.
Proof.
  intros Hc Hdiv Hiq Ht He. pose proof (lookup_lt_Some _ _ _ Ht) as Hq.
  revert i results Hdiv Hiq. induction fuel as [|fuel IH];
    intros i results [m ->] Hiq; simpl; [by intros ?%elem_of_nil|].
  destruct (Nat.ltb_spec (m * c) (length texts)) as [Hi|Hi];
    [|by intros ?%elem_of_nil].
  rewrite length_take, length_drop.
  assert (Hwin : m * c + c <= (q `div` c + 1) * c).
  { assert (m <= q `div` c) by (apply Nat.div_le_lower_bound; lia). nia. }
  intros [Hp|Hp]%elem_of_app.
  - apply elem_of_seq in Hp. lia.
  - destruct (decide (q < m * c + c)) as [Hin|Hout].
    + rewrite (window_fail embed _ (m * c) 0 (q - m * c) t) in Hp.
      * by apply elem_of_nil in Hp.
      * apply lookup_take_Some. split; [|lia].
        rewrite lookup_drop. by replace (m * c + (q - m * c)) with q by lia.
      * by replace (m * c + 0 + (q - m * c)) with q by lia.
    + destruct (window embed (m * c) 0 _ results) as [results'|];
        [|by apply elem_of_nil in Hp].
      apply (IH (m * c + c) results'); [by exists (S m); lia|lia|done].
Qed.

(** X9. One request is sent for every text, in the order of the texts,
    when all requests succeed. When the request of slot [q] fails, no
    request is sent for a window after the window of [q]; the requests
    that were sent are those of the first slots, one each. *)
Theorem requests_sent texts c :
  1 <= c ->
  (exists k, requests embed texts (Some c) = seq 0 k /\ k <= length texts)
  /\ ((forall i t, texts !! i = Some t -> is_Some (embed i t)) ->
      requests embed texts (Some c) = seq 0 (length texts))
  /\ (forall q t p, texts !! q = Some t -> embed q t = None ->
        p ∈ requests embed texts (Some c) -> p < (q `div` c + 1) * c).
Proof.
  intros Hc. unfold requests. simpl default. split; [|split].
  - destruct (loop_requests_seq texts c (S (length texts)) 0
                (replicate (length texts) None) Hc) as (k & -> & Hk).
    exists k. split; [done|]. lia.
  - intros Hall. rewrite loop_requests_all; [|done..|lia|lia].
    by rewrite Nat.sub_0_r.
  - intros q t p Ht He. apply loop_requests_stop with (t := t); try done; [|lia].
    by exists 0.
Qed.

End BatcherExtras.

(* ================================================================== *)
(** * Facts about the search for session files *)
(* ================================================================== *)

Section WalkFacts.
Import JS Walk.

(** Induction on an entry, with the hypothesis for every entry of a
    directory. *)
Lemma entry_nested_ind (P : entry -> Prop) :
  (forall name, P (File name)) ->
  (forall name entries, Forall P entries -> P (Directory name entries)) ->
  (forall name, P (Unreadable name)) ->
  forall e, P e.
Proof.
  intros Hf Hd Hu. fix IH 1. intros [name|name entries|name].
  - apply Hf.
  - apply Hd. induction entries as [|e entries IHes]; constructor.
    + apply IH.
    + apply IHes.
  - apply Hu.
Qed.

Variable join : jsstring -> jsstring -> jsstring.

Lemma fold_visit_None (f : option (list jsstring) -> entry -> option (list jsstring))
      (entries : list entry) :
  (forall e, f None e = None) -> fold_left f entries None = None.
Proof. intros Hf. induction entries as [|e entries IH]; simpl; [done|]. by rewrite Hf. Qed.

(** The loop over the entries of a directory, given what [visit] does on
    each of them. *)
Lemma fold_visit dir entries files :
  Forall (fun e => forall dir files,
            visit join dir e files
            = if readable e then Some (files ++ sessions_below join dir e)
              else None) entries ->
  fold_left (fun acc e => acc ≫= visit join dir e) entries (Some files)
  = if forallb readable entries
    then Some (files ++ flat_map (sessions_below join dir) entries)
    else None.
Proof.
  intros Hall. revert files. induction Hall as [|e entries He _ IH]; intros files.
  - simpl. by rewrite (right_id_L [] (++)).
  - simpl. rewrite He. destruct (readable e); simpl.
    + rewrite IH. destruct (forallb readable entries); [|done].
      by rewrite (assoc_L (++)).
    + by apply fold_visit_None.
Qed.

(** [visit] fails exactly below an unreadable directory, and otherwise
    appends the session files below the entry. *)
Lemma visit_spec e : forall dir files,
  visit join dir e files
  = if readable e then Some (files ++ sessions_below join dir e) else None.
Proof.
  induction e as [name|name entries IH|name] using entry_nested_ind;
    intros dir files.
  - simpl. destruct (endsWith _ name); [done|]. by rewrite (right_id_L [] (++)).
  - simpl. by apply fold_visit.
  - done.
Qed.

Lemma walk_spec dir entries files :
  walk join dir entries files
  = if forallb readable entries
    then Some (files ++ flat_map (sessions_below join dir) entries)
    else None.
Proof.
  unfold walk. apply fold_visit. apply list.Forall_forall. intros e _.
  apply visit_spec.
Qed.

(** Every path below an entry is the path of a name that ends in
    [.jsonl]. *)
Lemma sessions_below_names e : forall dir p,
  p ∈ sessions_below join dir e ->
  exists parent name, p = join parent name
                      /\ endsWith (lit ".jsonl") name = true.
Proof.
  induction e as [name|name entries IH|name] using entry_nested_ind;
    intros dir p; simpl.
  - destruct (endsWith _ name) eqn:He; [|by intros ?%elem_of_nil].
    intros ->%list_elem_of_singleton. by exists dir, name.
  - intros Hp. apply list_elem_of_In, in_flat_map in Hp as (e & He & Hp).
    rewrite Forall_forall in IH. apply (IH e He (join dir name)).
    by apply list_elem_of_In.
  - by intros ?%elem_of_nil.
Qed.

(** X10. [findSessionFiles] returns nothing for a path that does not
    exist, throws when the path is not a directory or a directory below it
    cannot be read, and otherwise returns the paths of the entries below
    it that are not directories and whose name ends in [.jsonl], in the
    order of a depth-first walk. *)
Theorem findSessionFiles_spec claudeCode stat basePath :
  findSessionFiles join claudeCode stat basePath
  = let searchPath := if truthy_opt basePath then default [] basePath
                      else claudeCode in
    match stat searchPath with
    | None => Some []
    | Some (Directory _ entries) =>
        if forallb readable entries
        then Some (flat_map (sessions_below join searchPath) entries)
        else None
    | Some (File _) | Some (Unreadable _) => None
    end.
Proof.
  unfold findSessionFiles. simpl.
  destruct (stat _) as [[name|name entries|name]|]; try done.
  by rewrite walk_spec.
Qed.

(** X11. Every path that [findSessionFiles] returns is the path of a
    name that ends in [.jsonl]; a directory is never returned, whatever
    its name. *)
Theorem findSessionFiles_names claudeCode stat basePath files p :
  findSessionFiles join claudeCode stat basePath = Some files ->
  p ∈ files ->
  exists parent name, p = join parent name
                      /\ endsWith (lit ".jsonl") name = true.
Proof.
  unfold findSessionFiles.
  destruct (stat _) as [[name|name entries|name]|]; try done.
  - rewrite walk_spec. destruct (forallb readable entries); [|done].
    intros [= <-] Hp. simpl in Hp.
    apply list_elem_of_In, in_flat_map in Hp as (e & He & Hp).
    apply list_elem_of_In in Hp. by eapply sessions_below_names.
  - by intros [= <-] ?%elem_of_nil.
Qed.

End WalkFacts.

(* ================================================================== *)
(** * Facts about the health check *)
(* ================================================================== *)

Section HealthFacts.
Import JS Health.

Lemma startsWith_refl (s : jsstring) : startsWith s s = true.
Proof. apply startsWith_spec. exists []. by rewrite (right_id_L [] (++)). Qed.

Variable baseUrl : jsstring.
Variable model : jsstring.

Lemma hasModel_prefix names :
  hasModel model names = true <->
  exists name, name ∈ names /\ startsWith model name = true.
Proof.
  unfold hasModel. rewrite existsb_exists. split.
  - intros (name & Hin & [Heq|Hs]%orb_true_iff); exists name;
      (split; [by apply list_elem_of_In|]); [|done].
    apply str_eqb_eq in Heq as ->. apply startsWith_refl.
  - intros (name & Hin & Hs). exists name. split; [by apply list_elem_of_In|].
    by rewrite Hs, orb_true_r.
Qed.

(** X12. The health check succeeds exactly when the service answers with
    an ok response whose list of models holds a name that starts with the
    configured model name; it reports an error in every other case and
    never throws. *)
Theorem checkOllama_ok r :
  (ok (checkOllama baseUrl model r) = true <->
   exists names, r = Answer true (Some names)
                 /\ exists name, name ∈ names /\ startsWith model name = true)
  /\ (error (checkOllama baseUrl model r) = None <->
      ok (checkOllama baseUrl model r) = true).
Proof.
  destruct r as [|[] [names|]]; simpl;
    try (split; [split; [done|by intros (? & ? & _)]|done]).
  destruct (hasModel model names) eqn:Hm; simpl.
  - split; [|done]. split; [|done]. intros _. exists names. split; [done|].
    by apply hasModel_prefix.
  - split; [|done]. split; [done|]. intros (names' & [= <-] & Hex).
    apply hasModel_prefix in Hex. congruence.
Qed.

End HealthFacts.

(* ================================================================== *)
(** * Facts about the shared pool *)
(* ================================================================== *)

Section PoolFacts.
Import Pool.

(** What every sequence of calls keeps: the current pool has been made
    and is not closed, every other pool that has been made is closed, and
    a pool is closed once. *)
Lemma perform_invariant (calls : list call) :
  let st := fold_left perform calls initial in
  (forall p, pool st = Some p -> p < made st /\ p ∉ ended st)
  /\ (forall q, q < made st -> pool st <> Some q -> q ∈ ended st)
  /\ (forall q, q ∈ ended st -> q < made st)
  /\ NoDup (ended st).
Proof.
  induction calls as [|c calls IH] using rev_ind; simpl.
  - split; [done|]. split; [intros q Hq; simpl in Hq; lia|].
    split; [by intros q ?%elem_of_nil|apply NoDup_nil_2].
  - rewrite fold_left_app. simpl.
    set (st := fold_left perform calls initial) in *.
    destruct IH as (IH1 & IH2 & IH3 & IH4). destruct c; simpl.
    + unfold getPool. destruct (pool st) as [p|] eqn:Hp; simpl.
      * rewrite Hp. split; [done|]. split; [|done].
        intros q Hq Hne. apply IH2; [done|congruence].
      * split; [|split; [|split; [|done]]].
        -- intros p [= <-]. split; [lia|]. intros Hin%IH3. lia.
        -- intros q Hq Hne. apply IH2; [|done].
           destruct (decide (q = made st)) as [->|]; [done|lia].
        -- intros q Hq%IH3. lia.
    + unfold closePool. destruct (pool st) as [p|] eqn:Hp; simpl.
      * destruct (IH1 p eq_refl) as [Hlt Hnot].
        split; [done|]. split; [|split].
        -- intros q Hq _.
           destruct (decide (q = p)) as [->|Hne]; [apply list_elem_of_here|].
           apply list_elem_of_further, IH2; [done|congruence].
        -- intros q [->|Hq]%elem_of_cons; [done|by apply IH3].
        -- by apply list.NoDup_cons.
      * rewrite Hp. done.
Qed.

(** X13. After any sequence of calls to [getPool] and [closePool], the
    only pool that has been made and not closed is the current one, and no
    pool has been closed twice. *)
Theorem pool_single_live (calls : list call) :
  let st := fold_left perform calls initial in
  (forall q, q ∈ live st <-> pool st = Some q) /\ NoDup (ended st).
Proof.
  intros st. destruct (perform_invariant calls) as (H1 & H2 & _ & H4).
  fold st in H1, H2, H4. split; [|done].
  intros q. unfold live. rewrite list_elem_of_filter, elem_of_seq. split.
  - intros [Hnot [_ Hq]]. destruct (decide (pool st = Some q)) as [|Hne]; [done|].
    by destruct Hnot; apply H2.
  - intros Hp. destruct (H1 q Hp). split; [done|]. lia.
Qed.

End PoolFacts.

(* ================================================================== *)
(** * What the statements write *)
(* ================================================================== *)

Section WriteFacts.
Import JS Parser Embedder Db Stats.

Lemma upsertChunk_lookup_other st c k :
  k <> chunk_key c -> chunks (upsertChunk st c) !! k = chunks st !! k.
Proof.
  intros Hk. unfold upsertChunk.
  destruct (chunks st !! chunk_key c); simpl; by rewrite lookup_insert_ne.
Qed.

Lemma upsertChunk_lookup_same st c :
  exists row, chunks (upsertChunk st c) !! chunk_key c = Some row
              /\ written st c row.
Proof.
  unfold upsertChunk, written.
  destruct (chunks st !! chunk_key c) as [old|] eqn:Hold; simpl;
    eexists; (split; [apply lookup_insert_eq|]); simpl; by repeat split.
Qed.

Lemma fold_upsertChunk_other cs st k :
  k ∉ chunk_key <$> cs ->
  chunks (fold_left upsertChunk cs st) !! k = chunks st !! k.
Proof.
  revert st. induction cs as [|c cs IH]; intros st Hk; [done|]. simpl.
  rewrite fmap_cons, not_elem_of_cons in Hk. destruct Hk as [Hne Hk].
  rewrite IH by done. by apply upsertChunk_lookup_other.
Qed.

Lemma fold_upsertChunk_lookup cs st c :
  NoDup (chunk_key <$> cs) -> c ∈ cs ->
  exists row, chunks (fold_left upsertChunk cs st) !! chunk_key c = Some row
              /\ written st c row.
Proof.
  revert st. induction cs as [|c0 cs IH]; intros st Hnd Hin;
    [by apply elem_of_nil in Hin|].
  rewrite fmap_cons in Hnd. apply list.NoDup_cons in Hnd as [Hfresh Hnd].
  simpl. apply elem_of_cons in Hin as [->|Hin].
  - destruct (upsertChunk_lookup_same st c0) as (row & Hrow & Hw).
    exists row. split; [|done]. by rewrite fold_upsertChunk_other.
  - destruct (IH (upsertChunk st c0) Hnd Hin) as (row & Hrow & Hw).
    exists row. split; [done|].
    assert (Hne : chunk_key c <> chunk_key c0).
    { intros Heq. apply Hfresh. rewrite <- Heq. by apply list_elem_of_fmap_2. }
    unfold written in *. by rewrite upsertChunk_lookup_other in Hw.
Qed.

Variable accepts_session : Session -> bool.
Variable accepts_chunks : list Chunk -> bool.

(** X14. A bulk insert that succeeds leaves, at the key of each chunk, a
    row with the content, embedding, token count and lists of the chunk;
    a row that was already there keeps its generated key, its role and
    its creation time. Rows at other keys and the sessions are as they
    were. *)
Theorem insertChunks_rows cs st st' :
  insertChunks accepts_chunks cs st = Some st' ->
  (forall c, c ∈ cs ->
     exists row, chunks st' !! chunk_key c = Some row /\ written st c row)
  /\ (forall k, k ∉ chunk_key <$> cs -> chunks st' !! k = chunks st !! k)
  /\ sessions st' = sessions st.
Proof.
  unfold insertChunks. destruct (Nat.eqb_spec (length cs) 0) as [H0|_].
  - intros [= <-]. apply nil_length_inv in H0 as ->.
    split; [by intros c ?%elem_of_nil|done].
  - destruct (accepts_chunks cs); [|done]. simpl.
    destruct (bool_decide (NoDup (chunk_key <$> cs))) eqn:Hnd; [|done].
    apply bool_decide_eq_true in Hnd. intros [= <-]. split; [|split].
    + intros c Hc. by apply fold_upsertChunk_lookup.
    + intros k Hk. by apply fold_upsertChunk_other.
    + apply fold_upsertChunk.
Qed.

(** The consistency of the store is kept by a session upsert. *)
Lemma upsertSession_store_ok now s st id st' :
  store_ok st ->
  upsertSession accepts_session now s st = Some (id, st') ->
  store_ok st'
  /\ (exists row, sessions st' !! session_id s = Some row /\ s_id row = id)
  /\ (forall sid, sid <> session_id s -> sessions st' !! sid = sessions st !! sid)
  /\ (sessions st !! session_id s = None -> id = next_id st).
Proof.
  intros [Hkey Hid Hinj Hck Hcs]. unfold upsertSession.
  destruct (accepts_session s); [|done]. simpl.
  destruct (sessions st !! session_id s) as [old|] eqn:Hold; intros [= <- <-].
  - split; [|split; [|split; [|done]]].
    + split; simpl.
      * intros sid row. destruct (decide (session_id s = sid)) as [<-|Hne].
        -- rewrite lookup_insert_eq. intros [= <-]. simpl. by eapply Hkey.
        -- rewrite lookup_insert_ne by done. apply Hkey.
      * intros sid row. destruct (decide (session_id s = sid)) as [<-|Hne].
        -- rewrite lookup_insert_eq. intros [= <-]. simpl. by eapply Hid.
        -- rewrite lookup_insert_ne by done. apply Hid.
      * intros sid1 sid2 row1 row2.
        destruct (decide (session_id s = sid1)) as [<-|Hne1];
          destruct (decide (session_id s = sid2)) as [<-|Hne2];
          rewrite ?lookup_insert_eq, ?lookup_insert_ne by done; try done.
        -- intros [= <-] H2 Heq. simpl in Heq. by eapply Hinj.
        -- intros H1 [= <-] Heq. simpl in Heq. by eapply Hinj.
        -- apply Hinj.
      * done.
      * intros k row Hrow. destruct (Hcs k row Hrow) as (sid & srow & Hs & Hsid).
        destruct (decide (session_id s = sid)) as [<-|Hne].
        -- eexists _, _. rewrite lookup_insert_eq. split; [done|]. simpl.
           congruence.
        -- exists sid, srow. by rewrite lookup_insert_ne.
    + simpl. eexists. by rewrite lookup_insert_eq.
    + intros sid Hne. simpl. by rewrite lookup_insert_ne.
  - split; [|split; [|split; [|done]]].
    + split; simpl.
      * intros sid row. destruct (decide (session_id s = sid)) as [<-|Hne].
        -- rewrite lookup_insert_eq. by intros [= <-].
        -- rewrite lookup_insert_ne by done. apply Hkey.
      * intros sid row. destruct (decide (session_id s = sid)) as [<-|Hne].
        -- rewrite lookup_insert_eq. intros [= <-]. simpl. lia.
        -- rewrite lookup_insert_ne by done. intros H%Hid. lia.
      * intros sid1 sid2 row1 row2.
        destruct (decide (session_id s = sid1)) as [<-|Hne1];
          destruct (decide (session_id s = sid2)) as [<-|Hne2];
          rewrite ?lookup_insert_eq, ?lookup_insert_ne by done; try done.
        -- intros [= <-] H2%Hid Heq. simpl in Heq. lia.
        -- intros H1%Hid [= <-] Heq. simpl in Heq. lia.
        -- apply Hinj.
      * done.
      * intros k row Hrow. destruct (Hcs k row Hrow) as (sid & srow & Hs & Hsid).
        exists sid, srow. rewrite lookup_insert_ne; [done|]. congruence.
    + simpl. eexists. by rewrite lookup_insert_eq.
    + intros sid Hne. simpl. by rewrite lookup_insert_ne.
Qed.

(** It is kept by the upsert of a chunk of a session that is there. *)
Lemma upsertChunk_store_ok st c :
  store_ok st ->
  (exists sid srow, sessions st !! sid = Some srow /\ s_id srow = ch_session_id c) ->
  store_ok (upsertChunk st c).
Proof.
  intros [Hkey Hid Hinj Hck Hcs] Href. unfold upsertChunk.
  destruct (chunks st !! chunk_key c) as [old|] eqn:Hold; split; simpl;
    try done.
  - intros k row. destruct (decide (chunk_key c = k)) as [<-|Hne].
    + rewrite lookup_insert_eq. intros [= <-]. simpl. by eapply Hck.
    + rewrite lookup_insert_ne by done. apply Hck.
  - intros k row. destruct (decide (chunk_key c = k)) as [<-|Hne].
    + rewrite lookup_insert_eq. intros _. exact Href.
    + rewrite lookup_insert_ne by done. apply Hcs.
  - intros sid row H%Hid. lia.
  - intros k row. destruct (decide (chunk_key c = k)) as [<-|Hne].
    + rewrite lookup_insert_eq. by intros [= <-].
    + rewrite lookup_insert_ne by done. apply Hck.
  - intros k row. destruct (decide (chunk_key c = k)) as [<-|Hne].
    + rewrite lookup_insert_eq. intros _. exact Href.
    + rewrite lookup_insert_ne by done. apply Hcs.
Qed.

Lemma fold_upsertChunk_store_ok cs st :
  store_ok st ->
  Forall (fun c => exists sid srow,
            sessions st !! sid = Some srow /\ s_id srow = ch_session_id c) cs ->
  store_ok (fold_left upsertChunk cs st).
Proof.
  revert st. induction cs as [|c cs IH]; intros st Hok Hall; [done|].
  apply list.Forall_cons in Hall as [Hc Hall]. simpl. apply IH.
  - by apply upsertChunk_store_ok.
  - by rewrite upsertChunk_sessions.
Qed.

Lemma insertChunks_store_ok cs st st' :
  store_ok st ->
  Forall (fun c => exists sid srow,
            sessions st !! sid = Some srow /\ s_id srow = ch_session_id c) cs ->
  insertChunks accepts_chunks cs st = Some st' ->
  store_ok st'.
Proof.
  intros Hok Hall. unfold insertChunks. repeat case_match; try done;
    intros [= <-]; [done|]. by apply fold_upsertChunk_store_ok.
Qed.

Lemma store_ok_empty : store_ok empty_store.
Proof. by split. Qed.

End WriteFacts.

(* ================================================================== *)
(** * What a run of the ingest loop leaves in the store *)
(* ================================================================== *)

Section IngestExtras.
Import JS Parser Embedder Db Cli Stats.

Lemma messages_index basename filePath file s i m :
  parseSessionFile basename filePath file = Some s ->
  messages s !! i = Some m -> index m = i.
Proof.
  intros Hp Hm.
  destruct (parseSessionFile_messages basename _ _ _ Hp) as (lines & _ & Hmsgs & _).
  destruct (loop_messages lines Parser.initial) as (rest & Hrest & Hidx & _).
  simpl in Hrest, Hidx. rewrite <- Hmsgs in Hrest. subst rest.
  assert (H : (index <$> messages s) !! i = Some (index m))
    by (by rewrite list_lookup_fmap, Hm).
  rewrite Hidx in H. apply lookup_seq in H as [H _]. simpl in H. done.
Qed.

(** What the embedding block hands on for the chunk of slot [i]. *)
Lemma embedChunks_lookup embedOpt embed cs cs' i c :
  embedChunks embedOpt embed cs = Resolved cs' ->
  cs !! i = Some c ->
  exists c',
    cs' !! i = Some c'
    /\ chunk_key c' = chunk_key c
    /\ ch_role c' = ch_role c
    /\ ch_content c' = ch_content c
    /\ ch_token_count c' = ch_token_count c
    /\ ch_tools_used c' = ch_tools_used c
    /\ ch_files_mentioned c' = ch_files_mentioned c
    /\ ch_created_at c' = ch_created_at c
    /\ ch_embedding c'
       = (if embedOpt then mjoin (embed i (ch_content c)) else ch_embedding c)
    /\ (embedOpt = true -> is_Some (embed i (ch_content c))).
Proof.
  unfold embedChunks. destruct embedOpt.
  - change (embedBatch embed (ch_content <$> cs) None)
      with (embedBatch embed (ch_content <$> cs) (Some 5)).
    rewrite (embedBatch_value embed _ 5) by lia.
    destruct (decide (Forall is_Some (answers embed (ch_content <$> cs))))
      as [Hall|_]; [|done].
    intros [= <-] Hc. exists (setEmbedding (slots embed (ch_content <$> cs)) i c).
    assert (Ht : (ch_content <$> cs) !! i = Some (ch_content c))
      by (by rewrite list_lookup_fmap, Hc).
    pose proof (lookup_answers embed _ _ _ Ht) as Ha.
    pose proof (lookup_slots embed _ _ _ Ht) as Hs.
    rewrite list_lookup_imap, Hc. simpl. rewrite Hs. simpl.
    repeat split; try done. intros _.
    rewrite list.Forall_lookup in Hall. exact (Hall _ _ Ha).
  - intros [= <-] Hc. exists c. by repeat split.
Qed.

Section WithWorld.
Variable basename : jsstring -> jsstring -> jsstring.
Variable accepts_session : Session -> bool.
Variable accepts_chunks : list Chunk -> bool.

Local Abbreviation ingestFile := (ingestFile basename accepts_session accepts_chunks).
Local Abbreviation ingest := (ingest basename accepts_session accepts_chunks).
Local Abbreviation upsertSession := (upsertSession accepts_session).
Local Abbreviation insertChunks := (insertChunks accepts_chunks).

(** The only way a file is counted as processed. *)
Lemma ingestFile_processed embedOpt now embed file rs rs' :
  ingestFile embedOpt now embed file rs = Some rs' ->
  processed rs' = S (processed rs) ->
  exists session id st1 cs',
    parseSessionFile basename file.1 file.2 = Some session
    /\ upsertSession now (sessionOf session) (store rs) = Some (id, st1)
    /\ embedChunks embedOpt embed (chunkOf id <$> messages session) = Resolved cs'
    /\ insertChunks cs' st1 = Some (store rs')
    /\ skipped rs' = skipped rs
    /\ totalChunks rs' = totalChunks rs + length (messages session).
Proof.
  unfold Cli.ingestFile.
  destruct (parseSessionFile basename file.1 file.2) as [session|];
    [|intros [= <-]; simpl; lia].
  destruct (length (messages session) =? 0); [intros [= <-]; simpl; lia|].
  destruct (Db.upsertSession _ _ _ _) as [[id st1]|] eqn:Hup;
    [|intros [= <-]; simpl; lia].
  destruct (embedChunks _ _ _) as [cs'| |] eqn:Hemb;
    [|intros [= <-]; simpl; lia|done].
  destruct (Db.insertChunks _ _ _) as [st2|] eqn:Hins;
    [|intros [= <-]; simpl; lia].
  intros [= <-] _. simpl. exists session, id, st1, cs'.
  repeat split; try done.
  apply embedChunks_keys in Hemb as [_ ->]. by rewrite length_fmap.
Qed.

(** Every way the body of the loop ends, seen from the store. *)
Lemma ingestFile_store embedOpt now embed file rs rs' :
  ingestFile embedOpt now embed file rs = Some rs' ->
  store rs' = store rs
  \/ exists session id st1,
       parseSessionFile basename file.1 file.2 = Some session
       /\ upsertSession now (sessionOf session) (store rs) = Some (id, st1)
       /\ (store rs' = st1
           \/ exists cs',
                chunk_key <$> cs' = (fun m => (id, index m)) <$> messages session
                /\ insertChunks cs' st1 = Some (store rs')).
Proof.
  unfold Cli.ingestFile.
  destruct (parseSessionFile basename file.1 file.2) as [session|];
    [|intros [= <-]; by left].
  destruct (length (messages session) =? 0); [intros [= <-]; by left|].
  destruct (Db.upsertSession _ _ _ _) as [[id st1]|] eqn:Hup;
    [|intros [= <-]; by left].
  destruct (embedChunks _ _ _) as [cs'| |] eqn:Hemb;
    [|intros [= <-]; right; exists session, id, st1; eauto|done].
  destruct (Db.insertChunks _ _ _) as [st2|] eqn:Hins;
    intros [= <-]; right; exists session, id, st1; simpl; [|eauto].
  do 2 (split; [done|]). right. exists cs'. split; [|done].
  apply embedChunks_keys in Hemb as [-> _]. apply chunk_keys_chunkOf.
Qed.

(** The rows that a processed file leaves, slot by slot. *)
Lemma ingestFile_rows embedOpt now embed file rs rs' session :
  parseSessionFile basename file.1 file.2 = Some session ->
  ingestFile embedOpt now embed file rs = Some rs' ->
  processed rs' = S (processed rs) ->
  exists srow,
    sessions (store rs') !! sessionId session = Some srow
    /\ forall i m, messages session !! i = Some m ->
         exists row,
           chunks (store rs') !! (s_id srow, i) = Some row
           /\ c_content row = content m
           /\ c_token_count row = tokenCount m
           /\ c_tools_used row = toolsUsed m
           /\ c_files_mentioned row = filesMentioned m
           /\ c_embedding row
              = (if embedOpt then mjoin (embed i (content m)) else None)
           /\ (embedOpt = true -> is_Some (embed i (content m)))
           /\ match chunks (store rs) !! (s_id srow, i) with
              | Some old => c_role row = c_role old
                            /\ c_created_at row = c_created_at old
              | None => c_role row = role m /\ c_created_at row = timestamp m
              end.
Proof.
  intros Hp Hing Hproc.
  destruct (ingestFile_processed _ _ _ _ _ _ Hing Hproc)
    as (session' & id & st1 & cs' & Hp' & Hup & Hemb & Hins & _).
  rewrite Hp in Hp'. injection Hp' as <-.
  destruct (upsertSession_spec _ _ _ _ _ _ Hup)
    as (_ & Hchunks & (srow & Hsess & Hid) & _).
  destruct (insertChunks_rows _ _ _ _ Hins) as (Hrows & _ & Hsame).
  exists srow. split.
  { rewrite Hsame, Hsess. simpl. by rewrite lookup_insert_eq. }
  intros i m Hm.
  assert (Hc : (chunkOf id <$> messages session) !! i = Some (chunkOf id m))
    by (by rewrite list_lookup_fmap, Hm).
  destruct (embedChunks_lookup _ _ _ _ _ _ Hemb Hc)
    as (c' & Hc' & Hkey & Hrole & Hcont & Htok & Htools & Hfiles & Htime & Hvec & Hsome).
  destruct (Hrows c') as (row & Hrow & Hw); [by eapply list_elem_of_lookup_2|].
  assert (Hk : chunk_key c' = (s_id srow, i)).
  { rewrite Hkey, Hid. unfold chunk_key. simpl.
    by rewrite (messages_index _ _ _ _ _ _ Hp Hm). }
  rewrite Hk in Hrow. exists row. split; [done|].
  destruct Hw as (-> & -> & -> & -> & -> & Hold).
  rewrite Hcont, Htok, Htools, Hfiles, Hvec. simpl.
  repeat (split; [done|]).
  rewrite Hk, Hchunks in Hold. destruct (chunks (store rs) !! (s_id srow, i)).
  - by destruct Hold as (_ & ? & ?).
  - by rewrite Hrole, Htime in Hold.
Qed.

(** X15. When a file is counted as processed, the store holds, for the
    message of every slot [i] of the parsed session, a row at index [i]
    of the row of the session, with the content, token count, tools and
    files of the message. With embeddings asked for, no request of the
    file has failed and the embedding of the row is what the request for
    slot [i] returned: the vector, or NULL when the answer of the service
    held none. Without, the embedding is NULL. The role and the time of a
    row that was there before are not touched. *)
Theorem ingest_stores_messages embedOpt now embed file rs rs' session :
  parseSessionFile basename file.1 file.2 = Some session ->
  ingestFile embedOpt now embed file rs = Some rs' ->
  processed rs' = S (processed rs) ->
  exists srow,
    sessions (store rs') !! sessionId session = Some srow
    /\ forall i m, messages session !! i = Some m ->
         exists row,
           chunks (store rs') !! (s_id srow, i) = Some row
           /\ c_content row = content m
           /\ c_token_count row = tokenCount m
           /\ c_tools_used row = toolsUsed m
           /\ c_files_mentioned row = filesMentioned m
           /\ match embedOpt, embed i (content m) with
              | false, _ => c_embedding row = None
              | true, Some returned => c_embedding row = returned
              | true, None => False
              end
           /\ match chunks (store rs) !! (s_id srow, i) with
              | Some old => c_role row = c_role old
                            /\ c_created_at row = c_created_at old
              | None => c_role row = role m /\ c_created_at row = timestamp m
              end.
Proof.
  intros Hp Hing Hproc.
  destruct (ingestFile_rows _ _ _ _ _ _ _ Hp Hing Hproc)
    as (srow & Hsrow & Hrows).
  exists srow. split; [done|]. intros i m Hm.
  destruct (Hrows i m Hm)
    as (row & Hrow & Hc & Ht & Htools & Hfiles & Hvec & Hsome & Hold).
  exists row. repeat (split; [done|]). split; [|done].
  destruct embedOpt; [|done].
  destruct (Hsome eq_refl) as [returned Hr]. by rewrite Hr in *.
Qed.

(** X16. When the session statement of a parsed file is accepted, the
    row of the session holds the path, project, last time, number of
    messages and token total of this parse and the time of this run,
    whether or not the chunks were written afterwards. The key and the
    creation time of a row that was there before are kept. *)
Theorem ingest_session_row embedOpt now embed file rs rs' session :
  parseSessionFile basename file.1 file.2 = Some session ->
  accepts_session (sessionOf session) = true ->
  ingestFile embedOpt now embed file rs = Some rs' ->
  exists srow,
    sessions (store rs') !! sessionId session = Some srow
    /\ s_source_path srow = file.1
    /\ s_project_name srow = projectName session
    /\ s_updated_at srow = updatedAt session
    /\ s_message_count srow = length (messages session)
    /\ s_total_tokens srow = totalTokens session
    /\ s_ingested_at srow = now
    /\ match sessions (store rs) !! sessionId session with
       | Some old => s_id srow = s_id old /\ s_created_at srow = s_created_at old
       | None => s_id srow = next_id (store rs)
                 /\ s_created_at srow = createdAt session
       end.
Proof.
  intros Hp Hacc Hing.
  assert (Hpath : sourcePath session = file.1).
  { revert Hp. unfold parseSessionFile. repeat case_match; try done.
    by intros [= <-]. }
  assert (Hlen : (length (messages session) =? 0) = false).
  { destruct (parseSessionFile_messages basename _ _ _ Hp) as (_ & _ & _ & H).
    apply Nat.eqb_neq. lia. }
  revert Hing. unfold Cli.ingestFile. rewrite Hp, Hlen.
  unfold Db.upsertSession. rewrite Hacc. simpl.
  destruct (sessions (store rs) !! sessionId session) as [old|] eqn:Hold.
  - destruct (embedChunks _ _ _) as [cs'| |]; [|intros [= <-]|done].
    + destruct (Db.insertChunks _ _ _) as [st2|] eqn:Hins; intros [= <-]; simpl.
      * apply insertChunks_spec in Hins as [-> _]. simpl.
        eexists. rewrite lookup_insert_eq. split; [done|]. by simpl.
      * eexists. rewrite lookup_insert_eq. split; [done|]. by simpl.
    + simpl. eexists. rewrite lookup_insert_eq. split; [done|]. by simpl.
  - destruct (embedChunks _ _ _) as [cs'| |]; [|intros [= <-]|done].
    + destruct (Db.insertChunks _ _ _) as [st2|] eqn:Hins; intros [= <-]; simpl.
      * apply insertChunks_spec in Hins as [-> _]. simpl.
        eexists. rewrite lookup_insert_eq. split; [done|]. by simpl.
      * eexists. rewrite lookup_insert_eq. split; [done|]. by simpl.
    + simpl. eexists. rewrite lookup_insert_eq. split; [done|]. by simpl.
Qed.

End WithWorld.
End IngestExtras.

(* ================================================================== *)
(** * What every run of the ingest loop keeps *)
(* ================================================================== *)

Section IngestInvariants.
Import JS Parser Embedder Db Cli Stats.

Variable basename : jsstring -> jsstring -> jsstring.
Variable accepts_session : Session -> bool.
Variable accepts_chunks : list Chunk -> bool.

Local Abbreviation ingestFile := (ingestFile basename accepts_session accepts_chunks).
Local Abbreviation ingest := (ingest basename accepts_session accepts_chunks).
Local Abbreviation upsertSession := (upsertSession accepts_session).
Local Abbreviation insertChunks := (insertChunks accepts_chunks).

Lemma ingest_run_from (P : nat -> RunState -> Prop) embedOpt (jobs : list job) :
  (forall n now embed file rs rs',
     (now, embed, file) ∈ jobs ->
     P n rs -> ingestFile embedOpt now embed file rs = Some rs' -> P (S n) rs') ->
  forall n rs0, P n rs0 ->
    exists rs,
      fold_left (fun rs '(now, embed, file) =>
                   rs ≫= ingestFile embedOpt now embed file)
                jobs (Some rs0) = Some rs
      /\ P (n + length jobs) rs.
Proof.
  induction jobs as [|[[now embed] file] jobs IH]; intros Hstep n rs0 HP.
  - exists rs0. simpl. by rewrite Nat.add_0_r.
  - simpl.
    destruct (ingestFile_returns basename accepts_session accepts_chunks
                embedOpt now embed file rs0) as [rs1 H1].
    rewrite H1. destruct (IH (fun n now' embed' file' rs rs' Hin =>
                                Hstep n now' embed' file' rs rs'
                                      (list_elem_of_further _ _ _ Hin))
                             (S n) rs1) as (rs & Hrs & HPrs).
    { eapply Hstep; [apply list_elem_of_here|exact HP|exact H1]. }
    exists rs. split; [done|]. by rewrite <- Nat.add_succ_comm.
Qed.

(** A property of the store and the counters that the body of the loop
    keeps for every file of the run holds at the end of the loop, and the
    loop ends. *)
Lemma ingest_run_in (P : nat -> RunState -> Prop) embedOpt (jobs : list job) st :
  P 0 (start st) ->
  (forall n now embed file rs rs',
     (now, embed, file) ∈ jobs ->
     P n rs -> ingestFile embedOpt now embed file rs = Some rs' -> P (S n) rs') ->
  exists rs, ingest embedOpt jobs st = Some rs /\ P (length jobs) rs.
Proof.
  intros H0 Hstep.
  destruct (ingest_run_from P embedOpt jobs Hstep 0 (start st) H0) as (rs & ? & ?).
  by exists rs.
Qed.

Lemma ingest_run (P : nat -> RunState -> Prop) embedOpt (jobs : list job) st :
  P 0 (start st) ->
  (forall n now embed file rs rs',
     P n rs -> ingestFile embedOpt now embed file rs = Some rs' -> P (S n) rs') ->
  exists rs, ingest embedOpt jobs st = Some rs /\ P (length jobs) rs.
Proof.
  intros H0 Hstep. apply ingest_run_in; [done|].
  intros n now embed file rs rs' _. apply Hstep.
Qed.

Lemma size_list_to_set_le (l : list (nat * nat)) :
  size (list_to_set (C := gset (nat * nat)) l) <= length l.
Proof.
  induction l as [|x l IH]; [done|]. simpl.
  rewrite size_union_alt, size_singleton.
  assert (size (list_to_set (C := gset (nat * nat)) l ∖ {[x]})
          <= size (list_to_set (C := gset (nat * nat)) l))
    by (apply subseteq_size; set_solver).
  lia.
Qed.

(** The body of the loop keeps the store consistent. *)
Lemma ingestFile_store_ok embedOpt now embed file rs rs' :
  store_ok (store rs) ->
  ingestFile embedOpt now embed file rs = Some rs' ->
  store_ok (store rs').
Proof.
  intros Hok Hing.
  destruct (ingestFile_store _ _ _ _ _ _ _ _ _ Hing)
    as [->|(session & id & st1 & Hp & Hup & Hrest)]; [done|].
  destruct (upsertSession_store_ok _ _ _ _ _ _ Hok Hup)
    as (Hok1 & (srow & Hsrow & Hid) & _).
  destruct Hrest as [->|(cs' & Hkeys & Hins)]; [done|].
  eapply insertChunks_store_ok; [exact Hok1| |exact Hins].
  apply list.Forall_forall. intros c Hc.
  exists (session_id (sessionOf session)), srow. split; [done|].
  assert (Hk : chunk_key c ∈ chunk_key <$> cs') by (by apply list_elem_of_fmap_2).
  rewrite Hkeys in Hk. apply list_elem_of_fmap in Hk as (m & Hk & _).
  unfold chunk_key in Hk. by injection Hk as -> _.
Qed.

(** The body of the loop removes no row. *)
Lemma ingestFile_grows embedOpt now embed file rs rs' :
  ingestFile embedOpt now embed file rs = Some rs' ->
  dom (sessions (store rs)) ⊆ dom (sessions (store rs'))
  /\ dom (chunks (store rs)) ⊆ dom (chunks (store rs'))
  /\ size (chunks (store rs')) + totalChunks rs
     <= size (chunks (store rs)) + totalChunks rs'.
Proof.
  intros Hing.
  destruct (ingestFile_inv _ _ _ _ _ _ _ _ _ Hing)
    as [(_ & _ & session & id & st1 & cs & Hp & Hup & Hkeys & Hins & Htot)
       |(_ & _ & Htot & [->|(session & id & Hp & Hup)])].
  - destruct (upsertSession_spec _ _ _ _ _ _ Hup)
      as (_ & Hchunks & (srow & Hsess & _) & _).
    destruct (insertChunks_spec _ _ _ _ Hins) as [Hs Hdom].
    rewrite Hs, Hsess, Hdom, Hchunks. split; [set_solver|]. split; [set_solver|].
    rewrite <- !size_dom, Hdom, Hchunks, Htot, size_union_alt.
    pose proof (size_list_to_set_le (chunk_key <$> cs)) as Hle.
    rewrite Hkeys, length_fmap in Hle. rewrite Hkeys.
    assert (size (dom (chunks (store rs))
                  ∖ list_to_set ((fun m => (id, index m)) <$> messages session))
            <= size (dom (chunks (store rs))))
      by (apply subseteq_size; set_solver).
    lia.
  - split; [done|]. split; [done|]. lia.
  - destruct (upsertSession_spec _ _ _ _ _ _ Hup)
      as (_ & Hchunks & (srow & Hsess & _) & _).
    rewrite Hsess, Hchunks. split; [set_solver|]. split; [done|]. lia.
Qed.

(** X17. A run of the loop over any list of files ends, every file
    being counted once, as processed or as skipped, and the store it
    leaves is consistent when the one it started from was: rows sit at
    their keys, generated keys differ from session to session, and every
    chunk belongs to a session that is there. *)
Theorem ingest_run_consistent embedOpt (jobs : list job) st :
  store_ok st ->
  exists rs,
    ingest embedOpt jobs st = Some rs
    /\ processed rs + skipped rs = length jobs
    /\ store_ok (store rs).
Proof.
  intros Hok.
  destruct (ingest_run
              (fun n rs => processed rs + skipped rs = n /\ store_ok (store rs))
              embedOpt jobs st) as (rs & Hrs & Hn & Hok'); [done| |by exists rs].
  intros n now embed file rs rs' [Hn Hrs] Hing. split.
  - destruct (ingestFile_inv _ _ _ _ _ _ _ _ _ Hing)
      as [(-> & -> & _)|(-> & -> & _)]; lia.
  - by eapply ingestFile_store_ok.
Qed.

(** X18. A run of the loop deletes nothing: every session and every
    chunk that was in the store is still there, also those of a file
    that has become shorter since. The number of chunks the run reports is
    an upper bound of the number of rows it added. *)
Theorem ingest_never_deletes embedOpt (jobs : list job) st rs :
  ingest embedOpt jobs st = Some rs ->
  dom (sessions st) ⊆ dom (sessions (store rs))
  /\ dom (chunks st) ⊆ dom (chunks (store rs))
  /\ size (chunks (store rs)) <= size (chunks st) + totalChunks rs.
Proof.
  intros Hrun.
  destruct (ingest_run
              (fun _ rs => dom (sessions st) ⊆ dom (sessions (store rs))
                           /\ dom (chunks st) ⊆ dom (chunks (store rs))
                           /\ size (chunks (store rs))
                              <= size (chunks st) + totalChunks rs)
              embedOpt jobs st) as (rs0 & Hrs0 & H).
  - simpl. split; [done|]. split; [done|]. lia.
  - intros _ now embed file rs1 rs2 (Hs & Hc & Hn) Hing.
    destruct (ingestFile_grows _ _ _ _ _ _ Hing) as (Hs' & Hc' & Hn').
    split; [set_solver|]. split; [set_solver|]. lia.
  - rewrite Hrun in Hrs0. by injection Hrs0 as <-.
Qed.

(** X19. Ingesting a file touches the rows of no other session: in a
    consistent store, the row of every session with another name and all
    the chunks of that session are after the file as they were before it,
    however the file ended. *)
Theorem ingest_other_sessions embedOpt now embed file rs rs' sid srow :
  store_ok (store rs) ->
  ingestFile embedOpt now embed file rs = Some rs' ->
  sid <> basename file.1 (lit ".jsonl") ->
  sessions (store rs) !! sid = Some srow ->
  sessions (store rs') !! sid = Some srow
  /\ forall j, chunks (store rs') !! (s_id srow, j)
               = chunks (store rs) !! (s_id srow, j).
Proof.
  intros Hok Hing Hsid Hsrow.
  destruct (ingestFile_store _ _ _ _ _ _ _ _ _ Hing)
    as [->|(session & id & st1 & Hp & Hup & Hrest)]; [done|].
  pose proof (parseSessionFile_sessionId basename _ _ _ Hp) as Hname.
  destruct (upsertSession_store_ok _ _ _ _ _ _ Hok Hup)
    as (_ & (row & Hrow & Hid) & Hother & Hnew).
  destruct (upsertSession_spec _ _ _ _ _ _ Hup) as (_ & Hchunks & _ & Hold).
  simpl in Hother, Hold, Hnew, Hrow. rewrite Hname in Hother, Hold, Hnew, Hrow.
  assert (Hne : s_id srow <> id).
  { destruct (sessions (store rs) !! basename file.1 (lit ".jsonl"))
      as [old|] eqn:Ho.
    - destruct Hold as [-> _]. intros Heq. apply Hsid.
      by eapply (ok_session_inj _ Hok).
    - destruct Hold as [-> _]. apply (ok_session_id _ Hok) in Hsrow. lia. }
  destruct Hrest as [->|(cs' & Hkeys & Hins)].
  - rewrite Hother, Hchunks by done. done.
  - destruct (insertChunks_rows _ _ _ _ Hins) as (_ & Hframe & ->).
    rewrite Hother by done. split; [done|]. intros j.
    rewrite Hframe, Hchunks; [done|]. rewrite Hkeys.
    intros (m & Hm & _)%list_elem_of_fmap. by injection Hm as Hm _.
Qed.

End IngestInvariants.

(* ================================================================== *)
(** * From the ingest loop to the queries *)
(* ================================================================== *)

Section JoinFacts.
Import JS Parser Embedder Db Cli Stats.

Lemma elem_of_session_rows (st : Store) srow :
  srow ∈ (map_to_list (sessions st)).*2 <->
  exists sid, sessions st !! sid = Some srow.
Proof.
  rewrite list_elem_of_fmap. split.
  - intros ([sid row] & -> & H%elem_of_map_to_list). by exists sid.
  - intros [sid H]. exists (sid, srow). split; [done|].
    by apply elem_of_map_to_list.
Qed.

(** The session the join finds for a key is a stored session with that
    key. *)
Lemma session_by_id_inv st id srow :
  session_by_id st id = Some srow ->
  (exists sid, sessions st !! sid = Some srow) /\ s_id srow = id.
Proof.
  unfold session_by_id. intros H. apply find_some in H as [Hin Hid].
  apply bool_decide_eq_true in Hid. split; [|done].
  by apply elem_of_session_rows, list_elem_of_In.
Qed.

(** In a consistent store the join finds every session by its key. *)
Lemma session_by_id_spec st sid srow :
  store_ok st -> sessions st !! sid = Some srow ->
  session_by_id st (s_id srow) = Some srow.
Proof.
  intros Hok Hs.
  destruct (session_by_id st (s_id srow)) as [srow'|] eqn:Hfind.
  - apply session_by_id_inv in Hfind as [[sid' Hs'] Hid].
    assert (sid' = sid) as -> by (by eapply (ok_session_inj _ Hok)).
    congruence.
  - unfold session_by_id in Hfind.
    eapply find_none in Hfind; [|by apply list_elem_of_In, elem_of_session_rows; eauto].
    simpl in Hfind. by apply bool_decide_eq_false in Hfind.
Qed.

(** In a consistent store, a row of the join that belongs to a session
    is the chunk stored for that session at its index, and it has an
    embedding. *)
Lemma embedded_rows_key st r sid srow :
  store_ok st ->
  r ∈ embedded_rows st ->
  s_session_id (j_session r) = sid ->
  sessions st !! sid = Some srow ->
  chunks st !! (s_id srow, c_chunk_index (j_chunk r)) = Some (j_chunk r)
  /\ c_embedding (j_chunk r) = Some (j_embedding r).
Proof.
  intros Hok Hr Hname Hsrow.
  apply elem_of_embedded_rows in Hr as ([k Hk] & Hvec & Hjoin).
  apply session_by_id_inv in Hjoin as [[sid' Hsid] Hid].
  pose proof (ok_session_key _ Hok _ _ Hsid) as Hsid'.
  rewrite Hname in Hsid'. subst sid'. rewrite Hsrow in Hsid.
  injection Hsid as Hsid. pose proof (ok_chunk_key _ Hok _ _ Hk) as Hkey.
  split; [|done]. by rewrite Hsid, Hid, Hkey.
Qed.

Section WithOperators.
Variable cosine_distance : vector -> vector -> Qc.
Variable visits : vector -> joined -> bool.
Variable ts_match : jsstring -> jsstring -> bool.
Variable ts_rank : jsstring -> jsstring -> option Qc.

Lemma semanticSearch_rows embedding limit roleFilter st results x :
  semanticSearch cosine_distance visits embedding limit roleFilter st
  = Some results ->
  x ∈ results ->
  exists r, r ∈ embedded_rows st
            /\ r_source_session_id x = s_session_id (j_session r)
            /\ r_chunk_index x = c_chunk_index (j_chunk r).
Proof.
  unfold semanticSearch.
  destruct (semanticSelect _ _ _ _ _ _) as [rows|] eqn:Hsel; [|done].
  intros [= <-] (r & -> & Hr)%list_elem_of_fmap.
  apply semanticSelect_spec in Hsel as (_ & _ & _ & Hrows & _).
  exists r. split; [by apply Hrows|done].
Qed.

Lemma hybridSearch_rows embedding keyword limit st results x :
  hybridSearch cosine_distance ts_match ts_rank embedding keyword limit st
  = Some results ->
  x ∈ results ->
  exists r, r ∈ embedded_rows st
            /\ r_source_session_id x = s_session_id (j_session r)
            /\ r_chunk_index x = c_chunk_index (j_chunk r).
Proof.
  unfold hybridSearch.
  destruct (hybridSelect _ _ _ _ _ _ _) as [rows|] eqn:Hsel; [|done].
  intros [= <-] (r & -> & Hr)%list_elem_of_fmap.
  apply hybridSelect_spec in Hsel as (_ & _ & _ & Hrows & _).
  exists r. split; [by apply Hrows|done].
Qed.

Variable basename : jsstring -> jsstring -> jsstring.
Variable accepts_session : Session -> bool.
Variable accepts_chunks : list Chunk -> bool.

Local Abbreviation ingestFile := (ingestFile basename accepts_session accepts_chunks).

(** X20. After a file has been processed with embeddings into a
    consistent store, a message of it is among the rows that the two
    queries select from (the chunks with an embedding, joined to their
    session) exactly when the request for it returned a vector: the row
    is then joined to the session of the file, at the index of the
    message, with its content and with that vector. When the request
    returned without a vector, the chunk is stored with a NULL embedding
    and no row the queries select from is the chunk of that message. *)
Theorem ingested_chunks_searchable now embed file rs rs' session i m :
  store_ok (store rs) ->
  parseSessionFile basename file.1 file.2 = Some session ->
  ingestFile true now embed file rs = Some rs' ->
  processed rs' = S (processed rs) ->
  messages session !! i = Some m ->
  match embed i (content m) with
  | Some (Some v) =>
      exists r,
        r ∈ embedded_rows (store rs')
        /\ s_session_id (j_session r) = sessionId session
        /\ c_chunk_index (j_chunk r) = i
        /\ c_content (j_chunk r) = content m
        /\ j_embedding r = v
  | Some None =>
      forall r, r ∈ embedded_rows (store rs') ->
                s_session_id (j_session r) = sessionId session ->
                c_chunk_index (j_chunk r) <> i
  | None => False
  end.
Proof.
  intros Hok Hp Hing Hproc Hm.
  pose proof (ingestFile_store_ok _ _ _ _ _ _ _ _ _ Hok Hing) as Hok'.
  destruct (ingestFile_rows _ _ _ _ _ _ _ _ _ _ Hp Hing Hproc)
    as (srow & Hsrow & Hrows).
  destruct (Hrows i m Hm) as (row & Hrow & Hcont & _ & _ & _ & Hvec & Hsome & _).
  destruct (Hsome eq_refl) as [returned Hr]. rewrite Hr in Hvec |- *.
  simpl in Hvec. destruct returned as [v|].
  - pose proof (ok_chunk_key _ Hok' _ _ Hrow) as Hkey.
    injection Hkey as Hsid Hidx.
    exists (row, srow, v). unfold j_chunk, j_session, j_embedding.
    split; [|split; [|split; [|split]]]; simpl; try done.
    + apply elem_of_embedded_rows. unfold j_chunk, j_session, j_embedding.
      simpl. split; [by eexists|]. split; [done|].
      rewrite Hsid. by eapply session_by_id_spec.
    + by eapply (ok_session_key _ Hok').
  - intros r Hin Hname Hidx.
    destruct (embedded_rows_key _ _ _ _ Hok' Hin Hname Hsrow) as [Hk Hv].
    rewrite Hidx, Hrow in Hk. injection Hk as Hk. rewrite <- Hk in Hv.
    congruence.
Qed.

(** The rows with an embedding that a file processed without
    embeddings leaves to its session are beyond its last message. *)
Lemma no_embed_rows now embed file rs rs' session r :
  store_ok (store rs) ->
  parseSessionFile basename file.1 file.2 = Some session ->
  ingestFile false now embed file rs = Some rs' ->
  processed rs' = S (processed rs) ->
  r ∈ embedded_rows (store rs') ->
  s_session_id (j_session r) = sessionId session ->
  length (messages session) <= c_chunk_index (j_chunk r).
Proof.
  intros Hok Hp Hing Hproc Hr Hname.
  pose proof (ingestFile_store_ok _ _ _ _ _ _ _ _ _ Hok Hing) as Hok'.
  destruct (ingestFile_rows _ _ _ _ _ _ _ _ _ _ Hp Hing Hproc)
    as (srow & Hsrow & Hrows).
  destruct (embedded_rows_key _ _ _ _ Hok' Hr Hname Hsrow) as [Hk Hv].
  destruct (decide (c_chunk_index (j_chunk r) < length (messages session)))
    as [Hlt|]; [|lia].
  apply lookup_lt_is_Some_2 in Hlt as [m Hm].
  destruct (Hrows _ m Hm) as (row & Hrow & _ & _ & _ & _ & Hnone & _).
  rewrite Hk in Hrow. injection Hrow as <-. congruence.
Qed.

(** X21. Processing a file without embeddings takes its messages out
    of both queries: in a consistent store, no result of the semantic or
    of the hybrid search is a chunk of the session of that file at an
    index below its number of messages, also when an earlier run had
    stored embeddings for them. *)
Theorem no_embed_hides_chunks now embed file rs rs' session :
  store_ok (store rs) ->
  parseSessionFile basename file.1 file.2 = Some session ->
  ingestFile false now embed file rs = Some rs' ->
  processed rs' = S (processed rs) ->
  (forall q limit roleFilter results x,
     semanticSearch cosine_distance visits q limit roleFilter (store rs')
     = Some results ->
     x ∈ results -> r_source_session_id x = sessionId session ->
     length (messages session) <= r_chunk_index x)
  /\ (forall q keyword limit results x,
        hybridSearch cosine_distance ts_match ts_rank q keyword limit (store rs')
        = Some results ->
        x ∈ results -> r_source_session_id x = sessionId session ->
        length (messages session) <= r_chunk_index x).
Proof.
  intros Hok Hp Hing Hproc. split.
  - intros q limit roleFilter results x Hs Hx Hname.
    destruct (semanticSearch_rows _ _ _ _ _ _ Hs Hx) as (r & Hr & Hn & ->).
    eapply no_embed_rows; try done. congruence.
  - intros q keyword limit results x Hs Hx Hname.
    destruct (hybridSearch_rows _ _ _ _ _ _ Hs Hx) as (r & Hr & Hn & ->).
    eapply no_embed_rows; try done. congruence.
Qed.

End WithOperators.
End JoinFacts.

(* ================================================================== *)
(** * The batcher with a concurrency of zero *)
(* ================================================================== *)

Section BatcherEdge.
Import JS Embedder Trace.
Variable embed : nat -> jsstring -> reply.

Lemma loop_requests_stuck texts fuel results :
  loop_requests embed fuel texts 0 0 results = [].
Proof.
  induction fuel as [|fuel IH]; [done|]. simpl.
  destruct (0 <? length texts); [|done]. exact IH.
Qed.

(** X22. With a concurrency of 0 the loop of [embedBatch] does not
    advance: on a non-empty list of texts the call sends no request and
    never settles, however long it runs; on the empty list it resolves
    with the empty list. *)
Theorem embedBatch_zero_concurrency texts :
  (texts <> [] ->
   (forall fuel results, loop embed fuel texts 0 0 results = Pending)
   /\ embedBatch embed texts (Some 0) = Pending
   /\ requests embed texts (Some 0) = [])
  /\ (texts = [] -> embedBatch embed texts (Some 0) = Resolved []).
Proof.
  split.
  - intros Hne. assert (Hloop : forall fuel results,
                          loop embed fuel texts 0 0 results = Pending).
    { destruct texts as [|t texts]; [done|].
      induction fuel as [|fuel IH]; [done|]. intros results. apply IH. }
    split; [done|]. split; [apply Hloop|]. apply loop_requests_stuck.
  - by intros ->.
Qed.

End BatcherEdge.

(* ================================================================== *)
(** * The counts after a run *)
(* ================================================================== *)

Section StatsFacts.
Import JS Parser Embedder Db Cli Stats.

Lemma filter_all {A} (P : A -> Prop) `{forall x, Decision (P x)} (l : list A) :
  Forall P l -> filter P l = l.
Proof.
  induction 1 as [|x l Hx _ IH]; [done|].
  by rewrite filter_cons_True, IH.
Qed.

Lemma filter_none {A} (P : A -> Prop) `{forall x, Decision (P x)} (l : list A) :
  Forall (fun x => ~ P x) l -> filter P l = [].
Proof.
  induction 1 as [|x l Hx _ IH]; [done|].
  by rewrite filter_cons_False.
Qed.

Lemma n_embedded_all st :
  (forall k row, chunks st !! k = Some row -> is_Some (c_embedding row)) ->
  n_embedded (getStats st) = n_chunks (getStats st).
Proof.
  intros Hall. simpl. rewrite <- length_map_to_list, <- (length_fmap snd).
  f_equal. apply filter_all, list.Forall_forall.
  intros row ([k row'] & -> & H%elem_of_map_to_list)%list_elem_of_fmap.
  by eapply Hall.
Qed.

Lemma n_embedded_none st :
  (forall k row, chunks st !! k = Some row -> c_embedding row = None) ->
  n_embedded (getStats st) = 0.
Proof.
  intros Hall. simpl. rewrite filter_none; [done|].
  apply list.Forall_forall.
  intros row ([k row'] & -> & H%elem_of_map_to_list)%list_elem_of_fmap.
  unfold has_embedding. simpl. rewrite (Hall _ _ H). by intros [? ?].
Qed.

Variable basename : jsstring -> jsstring -> jsstring.
Variable accepts_session : Session -> bool.
Variable accepts_chunks : list Chunk -> bool.

Local Abbreviation ingestFile := (ingestFile basename accepts_session accepts_chunks).
Local Abbreviation ingest := (ingest basename accepts_session accepts_chunks).

(** What holds of the embeddings of all rows is kept by the body of
    the loop when it holds of what the requests return (with embeddings
    asked for) or of NULL (without). *)
Lemma ingestFile_embeddings (Q : option vector -> Prop)
      embedOpt now embed file rs rs' :
  (forall i t returned, embedOpt = true -> embed i t = Some returned ->
     Q returned) ->
  (embedOpt = false -> Q None) ->
  (forall k row, chunks (store rs) !! k = Some row -> Q (c_embedding row)) ->
  ingestFile embedOpt now embed file rs = Some rs' ->
  forall k row, chunks (store rs') !! k = Some row -> Q (c_embedding row).
Proof.
  intros Hyes Hno Hall Hing k row Hrow.
  destruct (processed rs' =? S (processed rs)) eqn:Hproc.
  - apply Nat.eqb_eq in Hproc.
    destruct (ingestFile_processed _ _ _ _ _ _ _ _ _ Hing Hproc)
      as (session & id & st1 & cs' & Hp & Hup & Hemb & Hins & _).
    destruct (upsertSession_spec _ _ _ _ _ _ Hup) as (_ & Hchunks & _).
    destruct (insertChunks_rows _ _ _ _ Hins) as (Hrows & Hframe & _).
    destruct (decide (k ∈ chunk_key <$> cs')) as [Hk|Hk].
    + apply list_elem_of_fmap in Hk as (c' & -> & Hc').
      destruct (Hrows c' Hc') as (row' & Hrow' & Hw).
      rewrite Hrow in Hrow'. injection Hrow' as <-.
      destruct Hw as (_ & -> & _).
      apply list_elem_of_lookup in Hc' as [i Hi].
      assert (exists c, (chunkOf id <$> messages session) !! i = Some c)
        as [c Hc].
      { apply lookup_lt_is_Some. apply embedChunks_keys in Hemb as [_ <-].
        by eapply lookup_lt_Some. }
      destruct (embedChunks_lookup _ _ _ _ _ _ Hemb Hc)
        as (c'' & Hc'' & _ & _ & _ & _ & _ & _ & _ & Hvec & Hsome).
      rewrite Hi in Hc''. injection Hc'' as <-. rewrite Hvec.
      destruct embedOpt.
      * destruct (Hsome eq_refl) as [returned Hr]. rewrite Hr. simpl.
        by eapply Hyes.
      * apply list_lookup_fmap_Some in Hc as (m & -> & _). simpl. by apply Hno.
    + rewrite Hframe, Hchunks in Hrow by done. by eapply Hall.
  - apply Nat.eqb_neq in Hproc.
    destruct (ingestFile_inv _ _ _ _ _ _ _ _ _ Hing)
      as [(? & _)|(_ & _ & _ & [Hst|(session & id & Hp & Hup)])]; [done| |].
    + rewrite Hst in Hrow. by eapply Hall.
    + destruct (upsertSession_spec _ _ _ _ _ _ Hup) as (_ & Hchunks & _).
      rewrite Hchunks in Hrow. by eapply Hall.
Qed.

Lemma ingestFile_sessions_size embedOpt now embed file rs rs' :
  ingestFile embedOpt now embed file rs = Some rs' ->
  size (sessions (store rs')) <= S (size (sessions (store rs))).
Proof.
  intros Hing.
  destruct (ingestFile_store _ _ _ _ _ _ _ _ _ Hing)
    as [->|(session & id & st1 & Hp & Hup & Hrest)]; [lia|].
  destruct (upsertSession_spec _ _ _ _ _ _ Hup) as (_ & _ & (srow & Hs & _) & _).
  assert (Hsize : size (sessions st1) <= S (size (sessions (store rs)))).
  { rewrite Hs. destruct (sessions (store rs) !! session_id (sessionOf session))
      as [old|] eqn:Hold.
    - rewrite size_insert_present by eauto. lia.
    - by rewrite map_size_insert_None. }
  destruct Hrest as [->|(cs' & _ & Hins)]; [done|].
  apply insertChunks_spec in Hins as [-> _]. done.
Qed.

(** X23. What [getStats] counts after a run of the loop on an empty
    store: at most one session per file, at most as many chunks as the
    run reports, and never more embedded chunks than chunks. Without
    embeddings asked for, no chunk is embedded. With embeddings asked for,
    all chunks are embedded provided no request of the run returned
    without a vector; a request that does leaves a chunk that is counted
    but not embedded. *)
Theorem stats_after_run embedOpt (jobs : list job) rs :
  ingest embedOpt jobs empty_store = Some rs ->
  n_sessions (getStats (store rs)) <= length jobs
  /\ n_chunks (getStats (store rs)) <= totalChunks rs
  /\ n_embedded (getStats (store rs)) <= n_chunks (getStats (store rs))
  /\ (embedOpt = false -> n_embedded (getStats (store rs)) = 0)
  /\ (embedOpt = true ->
      (forall now embed file i t,
         (now, embed, file) ∈ jobs -> embed i t <> Some None) ->
      n_embedded (getStats (store rs)) = n_chunks (getStats (store rs))).
Proof.
  intros Hrun.
  destruct (ingest_run basename accepts_session accepts_chunks
              (fun n rs => size (sessions (store rs)) <= n
                           /\ size (chunks (store rs)) <= totalChunks rs)
              embedOpt jobs empty_store) as (rs0 & Hrs0 & Hs & Hc).
  { simpl. rewrite !map_size_empty. by split. }
  { intros n now embed file rs1 rs2 (Hs & Hc) Hing.
    pose proof (ingestFile_sessions_size _ _ _ _ _ _ Hing).
    destruct (ingestFile_grows _ _ _ _ _ _ _ _ _ Hing) as (_ & _ & Hn).
    split; lia. }
  rewrite Hrun in Hrs0. injection Hrs0 as <-.
  split; [done|]. split; [done|]. split; [|split].
  - simpl. rewrite <- length_map_to_list, <- (length_fmap snd).
    apply length_filter.
  - intros ->. apply n_embedded_none.
    destruct (ingest_run basename accepts_session accepts_chunks
                (fun _ rs => forall k row, chunks (store rs) !! k = Some row ->
                                c_embedding row = None)
                false jobs empty_store) as (rs0 & Hrs0 & He).
    + intros k row H. simpl in H. by rewrite lookup_empty in H.
    + intros _ now embed file rs1 rs2 He Hing.
      by apply (ingestFile_embeddings (fun e => e = None) false now embed
                                      file rs1 rs2).
    + rewrite Hrun in Hrs0. by injection Hrs0 as <-.
  - intros -> Hvec. apply n_embedded_all.
    destruct (ingest_run_in basename accepts_session accepts_chunks
                (fun _ rs => forall k row, chunks (store rs) !! k = Some row ->
                                is_Some (c_embedding row))
                true jobs empty_store) as (rs0 & Hrs0 & He).
    + intros k row H. simpl in H. by rewrite lookup_empty in H.
    + intros _ now embed file rs1 rs2 Hin He Hing.
      apply (ingestFile_embeddings is_Some true now embed file rs1 rs2);
        try done.
      intros i t [v|] _ Hr; [by eexists|]. by destruct (Hvec _ _ _ i t Hin).
    + rewrite Hrun in Hrs0. by injection Hrs0 as <-.
Qed.

End StatsFacts.

(* ================================================================== *)
(** * The ingest command *)
(* ================================================================== *)

Section CommandFacts.
Import JS Parser Embedder Db Cli Walk Health Command.

Lemma filesToProcess_prefix limit files :
  filesToProcess limit files `prefix_of` files.
Proof.
  unfold filesToProcess, slice_to. repeat case_match; try done;
    apply prefix_take.
Qed.

(** X24. The files the command processes are a prefix of the files it
    found: all of them when no limit is given or the limit is 0 or not a
    number, the first [n] for a positive limit [n], and all but the last
    [-n] for a negative one. *)
Theorem filesToProcess_spec limit files :
  filesToProcess limit files `prefix_of` files
  /\ ((limit = None \/ limit = Some 0%Z) -> filesToProcess limit files = files)
  /\ (forall n, limit = Some n -> (0 < n)%Z ->
        filesToProcess limit files = take (Z.to_nat n) files
        /\ length (filesToProcess limit files) = Z.to_nat n `min` length files)
  /\ (forall n, limit = Some n -> (n < 0)%Z ->
        filesToProcess limit files = take (length files - Z.to_nat (- n)) files
        /\ length (filesToProcess limit files) = length files - Z.to_nat (- n)).
Proof.
  split; [apply filesToProcess_prefix|split; [|split]].
  - by intros [->| ->].
  - intros n -> Hn. unfold filesToProcess, slice_to.
    destruct (Z.eqb_spec n 0); [lia|]. destruct (Z.ltb_spec n 0); [lia|].
    split; [done|]. apply length_take.
  - intros n -> Hn. unfold filesToProcess, slice_to.
    destruct (Z.eqb_spec n 0); [lia|]. destruct (Z.ltb_spec n 0); [|lia].
    replace (Z.to_nat (Z.of_nat (length files) + n))
      with (length files - Z.to_nat (- n)) by lia.
    split; [done|]. rewrite length_take. lia.
Qed.

Variable basename : jsstring -> jsstring -> jsstring.
Variable join : jsstring -> jsstring -> jsstring.
Variable claudeCode : jsstring.
Variable baseUrl : jsstring.
Variable model : jsstring.
Variable accepts_session : Session -> bool.
Variable accepts_chunks : list Chunk -> bool.

Local Abbreviation ingestCommand :=
  (ingestCommand basename join claudeCode baseUrl model
                 accepts_session accepts_chunks).

(** X25. How the ingest command ends. It never hangs in its loop. The
    process ends with status 1 exactly in two cases: embeddings are asked
    for and the health check fails, which calls [process.exit(1)] before
    any file is looked for; or the health check is passed or not made and
    [findSessionFiles] throws, an exception that nothing catches, also
    with [--no-embed]. In every other case the command completes, and
    every file it set out to process is counted once, as processed or as
    skipped, whatever failed on the way. *)
Theorem ingestCommand_ends opts w st :
  let unhealthy :=
    opt_embed opts = true
    /\ ok (checkOllama baseUrl model (health w)) = false in
  ingestCommand opts w st <> Hangs
  /\ (status (ingestCommand opts w st) = Some 1 <->
      unhealthy \/ filesOf join claudeCode opts w = None)
  /\ (ingestCommand opts w st = Exit1 <-> unhealthy)
  /\ (ingestCommand opts w st = Thrown <->
      ~ unhealthy /\ filesOf join claudeCode opts w = None)
  /\ (forall files,
        ~ unhealthy -> filesOf join claudeCode opts w = Some files ->
        exists rs,
          ingestCommand opts w st = Completed rs
          /\ processed rs + skipped rs
             = length (filesToProcess (opt_limit opts) files)
          /\ processed rs + skipped rs <= length files).
Proof.
  intros unhealthy. unfold unhealthy, Command.ingestCommand.
  destruct (opt_embed opts && negb (ok (checkOllama baseUrl model (health w))))
    eqn:Hexit.
  { apply andb_true_iff in Hexit as [He Hok%negb_true_iff]. simpl.
    naive_solver. }
  assert (Hno : ~ (opt_embed opts = true
                   /\ ok (checkOllama baseUrl model (health w)) = false)).
  { intros [He Hok]. by rewrite He, Hok in Hexit. }
  destruct (filesOf join claudeCode opts w) as [files|] eqn:Hfiles;
    [|simpl; naive_solver].
  destruct (ingest_run basename accepts_session accepts_chunks
              (fun n rs => processed rs + skipped rs = n)
              (opt_embed opts)
              (jobsOf w (filesToProcess (opt_limit opts) files)) st)
    as (rs & Hrs & Hn); [done| |].
  { intros n now embed file rs1 rs2 Hn Hing.
    destruct (ingestFile_inv _ _ _ _ _ _ _ _ _ Hing)
      as [(-> & -> & _)|(-> & -> & _)]; lia. }
  rewrite Hrs. simpl. split; [done|]. split; [naive_solver|].
  split; [naive_solver|]. split; [naive_solver|].
  intros files' _ [= <-]. exists rs. split; [done|].
  unfold jobsOf in Hn. rewrite length_imap in Hn. split; [done|].
  rewrite Hn. apply prefix_length, filesToProcess_prefix.
Qed.

End CommandFacts.

(* ================================================================== *)
(** * The further properties at the sample inputs *)
(* ================================================================== *)

Section ScenarioFacts.
Import JS Regex Capture Parser Embedder Trace Db Cli Walk Health Command Stats Samples Scenarios.

Lemma sample_store_ok : store_ok sample_store.
Proof.
  unfold sample_store.
  destruct (ingestFile sample_basename accept_all accept_all true 0 service_up
                       readme_file (start empty_store)) as [rs|] eqn:H;
    [|apply store_ok_empty].
  eapply ingestFile_store_ok; [|exact H]. apply store_ok_empty.
Qed.

(** X2 at a turn that mentions one file. *)
Lemma extractFilePaths_sound_witness :
  substring (lit "/home/alice/myapp/src/index.ts")
            (lit "then open /home/alice/myapp/src/index.ts")
  /\ includes (lit "http") (lit "/home/alice/myapp/src/index.ts") = false.
Proof.
  destruct (extractFilePaths_sound
              (lit "then open /home/alice/myapp/src/index.ts")
              (lit "/home/alice/myapp/src/index.ts")) as (H1 & _ & H2 & _).
  - vm_compute. apply list_elem_of_here.
  - by split.
Defined.

(** X4 at the README transcript. *)
Lemma retained_chunk_fields_witness :
  exists s m,
    parseSessionFile sample_basename sample_path (Some readme_transcript) = Some s
    /\ messages s !! 0 = Some m
    /\ 10 <= length (content m)
    /\ tokenCount m = ceil_div (length (content m)) 4.
Proof.
  destruct (parseSessionFile sample_basename sample_path (Some readme_transcript))
    as [s|] eqn:H; [|by vm_compute in H].
  destruct (messages s !! 0) as [m|] eqn:Hm;
    [|by vm_compute in H; injection H as <-].
  exists s, m. split; [done|]. split; [done|].
  destruct (retained_chunk_fields sample_basename sample_path readme_transcript
              s m H) as (H1 & _ & H2 & _).
  - by apply list_elem_of_lookup_2 in Hm.
  - by split.
Defined.

(** X5 at a transcript whose first and last record make the body of
    the loop throw: the span of the session runs from the timestamp of the
    first to that of the last, not over the one turn that is kept. *)
Lemma session_time_span_witness :
  exists s,
    parseSessionFile sample_basename sample_path (Some faulty_transcript) = Some s
    /\ length (messages s) = 1
    /\ createdAt s = Some (mkDate (lit "2026-02-01T00:00:00Z"))
    /\ updatedAt s = Some (mkDate (lit "2026-02-01T00:00:09Z")).
Proof.
  destruct (parseSessionFile sample_basename sample_path (Some faulty_transcript))
    as [s|] eqn:H; [|by vm_compute in H].
  exists s.
  destruct (session_time_span sample_basename sample_path faulty_transcript
                              s H) as [Hfirst Hlast].
  split; [done|]. split; [by vm_compute in H; injection H as <-|].
  split; [by rewrite Hfirst|by rewrite Hlast].
Defined.

(** X7 at the transcript whose second turn names a project. *)
Lemma project_name_shape_witness :
  exists s name,
    parseSessionFile sample_basename sample_path (Some two_paths_transcript)
    = Some s
    /\ projectName s = Some name
    /\ name <> [] /\ (slash ∉ name).
Proof.
  destruct (parseSessionFile sample_basename sample_path
                             (Some two_paths_transcript))
    as [s|] eqn:H; [|by vm_compute in H].
  destruct (projectName s) as [name|] eqn:Hn;
    [|by vm_compute in H; injection H as <-].
  exists s, name. split; [done|]. split; [done|].
  destruct (project_name_shape sample_basename sample_path two_paths_transcript
              s name H Hn) as (H1 & H2 & _).
  by split.
Defined.

(** X8 at twelve texts, one at a time or five at a time. *)
Lemma embedBatch_concurrency_irrelevant_witness :
  embedBatch service_up twelve_texts (Some 1)
  = embedBatch service_up twelve_texts (Some 5).
Proof. apply embedBatch_concurrency_irrelevant; lia. Defined.

(** X9 at twelve texts, five at a time. *)
Lemma requests_sent_witness :
  requests service_up twelve_texts (Some 5) = seq 0 (length twelve_texts).
Proof.
  destruct (requests_sent service_up twelve_texts 5) as (_ & H & _); [lia|].
  apply H. intros i t _. by eexists.
Defined.

(** X11 at the sample directory. *)
Lemma findSessionFiles_names_witness :
  exists files p,
    findSessionFiles sample_join [] sample_stat (Some sample_root) = Some files
    /\ files !! 1 = Some p
    /\ exists parent name, p = sample_join parent name
                           /\ endsWith (lit ".jsonl") name = true.
Proof.
  destruct (findSessionFiles sample_join [] sample_stat (Some sample_root))
    as [files|] eqn:H; [|by vm_compute in H].
  destruct (files !! 1) as [p|] eqn:Hp;
    [|by vm_compute in H; injection H as <-].
  exists files, p. split; [done|]. split; [done|].
  apply (findSessionFiles_names sample_join [] sample_stat (Some sample_root)
                                files p H).
  by apply list_elem_of_lookup_2 in Hp.
Defined.

(** X14 at the sample store: the first row takes the new content and
    keeps its role. *)
Lemma insertChunks_rows_witness :
  exists st' row,
    insertChunks accept_all [sample_chunk] sample_store = Some st'
    /\ chunks st' !! (0, 0) = Some row
    /\ written sample_store sample_chunk row.
Proof.
  destruct (insertChunks accept_all [sample_chunk] sample_store)
    as [st'|] eqn:H; [|by vm_compute in H].
  destruct (insertChunks_rows accept_all [sample_chunk] sample_store st' H)
    as (Hrows & _).
  destruct (Hrows sample_chunk) as (row & Hrow & Hw); [apply list_elem_of_here|].
  by exists st', row.
Defined.

(** X15 at the README transcript, ingested into the empty store with a
    service that returns no vector for slot 1: every row holds what its
    request returned. *)
Lemma ingest_stores_messages_witness :
  exists rs' session srow,
    ingestFile sample_basename accept_all accept_all true 0 service_gap
               readme_file (start empty_store) = Some rs'
    /\ parseSessionFile sample_basename readme_file.1 readme_file.2 = Some session
    /\ sessions (store rs') !! sessionId session = Some srow
    /\ forall i m, messages session !! i = Some m ->
         exists row, chunks (store rs') !! (s_id srow, i) = Some row
                     /\ c_content row = content m
                     /\ service_gap i (content m) = Some (c_embedding row).
Proof.
  destruct (parseSessionFile sample_basename readme_file.1 readme_file.2)
    as [session|] eqn:Hp; [|by vm_compute in Hp].
  destruct (ingestFile sample_basename accept_all accept_all true 0 service_gap
                       readme_file (start empty_store))
    as [rs'|] eqn:Hi; [|by vm_compute in Hi].
  assert (Hproc : processed rs' = S (processed (start empty_store))).
  { vm_compute in Hi. injection Hi as <-. reflexivity. }
  destruct (ingest_stores_messages sample_basename accept_all accept_all
              true 0 service_gap readme_file (start empty_store) rs' session
              Hp Hi Hproc) as (srow & Hsrow & Hrows).
  exists rs', session, srow. split; [done|]. split; [done|]. split; [done|].
  intros i m Hm. destruct (Hrows i m Hm) as (row & Hrow & Hc & _ & _ & _ & Hv & _).
  exists row. split; [done|]. split; [done|].
  destruct (service_gap i (content m)) as [returned|]; [by rewrite Hv|done].
Defined.

(** X16 at the README transcript with the embedding service down. *)
Lemma ingest_session_row_witness :
  exists rs' session srow,
    ingestFile sample_basename accept_all accept_all true 7 service_down
               readme_file (start empty_store) = Some rs'
    /\ parseSessionFile sample_basename readme_file.1 readme_file.2 = Some session
    /\ sessions (store rs') !! sessionId session = Some srow
    /\ s_message_count srow = length (messages session)
    /\ s_ingested_at srow = 7.
Proof.
  destruct (parseSessionFile sample_basename readme_file.1 readme_file.2)
    as [session|] eqn:Hp; [|by vm_compute in Hp].
  destruct (ingestFile sample_basename accept_all accept_all true 7 service_down
                       readme_file (start empty_store))
    as [rs'|] eqn:Hi; [|by vm_compute in Hi].
  destruct (ingest_session_row sample_basename accept_all accept_all
              true 7 service_down readme_file (start empty_store) rs' session
              Hp eq_refl Hi) as (srow & Hsrow & _ & _ & _ & Hn & _ & Ht & _).
  by exists rs', session, srow.
Defined.

(** X17 at the run over the two sample files. *)
Lemma ingest_run_consistent_witness :
  exists rs,
    ingest sample_basename accept_all accept_all true sample_jobs empty_store
    = Some rs
    /\ processed rs + skipped rs = 2
    /\ store_ok (store rs).
Proof.
  apply (ingest_run_consistent sample_basename accept_all accept_all
                               true sample_jobs empty_store).
  apply store_ok_empty.
Defined.

(** X18 at the run over the two sample files, on the sample store. *)
Lemma ingest_never_deletes_witness :
  exists rs,
    ingest sample_basename accept_all accept_all true sample_jobs sample_store
    = Some rs
    /\ dom (chunks sample_store) ⊆ dom (chunks (store rs))
    /\ size (chunks (store rs)) <= size (chunks sample_store) + totalChunks rs.
Proof.
  destruct (ingest sample_basename accept_all accept_all true sample_jobs
                   sample_store) as [rs|] eqn:H; [|by vm_compute in H].
  exists rs. split; [done|].
  destruct (ingest_never_deletes sample_basename accept_all accept_all
              true sample_jobs sample_store rs H) as (_ & H1 & H2).
  by split.
Defined.

(** X19 at the sample store: the second file leaves the session of the
    first alone. *)
Lemma ingest_other_sessions_witness :
  exists rs' srow,
    ingestFile sample_basename accept_all accept_all true 1 service_up
               other_file (start sample_store) = Some rs'
    /\ sessions sample_store !! sample_path = Some srow
    /\ sessions (store rs') !! sample_path = Some srow
    /\ forall j, chunks (store rs') !! (s_id srow, j)
                 = chunks sample_store !! (s_id srow, j).
Proof.
  destruct (ingestFile sample_basename accept_all accept_all true 1 service_up
                       other_file (start sample_store))
    as [rs'|] eqn:Hi; [|by vm_compute in Hi].
  destruct (sessions sample_store !! sample_path) as [srow|] eqn:Hs;
    [|by vm_compute in Hs].
  exists rs', srow. split; [done|]. split; [done|].
  apply (ingest_other_sessions sample_basename accept_all accept_all
           true 1 service_up other_file (start sample_store) rs'
           sample_path srow sample_store_ok Hi); [|exact Hs].
  intros Heq. by vm_compute in Heq.
Defined.

(** X20 at the README transcript with a service that returns no
    vector for slot 1: the second message of the file is in no row the
    queries select from. *)
Lemma ingested_chunks_searchable_witness :
  exists rs' session,
    ingestFile sample_basename accept_all accept_all true 0 service_gap
               readme_file (start empty_store) = Some rs'
    /\ parseSessionFile sample_basename readme_file.1 readme_file.2 = Some session
    /\ 1 < length (messages session)
    /\ forall r, r ∈ embedded_rows (store rs') ->
                 s_session_id (j_session r) = sessionId session ->
                 c_chunk_index (j_chunk r) <> 1.
Proof.
  destruct (parseSessionFile sample_basename readme_file.1 readme_file.2)
    as [session|] eqn:Hp; [|by vm_compute in Hp].
  destruct (ingestFile sample_basename accept_all accept_all true 0 service_gap
                       readme_file (start empty_store))
    as [rs'|] eqn:Hi; [|by vm_compute in Hi].
  destruct (messages session !! 1) as [m|] eqn:Hm;
    [|by vm_compute in Hp; injection Hp as <-].
  assert (Hproc : processed rs' = S (processed (start empty_store))).
  { vm_compute in Hi. injection Hi as <-. reflexivity. }
  exists rs', session. split; [done|]. split; [done|].
  split; [by apply lookup_lt_Some in Hm|].
  exact (ingested_chunks_searchable sample_basename accept_all accept_all
           0 service_gap readme_file (start empty_store) rs' session 1 m
           store_ok_empty Hp Hi Hproc Hm).
Defined.

(** X21 at the sample store: the README transcript ingested again
    without embeddings. *)
Lemma no_embed_hides_chunks_witness :
  exists rs' session,
    ingestFile sample_basename accept_all accept_all false 1 service_up
               readme_file (start sample_store) = Some rs'
    /\ parseSessionFile sample_basename readme_file.1 readme_file.2 = Some session
    /\ forall q limit roleFilter results x,
         semanticSearch sample_distance probe_even q limit roleFilter (store rs')
         = Some results ->
         x ∈ results -> r_source_session_id x = sessionId session ->
         length (messages session) <= r_chunk_index x.
Proof.
  destruct (parseSessionFile sample_basename readme_file.1 readme_file.2)
    as [session|] eqn:Hp; [|by vm_compute in Hp].
  destruct (ingestFile sample_basename accept_all accept_all false 1 service_up
                       readme_file (start sample_store))
    as [rs'|] eqn:Hi; [|by vm_compute in Hi].
  assert (Hproc : processed rs' = S (processed (start sample_store))).
  { vm_compute in Hi. injection Hi as <-. reflexivity. }
  exists rs', session. split; [done|]. split; [done|].
  exact (proj1 (no_embed_hides_chunks sample_distance probe_even
                  sample_match sample_rank
                  sample_basename accept_all accept_all 1 service_up
                  readme_file (start sample_store) rs' session
                  sample_store_ok Hp Hi Hproc)).
Defined.

(** X23 at the run over the two sample files: every request that was
    answered returned a vector, and every chunk is embedded. *)
Lemma stats_after_run_witness :
  exists rs,
    ingest sample_basename accept_all accept_all true sample_jobs empty_store
    = Some rs
    /\ n_sessions (getStats (store rs)) <= 2
    /\ n_embedded (getStats (store rs)) = n_chunks (getStats (store rs)).
Proof.
  destruct (ingest sample_basename accept_all accept_all true sample_jobs
                   empty_store) as [rs|] eqn:H; [|by vm_compute in H].
  exists rs. split; [done|].
  destruct (stats_after_run sample_basename accept_all accept_all
              true sample_jobs rs H) as (H1 & _ & _ & _ & H2).
  split; [done|]. apply H2; [done|].
  intros now embed file i t Hin. unfold sample_jobs in Hin.
  apply elem_of_cons in Hin as [Hin|Hin];
    [|apply list_elem_of_singleton in Hin];
    by injection Hin as _ -> _.
Defined.

(** With a service that returns no vector for slot 1, the run ends with
    one file processed, three chunks stored and two of them embedded. *)
Example gap_run_counts :
  (fun rs => (processed rs, skipped rs, totalChunks rs,
              n_chunks (getStats (store rs)),
              n_embedded (getStats (store rs))))
    <$> ingest sample_basename accept_all accept_all true gap_jobs empty_store
  = Some (1, 0, 3, 3, 2).
Proof. by vm_compute. Qed.

(** The command on a path that is a file, without embeddings: the
    exception of [findSessionFiles] ends it, with status 1. *)
Example command_on_a_file :
  status (ingestCommand sample_basename sample_join [] [] []
            accept_all accept_all
            {| opt_path := lit "/sessions/a.jsonl"; opt_file := None;
               opt_embed := false; opt_limit := None |}
            {| health := NoAnswer;
               stat := fun _ => Some (File (lit "a.jsonl"));
               read := fun _ => None;
               clock := fun _ => 0;
               service := fun _ => service_down |}
            empty_store)
  = Some 1.
Proof. by vm_compute. Qed.

(** What the walk finds in the sample directory. *)
Example findSessionFiles_sample :
  findSessionFiles sample_join [] sample_stat (Some sample_root)
  = Some [lit "/sessions/a.jsonl"; lit "/sessions/proj/b.jsonl"].
Proof. by vm_compute. Qed.

(** What the run over the two sample files leaves: one file processed,
    one skipped, two sessions and the three chunks of the first. *)
Example sample_run_counts :
  (fun rs => (processed rs, skipped rs, totalChunks rs,
              n_sessions (getStats (store rs)), n_chunks (getStats (store rs)),
              n_embedded (getStats (store rs))))
    <$> ingest sample_basename accept_all accept_all true sample_jobs empty_store
  = Some (1, 1, 3, 2, 3, 3).
Proof. by vm_compute. Qed.

End ScenarioFacts.
